(** * free-style: a shallow embedding of [src/index.ts]

    The development follows the source file top to bottom: the string
    helpers ([escape], [hyphenate], [stringHash], [styleToString]), the
    style-tree parser ([sortTuples], [parseStyles], [stringifyProperties]),
    the stylizer ([interpolate], [stylize]), the reference-counted [Cache]
    with its node classes ([Selector], [Style], [Rule]) and the [FreeStyle]
    registration entry points.

    Conventions.
    - A JavaScript string is a [string]: a sequence of code units, here
      restricted to the code units below 256.
    - A JavaScript object used as a record of named fields is a Rocq record;
      an object used as a dictionary is an association list in
      [Object.keys] order (the [Styles] input, whose keys are pairwise
      distinct) or a [gmap] (the [_counters] table of a cache).
    - Mutation is explicit state passing: a method that mutates [this]
      returns the new value of [this]; the process-wide [uniqueId] counter
      is threaded through the functions that bump it. *)

From Stdlib Require Import ZArith Ascii.
From Stdlib Require String OrderedTypeEx.
From stdpp Require Import base option list gmap strings sorting.

Set Warnings "-register-all".

#[local] Arguments Ascii.eqb : simpl never.
#[local] Arguments String.eqb : simpl never.

Local Open Scope Z_scope.

(* ================================================================== *)
(** * JavaScript primitives *)
(* ================================================================== *)

Module JS.

(** ** Strings *)

Definition charCode (c : ascii) : Z := Z.of_nat (nat_of_ascii c).

(** [str.charCodeAt(0)], with [None] standing for [NaN]. *)
Definition charCodeAt0 (s : string) : option Z :=
  match s with
  | EmptyString => None
  | String c _ => Some (charCode c)
  end.

(** [arr.join(sep)] on an array of strings. *)
Fixpoint join (sep : string) (arr : list string) : string :=
  match arr with
  | [] => ""
  | [x] => x
  | x :: rest => x +:+ sep +:+ join sep rest
  end.

(** [str.indexOf(c) !== -1] for a one-character needle. *)
Fixpoint contains (c : ascii) (s : string) : bool :=
  match s with
  | EmptyString => false
  | String d s' => if Ascii.eqb c d then true else contains c s'
  end.

(** White space and line terminators stripped by [String.prototype.trim],
    among the code units below 256: TAB, LF, VT, FF, CR, SP and NBSP. *)
Definition isWhiteSpace (c : ascii) : bool :=
  let n := charCode c in
  ((9 <=? n) && (n <=? 13)) || (n =? 32) || (n =? 160).

Fixpoint trimStart (s : string) : string :=
  match s with
  | EmptyString => ""
  | String c s' => if isWhiteSpace c then trimStart s' else s
  end.

Fixpoint trimEnd (s : string) : string :=
  match s with
  | EmptyString => ""
  | String c s' =>
      match trimEnd s' with
      | EmptyString => if isWhiteSpace c then "" else String c ""
      | t => String c t
      end
  end.

Definition trim (s : string) : string := trimEnd (trimStart s).

(** ** Numbers printed in a radix *)

(** Digits of [n] in base [b], most significant first; [fuel] bounds the
    number of digits. *)
Fixpoint digitsAux (fuel : nat) (b n : N) (acc : list N) : list N :=
  match fuel with
  | O => acc
  | S fuel' =>
      let acc' := (n mod b)%N :: acc in
      if (n / b =? 0)%N then acc' else digitsAux fuel' b (n / b)%N acc'
  end.

Definition digits (b n : N) : list N :=
  digitsAux (S (N.to_nat (N.log2 n))) b n [].

(** The digit characters [0-9a-z]. *)
Definition digitChar (d : N) : ascii :=
  if (d <? 10)%N then ascii_of_N (48 + d) else ascii_of_N (87 + d).

Definition stringOfDigits (ds : list N) : string :=
  String.string_of_list_ascii (map digitChar ds).

(** [n.toString(36)] for a non-negative integer [n]. *)
Definition toString36 (n : N) : string := stringOfDigits (digits 36 n).

(** [String(n)] for a non-negative integer below 10^21. *)
Definition toString10 (n : N) : string := stringOfDigits (digits 10 n).

(** ** The Number type

    A finite Number is modelled by a decimal [m * 10^e]: the decimal that
    [Number::toString] prints for it, which is all that the code looks at
    (it only tests a number for truthiness and interpolates it into a
    template literal). *)
Inductive number :=
  | NaN
  | Infinity (negative : bool)
  | Fin (m : Z) (e : Z).

(** [ToBoolean] on a number: [0] and [NaN] are falsy. *)
Definition numberTruthy (x : number) : bool :=
  match x with
  | NaN => false
  | Infinity _ => true
  | Fin m _ => negb (m =? 0)
  end.

(** Strip the trailing zero digits. *)
Fixpoint stripZeros (ds : list N) : list N :=
  match ds with
  | [] => []
  | d :: rest =>
      match stripZeros rest with
      | [] => if (d =? 0)%N then [] else [d]
      | t => d :: t
      end
  end.

Definition zeros (k : nat) : string := String.string_of_list_ascii (replicate k "0"%char).

(** [Number::toString(x)] in radix 10 (ECMA-262, 6.1.6.1.20): with [k]
    significant digits [s] and [x = s * 10^(n-k)], positional notation is
    used for [-6 < n <= 21] and exponent notation otherwise. *)
Definition numberToString (x : number) : string :=
  match x with
  | NaN => "NaN"
  | Infinity neg => if neg then "-Infinity" else "Infinity"
  | Fin m e =>
      if m =? 0 then "0" else
      let sign := if m <? 0 then "-" else "" in
      let ds := digits 10 (Z.to_N (Z.abs m)) in
      let s := stripZeros ds in
      let k := Z.of_nat (length s) in
      let n := Z.of_nat (length ds) + e in
      sign +:+
      (if (k <=? n) && (n <=? 21) then
         stringOfDigits s +:+ zeros (Z.to_nat (n - k))
       else if (0 <? n) && (n <=? 21) then
         stringOfDigits (take (Z.to_nat n) s) +:+ "." +:+
         stringOfDigits (drop (Z.to_nat n) s)
       else if (-6 <? n) && (n <=? 0) then
         "0." +:+ zeros (Z.to_nat (- n)) +:+ stringOfDigits s
       else
         let ex := n - 1 in
         let exs := (if ex <? 0 then "-" else "+") +:+
                    toString10 (Z.to_N (Z.abs ex)) in
         match s with
         | [d] => stringOfDigits [d] +:+ "e" +:+ exs
         | _ => stringOfDigits (take 1 s) +:+ "." +:+
                stringOfDigits (drop 1 s) +:+ "e" +:+ exs
         end)
  end.

End JS.

(* ================================================================== *)
(** * [String.prototype.replace] *)
(* ================================================================== *)

Module Replace.

Section Substitution.
Variables matched before after : string.

(** [GetSubstitution] (ECMA-262, 22.1.3.19.1) for a pattern without
    capture groups: in the replacement text [$$] stands for a dollar sign,
    [$&] for the matched text, [$`] for the text before the match and
    [$'] for the text after it; every other character, a [$] before
    anything else included, stands for itself.  [dollar] tells that the
    previous character was an unconsumed [$]. *)
Fixpoint getSubstitution (dollar : bool) (replacement : string) : string :=
  match replacement with
  | EmptyString => if dollar then "$" else ""
  | String c rest =>
      if dollar then
        if Ascii.eqb c "$" then String "$" (getSubstitution false rest)
        else if Ascii.eqb c "&" then matched +:+ getSubstitution false rest
        else if Ascii.eqb c "`" then before +:+ getSubstitution false rest
        else if Ascii.eqb c "'" then after +:+ getSubstitution false rest
        else String "$" (String c (getSubstitution false rest))
      else if Ascii.eqb c "$" then getSubstitution true rest
      else String c (getSubstitution false rest)
  end.
End Substitution.

(** [str.replace(/[class]/g, replacement)] for a character class: every
    character of the class is replaced by the expansion of [replacement];
    [before] is the part of [str] already scanned. *)
Fixpoint replaceFrom (class : ascii -> bool) (replacement : string)
    (before str : string) : string :=
  match str with
  | EmptyString => ""
  | String c rest =>
      let before' := before +:+ String c "" in
      if class c then
        getSubstitution (String c "") before rest false replacement
          +:+ replaceFrom class replacement before' rest
      else String c (replaceFrom class replacement before' rest)
  end.

Definition replaceAll (class : ascii -> bool) (replacement str : string) : string :=
  replaceFrom class replacement "" str.

(** [str.replace(/[class]/g, f)] with a replacer function: the result of
    [f] is inserted as it is. *)
Fixpoint replaceWith (class : ascii -> bool) (f : ascii -> string)
    (str : string) : string :=
  match str with
  | EmptyString => ""
  | String c rest =>
      if class c then f c +:+ replaceWith class f rest
      else String c (replaceWith class f rest)
  end.

End Replace.

(* ================================================================== *)
(** * Input styles and string helpers *)
(* ================================================================== *)

(** [PropertyValue = number | boolean | string]. *)
Inductive PropertyValue :=
  | PNumber (n : JS.number)
  | PBoolean (b : bool)
  | PString (s : string).

(** The values of a [Styles] object: [null] or [undefined], a property
    value, an array of property values, or a nested [Styles] object given
    by its entries in [Object.keys] order. *)
Inductive StyleValue :=
  | VNull
  | VProperty (v : PropertyValue)
  | VArray (vs : list PropertyValue)
  | VStyles (entries : list (string * StyleValue)).

Definition Styles := list (string * StyleValue).

(** [styles[key]], with [VNull] for an absent key. *)
Fixpoint getProperty (styles : Styles) (key : string) : StyleValue :=
  match styles with
  | [] => VNull
  | (k, v) :: rest => if String.eqb k key then v else getProperty rest key
  end.

(** [ToBoolean]. *)
Definition propertyTruthy (v : PropertyValue) : bool :=
  match v with
  | PNumber n => JS.numberTruthy n
  | PBoolean b => b
  | PString s => negb (String.eqb s "")
  end.

Definition truthy (v : StyleValue) : bool :=
  match v with
  | VNull => false
  | VProperty p => propertyTruthy p
  | VArray _ => true
  | VStyles _ => true
  end.

Definition stringTruthy (s : string) : bool := negb (String.eqb s "").

(** An optional string argument ([parent?: string]) is truthy when it is
    given and not empty. *)
Definition parentTruthy (parent : option string) : bool :=
  match parent with
  | Some p => stringTruthy p
  | None => false
  end.

(** [ToString], as applied by a template literal. *)
Definition propertyToString (v : PropertyValue) : string :=
  match v with
  | PNumber n => JS.numberToString n
  | PBoolean b => if b then "true" else "false"
  | PString s => s
  end.

Definition valueToString (v : StyleValue) : string :=
  match v with
  | VNull => "null"
  | VProperty p => propertyToString p
  | VArray vs => JS.join "," (map propertyToString vs)
  | VStyles _ => "[object Object]"
  end.

(** The character NUL that separates the parts of an id. *)
Definition NUL : string := String Ascii.zero "".

(** ** [CSS_NUMBER] *)

Definition CSS_NUMBER_KEYS : list string :=
  [ "animation-iteration-count"; "border-image-outset"; "border-image-slice";
    "border-image-width"; "box-flex"; "box-flex-group"; "box-ordinal-group";
    "column-count"; "columns"; "counter-increment"; "counter-reset"; "flex";
    "flex-grow"; "flex-positive"; "flex-shrink"; "flex-negative";
    "flex-order"; "font-weight"; "grid-area"; "grid-column";
    "grid-column-end"; "grid-column-span"; "grid-column-start"; "grid-row";
    "grid-row-end"; "grid-row-span"; "grid-row-start"; "line-clamp";
    "line-height"; "opacity"; "order"; "orphans"; "tab-size"; "widows";
    "z-index"; "zoom";
    "fill-opacity"; "flood-opacity"; "stop-opacity"; "stroke-dasharray";
    "stroke-dashoffset"; "stroke-miterlimit"; "stroke-opacity";
    "stroke-width" ].

Definition CSS_NUMBER_PREFIXES : list string :=
  [ "-webkit-"; "-ms-"; "-moz-"; "-o-"; "" ].

(** The dictionary filled by the two nested loops: [prefix + property] for
    every property and every prefix. *)
Definition CSS_NUMBER : gset string :=
  list_to_set
    (property ← CSS_NUMBER_KEYS;
     prefix ← CSS_NUMBER_PREFIXES;
     [prefix +:+ property]).

(** ** [escape] *)

Definition escapeClass (c : ascii) : bool :=
  JS.contains c " !#$%&()*+,./;<=>?@[]^`{|}~'\" || (JS.charCode c =? 34).

(** The source replaces every character of the class by a backslash and
    the character itself: the replacement text is a backslash followed by
    the pattern for the matched text. *)
Definition escape (str : string) : string :=
  Replace.replaceAll escapeClass "\$&" str.

(** ** [hyphenate] *)

Definition isUpper (c : ascii) : bool :=
  (65 <=? JS.charCode c) && (JS.charCode c <=? 90).

Definition toLowerCase (c : ascii) : ascii :=
  if isUpper c then ascii_of_nat (nat_of_ascii c + 32) else c.

(** The second [replace] of [hyphenate]: a leading [ms-] becomes [-ms-]. *)
Definition replaceMsPrefix (str : string) : string :=
  match str with
  | String "m" (String "s" (String "-" rest)) => "-ms-" +:+ rest
  | _ => str
  end.

Definition hyphenate (propertyName : string) : string :=
  replaceMsPrefix
    (Replace.replaceWith isUpper (λ m, "-" +:+ String (toLowerCase m) "")
       propertyName).

(** ** [stringHash] *)

Definition toInt32 (x : Z) : Z := (x + 2 ^ 31) mod 2 ^ 32 - 2 ^ 31.
Definition toUint32 (x : Z) : Z := x mod 2 ^ 32.

(** The loop runs from the last character to the first. *)
Fixpoint stringHashLoop (str : string) (value : Z) : Z :=
  match str with
  | EmptyString => value
  | String c rest =>
      Z.lxor (toInt32 (stringHashLoop rest value * 33)) (JS.charCode c)
  end.

Definition stringHash (str : string) : string :=
  JS.toString36 (Z.to_N (toUint32 (stringHashLoop str 5381))).

(** ** [styleToString] *)

Definition styleToString (key : string) (value : PropertyValue) : string :=
  match value with
  | PNumber n =>
      if JS.numberTruthy n && negb (bool_decide (key ∈ CSS_NUMBER)) then
        key +:+ ":" +:+ JS.numberToString n +:+ "px"
      else key +:+ ":" +:+ JS.numberToString n
  | _ => key +:+ ":" +:+ propertyToString value
  end.

(* ================================================================== *)
(** * Parsing one level of a style tree *)
(* ================================================================== *)

(** [a > b] on strings: the lexicographic order of the code units. *)
Definition stringGt (a b : string) : bool :=
  match String.compare a b with
  | Gt => true
  | _ => false
  end.

(** [Array.prototype.sort(comparefn)], as the insertion sort that places
    an element before the first element of the sorted part that it does not
    follow ([comparefn(x, y) < 0]).  This is the order V8 produces on short
    arrays; on an array whose elements are pairwise distinct for
    [comparefn], every sorting algorithm yields the same array. *)
Fixpoint insertSorted {T} (comparefn : T -> T -> Z) (x : T) (sorted : list T) : list T :=
  match sorted with
  | [] => [x]
  | y :: rest =>
      if comparefn x y <? 0 then x :: sorted
      else y :: insertSorted comparefn x rest
  end.

Definition arraySort {T} (comparefn : T -> T -> Z) (arr : list T) : list T :=
  foldl (λ sorted x, insertSorted comparefn x sorted) [] arr.

(** The comparator of [sortTuples]: [(a, b) => (a[0] > b[0] ? 1 : -1)]. *)
Definition compareTuples {T} (a b : string * T) : Z :=
  if stringGt a.1 b.1 then 1 else -1.

Definition sortTuples {T} (value : list (string * T)) : list (string * T) :=
  arraySort compareTuples value.

(** A declaration value: [PropertyValue | PropertyValue[]]. *)
Inductive Declared :=
  | DScalar (v : PropertyValue)
  | DArray (vs : list PropertyValue).

Definition stringifyProperties (properties : list (string * Declared)) : string :=
  JS.join ";"
    (map (λ '(name, value),
            match value with
            | DScalar v => styleToString name v
            | DArray vs => JS.join ";" (map (styleToString name) vs)
            end)
         properties).

(** The [properties] array built by the loop of [parseStyles]. *)
Fixpoint parseProperties (styles : Styles) : list (string * Declared) :=
  match styles with
  | [] => []
  | (key, value) :: rest =>
      let name := JS.trim key in
      if negb (bool_decide (JS.charCodeAt0 name = Some 36)) then
        match value with
        | VProperty v => (hyphenate name, DScalar v) :: parseProperties rest
        | VArray vs => (hyphenate name, DArray vs) :: parseProperties rest
        | VStyles _ | VNull => parseProperties rest
        end
      else parseProperties rest
  end.

(** The [nestedStyles] array built by the loop of [parseStyles]. *)
Fixpoint parseNested (styles : Styles) : list (string * Styles) :=
  match styles with
  | [] => []
  | (key, value) :: rest =>
      let name := JS.trim key in
      if negb (bool_decide (JS.charCodeAt0 name = Some 36)) then
        match value with
        | VStyles entries => (name, entries) :: parseNested rest
        | _ => parseNested rest
        end
      else parseNested rest
  end.

Record ParsedStyles := {
  p_style : string;
  p_nested : list (string * Styles);
  p_isUnique : bool
}.

Definition parseStyles (styles : Styles) (hasNestedStyles : bool) : ParsedStyles :=
  {| p_style := stringifyProperties (sortTuples (parseProperties styles));
     p_nested := if hasNestedStyles then parseNested styles
                 else sortTuples (parseNested styles);
     p_isUnique := truthy (getProperty styles "$unique") |}.

(* ================================================================== *)
(** * [interpolate] and [stylize] *)
(* ================================================================== *)

Definition interpolate (selector parent : string) : string :=
  if negb (JS.contains "&" selector) then parent +:+ " " +:+ selector
  else Replace.replaceAll (Ascii.eqb "&") parent selector.

Record StylizeStyle := {
  ss_selector : string;
  ss_style : string;
  ss_isUnique : bool
}.

Inductive StylizeRule := {
  sr_selector : string;
  sr_style : string;
  sr_rules : list StylizeRule;
  sr_styles : list StylizeStyle
}.

(** Nesting depth of a style tree: the recursion of [stylize] descends one
    level per call. *)
Fixpoint depthValue (v : StyleValue) : nat :=
  match v with
  | VStyles entries =>
      S ((fix depthEntries (es : list (string * StyleValue)) : nat :=
            match es with
            | [] => O
            | (_, v') :: rest => Nat.max (depthValue v') (depthEntries rest)
            end) entries)
  | _ => O
  end.

Definition depth (styles : Styles) : nat := depthValue (VStyles styles).

(** The state threaded through the loop over [nested]: the [pid] built so
    far and the two accumulators. *)
Definition StylizeState : Type := string * list StylizeRule * list StylizeStyle.

(** One round of the loops [for (const [name, value] of nested)]:
    [pid += name + stylize(name, value, rules, styles, parent)]. *)
Definition stylizeNested
    (rec : string -> Styles -> list StylizeRule -> list StylizeStyle ->
           option string -> StylizeState)
    (parent : option string) (st : StylizeState) (entry : string * Styles) :
    StylizeState :=
  let '(pid, rules, styles) := st in
  let '(sub, rules', styles') := rec entry.1 entry.2 rules styles parent in
  (pid +:+ (entry.1 +:+ sub), rules', styles').

(** The body of [stylize]; [rec] stands for the recursive calls. *)
Definition stylizeBody
    (rec : string -> Styles -> list StylizeRule -> list StylizeStyle ->
           option string -> StylizeState)
    (selector : string) (styles : Styles)
    (rulesList : list StylizeRule) (stylesList : list StylizeStyle)
    (parent : option string) : StylizeState :=
  let parsed := parseStyles styles (negb (String.eqb selector "")) in
  let style := p_style parsed in
  let nested := p_nested parsed in
  let isUnique := p_isUnique parsed in
  if bool_decide (JS.charCodeAt0 selector = Some 64) then
    let childStyles :=
      match parent with
      | Some p =>
          if stringTruthy style && stringTruthy p then
            [ {| ss_selector := p; ss_style := style; ss_isUnique := isUnique |} ]
          else []
      | None => []
      end in
    let '(pid, childRules, childStyles') :=
      foldl (stylizeNested rec parent) (style, [], childStyles) nested in
    (pid,
     rulesList ++
       [ {| sr_selector := selector;
            sr_style := if parentTruthy parent then "" else style;
            sr_rules := childRules;
            sr_styles := childStyles' |} ],
     stylesList)
  else
    let key :=
      match parent with
      | Some p => if stringTruthy p then interpolate selector p else selector
      | None => selector
      end in
    let stylesList' :=
      if stringTruthy style then
        stylesList ++
          [ {| ss_selector := key; ss_style := style; ss_isUnique := isUnique |} ]
      else stylesList in
    foldl (stylizeNested rec (Some key)) (style, rulesList, stylesList') nested.

(** [stylize], with the depth of the recursion bounded by [fuel];
    [stylize] gives it the depth of the tree, which is enough
    ([stylize_unfold]). *)
Fixpoint stylizeFuel (fuel : nat) (selector : string) (styles : Styles)
    (rulesList : list StylizeRule) (stylesList : list StylizeStyle)
    (parent : option string) : StylizeState :=
  match fuel with
  | O => ("", rulesList, stylesList)
  | S fuel' =>
      stylizeBody (stylizeFuel fuel') selector styles rulesList stylesList parent
  end.

Definition stylize (selector : string) (styles : Styles)
    (rulesList : list StylizeRule) (stylesList : list StylizeStyle)
    (parent : option string) : StylizeState :=
  stylizeFuel (depth styles) selector styles rulesList stylesList parent.

Definition red : StyleValue := VProperty (PString "red").
Definition blue : StyleValue := VProperty (PString "blue").

(* ================================================================== *)
(** * The cache and its nodes *)
(* ================================================================== *)

(** [function join(arr)]: concatenation. *)
Definition join (arr : list string) : string := foldl String.append "" arr.

(** ** Arrays *)

(** [arr.indexOf(x)], [-1] when [x] is absent. *)
Fixpoint indexOfFrom (i : Z) (x : string) (arr : list string) : Z :=
  match arr with
  | [] => -1
  | y :: rest => if String.eqb y x then i else indexOfFrom (i + 1) x rest
  end.

Definition indexOf (arr : list string) (x : string) : Z := indexOfFrom 0 x arr.

(** [arr.splice(start, deleteCount, ...items)] (the new contents of [arr]):
    a negative [start] counts from the end, and both arguments are clamped
    to the array. *)
Definition splice {A} (arr : list A) (start : Z) (deleteCount : nat) (items : list A) : list A :=
  let len := Z.of_nat (length arr) in
  let actualStart :=
    Z.to_nat (if start <? 0 then Z.max (len + start) 0 else Z.min start len) in
  take actualStart arr ++ items ++ drop (actualStart + deleteCount) arr.

(** ** Data *)

(** The fields of [class Cache<T>].  The dictionary [_children] is kept as
    an association list, so that the recursion of [add] and [remove] through
    [values()] is structural; [_counters] is a finite map.  The [changes]
    listener is not a field: [add] and [remove] return the notifications
    they send to it. *)
Record CacheOf (T : Type) := {
  sheet : list string;
  changeId : nat;
  _keys : list string;
  _children : list (string * T);
  _counters : gmap string nat
}.
Arguments sheet {T} _.
Arguments changeId {T} _.
Arguments _keys {T} _.
Arguments _children {T} _.
Arguments _counters {T} _.

(** The containers stored in a cache: [Selector], [Style extends Cache] and
    [Rule extends Cache]. *)
Inductive Node :=
  | Selector (selector id : string)
  | Style (style id : string) (cache : CacheOf Node)
  | Rule (rule style id : string) (cache : CacheOf Node).

Abbreviation Cache := (CacheOf Node).

(** A call of one of the three methods of the [Changes] listener. *)
Inductive Change :=
  | Added (item : Node) (index : Z)
  | Changed (item : Node) (oldIndex newIndex : Z)
  | Removed (item : Node) (index : Z).

(** [new Cache()] *)
Definition emptyCache : Cache :=
  {| sheet := []; changeId := 0; _keys := []; _children := []; _counters := ∅ |}.

Definition nodeId (n : Node) : string :=
  match n with
  | Selector _ id | Style _ id _ | Rule _ _ id _ => id
  end.

(** [n instanceof Cache], with the cache part of [n]. *)
Definition asCache (n : Node) : option Cache :=
  match n with
  | Selector _ _ => None
  | Style _ _ c | Rule _ _ _ c => Some c
  end.

(** The node [n] after its cache part was mutated into [c]. *)
Definition setCache (n : Node) (c : Cache) : Node :=
  match n with
  | Selector s i => Selector s i
  | Style s i _ => Style s i c
  | Rule r s i _ => Rule r s i c
  end.

Definition getStyles (n : Node) : string :=
  match n with
  | Selector selector _ => selector
  | Style style _ c => JS.join "," (sheet c) +:+ "{" +:+ style +:+ "}"
  | Rule rule style _ c => rule +:+ "{" +:+ style +:+ join (sheet c) +:+ "}"
  end.

(** ** The dictionary [_children] *)

Fixpoint childrenGet (key : string) (children : list (string * Node)) : option Node :=
  match children with
  | [] => None
  | (k, n) :: rest => if String.eqb k key then Some n else childrenGet key rest
  end.

Definition childrenDelete (key : string) (children : list (string * Node)) : list (string * Node) :=
  filter (λ kn, kn.1 ≠ key) children.

Definition childrenSet (key : string) (n : Node) (children : list (string * Node)) : list (string * Node) :=
  (key, n) :: childrenDelete key children.

(** [this._counters[id] || 0] *)
Definition counter (this : Cache) (id : string) : nat :=
  default O (_counters this !! id).

(** ** [add] and [remove]

    [add] and [merge] are mutually recursive in the source: [this.add(style)]
    calls [item.merge(style)] (directly, or through [style.clone()]), which
    calls [item.add(child)] for every child in [style.values()], and
    likewise for [remove] and [unmerge].  The bodies of [add] and [remove]
    are written first, over the function [mergeInto] (or [unmergeFrom])
    that stands for [target.merge(style)]; the recursion is then closed
    structurally in [style].

    A stored child or a clone is always built by [new Style] or [new Rule],
    whose listener is [noopChanges], so the notifications of the inner calls
    are dropped: [add] and [remove] return the notifications sent to the
    listener of [this]. *)

(** The body of [add(style)]. *)
Definition addWith (mergeInto : Cache -> Cache) (this : Cache) (style : Node) :
    Cache * list Change :=
  let id := nodeId style in
  let count := counter this id in
  let stored := childrenGet id (_children this) in
  let item :=
    match stored with
    | Some it => it
    | None => setCache style (mergeInto emptyCache)
    end in
  let counters' := <[id := S count]> (_counters this) in
  if bool_decide (count = O) then
    let keys' := _keys this ++ [nodeId item] in
    ({| sheet := sheet this ++ [getStyles item];
        changeId := S (changeId this);
        _keys := keys';
        _children := childrenSet (nodeId item) item (_children this);
        _counters := counters' |},
     [Added item (Z.of_nat (length keys') - 1)])
  else
    match asCache item, asCache style with
    | Some ic, Some _ =>
        let curIndex := indexOf (_keys this) id in
        let ic' := mergeInto ic in
        let item' := setCache item ic' in
        let children' :=
          match stored with
          | Some _ => childrenSet id item' (_children this)
          | None => _children this
          end in
        if bool_decide (changeId ic' ≠ changeId ic) then
          ({| sheet := splice (sheet this) curIndex 1 [getStyles item'];
              changeId := S (changeId this);
              _keys := _keys this;
              _children := children';
              _counters := counters' |},
           [Changed item' curIndex curIndex])
        else
          ({| sheet := sheet this;
              changeId := changeId this;
              _keys := _keys this;
              _children := children';
              _counters := counters' |}, [])
    | _, _ =>
        ({| sheet := sheet this;
            changeId := changeId this;
            _keys := _keys this;
            _children := _children this;
            _counters := counters' |}, [])
    end.

(** The body of [remove(style)].  When the counter is set and the child is
    missing the source throws after it decremented the counter; the model
    stops there. *)
Definition removeWith (unmergeFrom : Cache -> Cache) (this : Cache) (style : Node) :
    Cache * list Change :=
  let id := nodeId style in
  let count := counter this id in
  if bool_decide (count = O) then (this, [])
  else
    let counters' := <[id := (count - 1)%nat]> (_counters this) in
    match childrenGet id (_children this) with
    | None =>
        ({| sheet := sheet this;
            changeId := changeId this;
            _keys := _keys this;
            _children := _children this;
            _counters := counters' |}, [])
    | Some item =>
        let index := indexOf (_keys this) (nodeId item) in
        if bool_decide (count = 1%nat) then
          ({| sheet := splice (sheet this) index 1 [];
              changeId := S (changeId this);
              _keys := splice (_keys this) index 1 [];
              _children := childrenDelete id (_children this);
              _counters := delete id counters' |},
           [Removed item index])
        else
          match asCache item, asCache style with
          | Some ic, Some _ =>
              let ic' := unmergeFrom ic in
              let item' := setCache item ic' in
              let children' := childrenSet id item' (_children this) in
              if bool_decide (changeId ic' ≠ changeId ic) then
                ({| sheet := splice (sheet this) index 1 [getStyles item'];
                    changeId := S (changeId this);
                    _keys := _keys this;
                    _children := children';
                    _counters := counters' |},
                 [Changed item' index index])
              else
                ({| sheet := sheet this;
                    changeId := changeId this;
                    _keys := _keys this;
                    _children := children';
                    _counters := counters' |}, [])
          | _, _ =>
              ({| sheet := sheet this;
                  changeId := changeId this;
                  _keys := _keys this;
                  _children := _children this;
                  _counters := counters' |}, [])
          end
    end.

(** [for (const item of cache.values()) target = f(target, item)], where
    [cache.values()] is [cache._keys.map(key => cache._children[key])]: the
    loop goes through [keys] and looks each key up in [children].  A key
    without a child would make the source throw; it is skipped here, and
    cannot occur in a cache built by [add] and [remove] ([wf_cache]). *)
Definition forValues (f : Cache -> Node -> Cache) (children : list (string * Node)) :
    list string -> Cache -> Cache :=
  fix loop (keys : list string) (target : Cache) : Cache :=
    match keys with
    | [] => target
    | k :: keys' =>
        loop keys'
          ((fix find (l : list (string * Node)) : Cache :=
              match l with
              | [] => target
              | (k', child) :: l' =>
                  if String.eqb k' k then f target child else find l'
              end) children)
    end.

Fixpoint add (this : Cache) (style : Node) {struct style} : Cache * list Change :=
  addWith
    (λ target,
       match style with
       | Selector _ _ => target
       | Style _ _ sc | Rule _ _ _ sc =>
           forValues (λ t child, (add t child).1) (_children sc) (_keys sc) target
       end)
    this style.

Fixpoint remove (this : Cache) (style : Node) {struct style} : Cache * list Change :=
  removeWith
    (λ target,
       match style with
       | Selector _ _ => target
       | Style _ _ sc | Rule _ _ _ sc =>
           forValues (λ t child, (remove t child).1) (_children sc) (_keys sc) target
       end)
    this style.

(** [this.values()] *)
Definition values (this : Cache) : list Node :=
  omap (λ key, childrenGet key (_children this)) (_keys this).

(** [this.merge(cache)] and [this.unmerge(cache)], for a cache whose
    listener is [noopChanges]. *)
Definition merge (this cache : Cache) : Cache :=
  foldl (λ t item, (add t item).1) this (values cache).

Definition unmerge (this cache : Cache) : Cache :=
  foldl (λ t item, (remove t item).1) this (values cache).

(** [style.clone()] *)
Definition clone (style : Node) : Node :=
  match style with
  | Selector s i => Selector s i
  | Style s i c => Style s i (merge emptyCache c)
  | Rule r s i c => Rule r s i (merge emptyCache c)
  end.

(** [target.merge(style)] and [target.unmerge(style)] for a node [style]. *)
Definition mergeNode (style : Node) (target : Cache) : Cache :=
  match asCache style with
  | Some sc => merge target sc
  | None => target
  end.

Definition unmergeNode (style : Node) (target : Cache) : Cache :=
  match asCache style with
  | Some sc => unmerge target sc
  | None => target
  end.

(* ================================================================== *)
(** * [composeStylize] and the registration entry points *)
(* ================================================================== *)

(** The state of the program: the module variable [uniqueId] and one
    [FreeStyle] instance, given by its cache fields. *)
Record State := {
  uniqueId : N;
  freeStyle : Cache
}.

(** The [Style] built by one round of the first loop of [composeStylize],
    over [stylesList], with the new value of [uniqueId]:
    [new Style(style, id)] holding one [Selector]. *)
Definition styleItem (pid className : string) (isStyle : bool)
    (s : StylizeStyle) (uid : N) : Node * N :=
  let key := if isStyle then interpolate (ss_selector s) className else ss_selector s in
  let uid' := if ss_isUnique s then (uid + 1)%N else uid in
  let id :=
    if ss_isUnique s then "u" +:+ NUL +:+ JS.toString36 uid'
    else "s" +:+ NUL +:+ pid +:+ NUL +:+ ss_style s in
  (Style (ss_style s) id
     (add emptyCache (Selector key ("k" +:+ NUL +:+ pid +:+ NUL +:+ key))).1,
   uid').

Definition composeStyle (pid className : string) (isStyle : bool)
    (st : Cache * N * list Change) (s : StylizeStyle) : Cache * N * list Change :=
  let '(cache, uid, log) := st in
  let '(item, uid') := styleItem pid className isStyle s uid in
  let '(cache', changes) := add cache item in
  (cache', uid', log ++ changes).

Definition composeStyles (pid className : string) (isStyle : bool)
    (stylesList : list StylizeStyle) (st : Cache * N * list Change) :
    Cache * N * list Change :=
  foldl (composeStyle pid className isStyle) st stylesList.

(** The [Rule] built by one round of the second loop of [composeStylize]:
    [new Rule(selector, style, id)] filled by the recursive call. *)
Fixpoint composeRule (pid className : string) (isStyle : bool)
    (r : StylizeRule) (uid : N) {struct r} : Node * N :=
  let '(c1, uid1, _) :=
    composeStyles pid className isStyle (sr_styles r) (emptyCache, uid, []) in
  let '(c2, uid2) :=
    (fix loop (rules : list StylizeRule) (st : Cache * N) : Cache * N :=
       match rules with
       | [] => st
       | r' :: rest =>
           let '(item, uid') := composeRule pid className isStyle r' st.2 in
           loop rest ((add st.1 item).1, uid')
       end) (sr_rules r) (c1, uid1) in
  (Rule (sr_selector r) (sr_style r)
     ("r" +:+ NUL +:+ pid +:+ NUL +:+ sr_selector r +:+ NUL +:+ sr_style r) c2,
   uid2).

Definition composeRuleInto (pid className : string) (isStyle : bool)
    (st : Cache * N * list Change) (r : StylizeRule) : Cache * N * list Change :=
  let '(cache, uid, log) := st in
  let '(item, uid') := composeRule pid className isStyle r uid in
  let '(cache', changes) := add cache item in
  (cache', uid', log ++ changes).

(** [composeStylize(cache, pid, rulesList, stylesList, className, isStyle)]:
    the new contents of [cache], the new value of [uniqueId] and the
    notifications sent to the listener of [cache]. *)
Definition composeStylize (cache : Cache) (pid : string)
    (rulesList : list StylizeRule) (stylesList : list StylizeStyle)
    (className : string) (isStyle : bool) (uid : N) : Cache * N * list Change :=
  foldl (composeRuleInto pid className isStyle)
    (composeStyles pid className isStyle stylesList (cache, uid, []))
    rulesList.

(** [key(pid, styles)]; [production] is [process.env.NODE_ENV ===
    "production"]. *)
Definition key (production : bool) (pid : string) (styles : Styles) : string :=
  let key := "f" +:+ stringHash pid in
  let displayName := getProperty styles "$displayName" in
  if production || negb (truthy displayName) then key
  else valueToString displayName +:+ "_" +:+ key.

(** [this.registerStyle(styles)]: the returned id, the new state and the
    notifications sent to the listener of the instance. *)
Definition registerStyle (production : bool) (styles : Styles) (st : State) :
    string * State * list Change :=
  let '(pid, rulesList, stylesList) := stylize "&" styles [] [] None in
  let id := key production pid styles in
  let selector := "." +:+ (if production then id else escape id) in
  let '(cache, uid, changes) :=
    composeStylize (freeStyle st) pid rulesList stylesList selector true (uniqueId st) in
  (id, {| uniqueId := uid; freeStyle := cache |}, changes).

(** [this.registerHashRule(prefix, styles)] *)
Definition registerHashRule (production : bool) (prefix : string) (styles : Styles)
    (st : State) : string * State * list Change :=
  let '(pid, rulesList, stylesList) := stylize "" styles [] [] None in
  let id := key production pid styles in
  let selector := prefix +:+ " " +:+ (if production then id else escape id) in
  let '(ruleCache, uid, _) :=
    composeStylize emptyCache pid rulesList stylesList "" false (uniqueId st) in
  let rule := Rule selector "" ("h" +:+ NUL +:+ pid +:+ NUL +:+ prefix) ruleCache in
  let '(cache, changes) := add (freeStyle st) rule in
  (id, {| uniqueId := uid; freeStyle := cache |}, changes).

Definition registerKeyframes (production : bool) (keyframes : Styles) (st : State) :
    string * State * list Change :=
  registerHashRule production "@keyframes" keyframes st.

(** [this.registerRule(rule, styles)] *)
Definition registerRule (rule : string) (styles : Styles) (st : State) :
    State * list Change :=
  let '(pid, rulesList, stylesList) := stylize rule styles [] [] None in
  let '(cache, uid, changes) :=
    composeStylize (freeStyle st) pid rulesList stylesList "" false (uniqueId st) in
  ({| uniqueId := uid; freeStyle := cache |}, changes).

Definition registerCss (styles : Styles) (st : State) : State * list Change :=
  registerRule "" styles st.

(** [this.getStyles()] of a [FreeStyle] instance. *)
Definition getStylesheet (st : State) : string := join (sheet (freeStyle st)).

(** [create()]: a new instance; its id takes the next value of [uniqueId]. *)
Definition create (uid : N) : State :=
  {| uniqueId := (uid + 1)%N; freeStyle := emptyCache |}.

Definition exampleHover : Styles :=
  [("&", VStyles [("color", red)]); ("&:hover", VStyles [("color", blue)])].


(* ================================================================== *)
(** * Specification-level notions used by the theorems *)
(* ================================================================== *)

(** The unit-less properties as the specification describes them: a
    property of the fixed list, with or without a vendor prefix. *)
Definition unitless (key : string) : Prop :=
  ∃ prefix property,
    prefix ∈ CSS_NUMBER_PREFIXES ∧ property ∈ CSS_NUMBER_KEYS ∧
    key = prefix +:+ property.

(** The plain textual substitution the specification of [interpolate]
    describes: every [&] of [selector] becomes [parent]. *)
Fixpoint substituteAmpersand (parent selector : string) : string :=
  match selector with
  | EmptyString => ""
  | String c rest =>
      if Ascii.eqb c "&" then parent +:+ substituteAmpersand parent rest
      else String c (substituteAmpersand parent rest)
  end.

(** A list of tuples is sorted by name when no entry is followed by an
    entry with a smaller name. *)
Definition nameLe {T} (a b : string * T) : Prop := stringGt a.1 b.1 = false.

Definition sortedByName {T} (l : list (string * T)) : Prop := Sorted nameLe l.

(** The root of [registerStyle] with two nested selectors authored in
    descending order. *)
Definition exampleDescending : Styles :=
  [("& .b", VStyles [("color", red)]); ("& .a", VStyles [("color", blue)])].

(** ** Invariants of a cache *)

(** The order list and the text list are index-aligned: they have the same
    length, and the text at position [i] is the rendered text of the stored
    node whose id is at position [i] of the order list. *)
Definition aligned (c : Cache) : Prop :=
  length (sheet c) = length (_keys c) ∧
  ∀ (i : nat) (k : string), _keys c !! i = Some k →
    ∃ n, childrenGet k (_children c) = Some n ∧ nodeId n = k ∧
         sheet c !! i = Some (getStyles n).

(** The invariant that [add] and [remove] maintain: the ids of the order
    list are pairwise distinct and are exactly the ids that have a counter
    and a child; counters are positive; a child is stored under its own id;
    the two lists are aligned; and the stored children satisfy the invariant
    themselves. *)
Inductive wf_node : Node → Prop :=
  | wf_Selector s i : wf_node (Selector s i)
  | wf_Style s i c : wf_cache c → wf_node (Style s i c)
  | wf_Rule r s i c : wf_cache c → wf_node (Rule r s i c)
with wf_cache : Cache → Prop :=
  | wf_cache_intro c :
      NoDup (_keys c) →
      (∀ k, k ∈ _keys c ↔ (0 < counter c k)%nat) →
      (∀ k, _counters c !! k ≠ Some O) →
      (∀ k, k ∈ _keys c ↔ is_Some (childrenGet k (_children c))) →
      (∀ k n, childrenGet k (_children c) = Some n → nodeId n = k ∧ wf_node n) →
      aligned c →
      wf_cache c.

(** The caches that the program can build: [new Cache()] followed by calls
    of [add] and [remove]. *)
Inductive reachable : Cache → Prop :=
  | reachable_new : reachable emptyCache
  | reachable_add c n : reachable c → reachable (add c n).1
  | reachable_remove c n : reachable c → reachable (remove c n).1.

(** A sequence of calls on one cache, with the notifications sent. *)
Definition addAll (this : Cache) (styles : list Node) : Cache * list Change :=
  foldl (λ '(c, log) n, let '(c', changes) := add c n in (c', log ++ changes))
        (this, []) styles.

Definition removeAll (this : Cache) (styles : list Node) : Cache * list Change :=
  foldl (λ '(c, log) n, let '(c', changes) := remove c n in (c', log ++ changes))
        (this, []) styles.

Definition isRemoved (ch : Change) : bool :=
  match ch with
  | Removed _ _ => true
  | _ => false
  end.

Definition changeInPlace (ch : Change) : Prop :=
  match ch with
  | Changed _ oldIndex newIndex => oldIndex = newIndex
  | _ => True
  end.

(** ** Notions for the registration theorems *)

(** [absorbed c style]: the cache [c] holds an entry for the id of [style],
    and, when both the stored node and [style] are caches, the stored node
    has absorbed every child of [style] in the same way.  This is what
    [c.add(style)] establishes, and what makes a further [c.add(style)]
    change nothing but counters. *)
Inductive absorbed : Cache → Node → Prop :=
  | absorbed_intro c style item :
      (0 < counter c (nodeId style))%nat →
      childrenGet (nodeId style) (_children c) = Some item →
      (∀ ic sc, asCache item = Some ic → asCache style = Some sc →
                Forall (absorbed ic) (values sc)) →
      absorbed c style.

(** The nodes that [composeStylize] adds to its target cache, in order:
    one [Style] per entry of [stylesList], then one [Rule] per entry of
    [rulesList], with the new value of [uniqueId]. *)
Definition styleItems (pid className : string) (isStyle : bool)
    (stylesList : list StylizeStyle) (st : list Node * N) : list Node * N :=
  foldl (λ '(items, uid) s,
           let '(item, uid') := styleItem pid className isStyle s uid in
           (items ++ [item], uid'))
        st stylesList.

Definition ruleItems (pid className : string) (isStyle : bool)
    (rulesList : list StylizeRule) (st : list Node * N) : list Node * N :=
  foldl (λ '(items, uid) r,
           let '(item, uid') := composeRule pid className isStyle r uid in
           (items ++ [item], uid'))
        st rulesList.

Definition composeItems (pid className : string) (isStyle : bool)
    (rulesList : list StylizeRule) (stylesList : list StylizeStyle) (uid : N) :
    list Node * N :=
  ruleItems pid className isStyle rulesList
    (styleItems pid className isStyle stylesList ([], uid)).

(** No node of the style tree sets the [$unique] flag. *)
Fixpoint uniqueFreeValue (v : StyleValue) : bool :=
  match v with
  | VStyles entries =>
      negb (truthy (getProperty entries "$unique")) &&
      (fix all (es : list (string * StyleValue)) : bool :=
         match es with
         | [] => true
         | (_, v') :: rest => uniqueFreeValue v' && all rest
         end) entries
  | _ => true
  end.

Definition uniqueFree (styles : Styles) : bool := uniqueFreeValue (VStyles styles).

(** No entry of the accumulators of [stylize] is flagged unique. *)
Fixpoint noUniqueRule (r : StylizeRule) : bool :=
  forallb (λ s, negb (ss_isUnique s)) (sr_styles r) &&
  (fix all (rs : list StylizeRule) : bool :=
     match rs with
     | [] => true
     | r' :: rest => noUniqueRule r' && all rest
     end) (sr_rules r).

Definition noUnique (rulesList : list StylizeRule) (stylesList : list StylizeStyle) : bool :=
  forallb (λ s, negb (ss_isUnique s)) stylesList && forallb noUniqueRule rulesList.

(** The number of nodes of [items] whose id is [k]. *)
Definition occurrences (k : string) (items : list Node) : nat :=
  length (filter (λ n, nodeId n = k) items).

(** The id of a unique [Style]: [u\0] followed by the counter in base 36. *)
Definition uniqueStyleId (n : N) : string := "u" +:+ NUL +:+ JS.toString36 n.

(** No id of the order list was made from a value that [uniqueId] has not
    reached yet. *)
Definition freshAbove (uid : N) (c : Cache) : Prop :=
  ∀ n, (uid < n)%N → uniqueStyleId n ∉ _keys c.

(** The node stored under the id of [style] after [this.add(style)]. *)
Definition storedAfterAdd (this : Cache) (style : Node) : Node :=
  match childrenGet (nodeId style) (_children this) with
  | None => clone style
  | Some item =>
      match asCache item, asCache style with
      | Some ic, Some _ => setCache item (mergeNode style ic)
      | _, _ => item
      end
  end.

(** The result of [composeStylize] on [cache], in terms of the nodes added
    and the new value of [uniqueId]. *)
Definition composed (cache : Cache) (st : list Node * N) : Cache * N * list Change :=
  ((addAll cache st.1).1, st.2, (addAll cache st.1).2).

(** Every character of [s] satisfies [p]. *)
Fixpoint allChars (p : ascii → bool) (s : string) : bool :=
  match s with
  | EmptyString => true
  | String c rest => p c && allChars p rest
  end.

(** The characters [0-9a-z] that [Number.prototype.toString(36)] prints. *)
Definition isBase36Char (c : ascii) : bool :=
  let n := JS.charCode c in
  ((48 <=? n) && (n <=? 57)) || ((97 <=? n) && (n <=? 122)).

(** What one entry of a [Styles] object contributes to the [properties]
    array and to the [nestedStyles] array of [parseStyles]. *)
Definition declarationOf (entry : string * StyleValue) : option (string * Declared) :=
  let name := JS.trim entry.1 in
  if bool_decide (JS.charCodeAt0 name = Some 36) then None
  else match entry.2 with
       | VProperty v => Some (hyphenate name, DScalar v)
       | VArray vs => Some (hyphenate name, DArray vs)
       | VStyles _ | VNull => None
       end.

Definition nestedOf (entry : string * StyleValue) : option (string * Styles) :=
  let name := JS.trim entry.1 in
  if bool_decide (JS.charCodeAt0 name = Some 36) then None
  else match entry.2 with
       | VStyles entries => Some (name, entries)
       | _ => None
       end.

(** The number that a list of digits in base [b] stands for. *)
Definition fromDigits (b : N) (ds : list N) : N :=
  foldl (λ a d, (a * b + d)%N) 0%N ds.

(** The ids that [composeStylize] gives to its nodes while [uniqueId] goes
    from [u] to [u']: the id of a unique style made from a value of the
    counter in between, or an id that does not start with the letter [u]
    (the ids of the other styles and of the rules start with [s] and
    [r]). *)
Definition idBetween (u u' : N) (id : string) : Prop :=
  (∃ m, (u < m)%N ∧ (m ≤ u')%N ∧ id = uniqueStyleId m) ∨
  JS.charCodeAt0 id ≠ Some 117.

(** The flat style that [stylize] makes for the declarations of the
    outermost node of [registerStyle], and the [Style] node that
    [composeStylize] builds from it when [uniqueId] is [uid]. *)
Definition rootStyle (styles : Styles) : StylizeStyle :=
  {| ss_selector := "&";
     ss_style := p_style (parseStyles styles true);
     ss_isUnique := p_isUnique (parseStyles styles true) |}.

Definition rootStyleItem (production : bool) (styles : Styles) (uid : N) : Node :=
  let pid := (stylize "&" styles [] [] None).1.1 in
  let id := key production pid styles in
  let selector := "." +:+ (if production then id else escape id) in
  (styleItem pid selector true (rootStyle styles) uid).1.

(** The class selector that [registerStyle] passes to [composeStylize] for
    the id [id]. *)
Definition classSelector (production : bool) (id : string) : string :=
  "." +:+ (if production then id else escape id).


(* ================================================================== *)
(** * Sanity checks: the model evaluated on small inputs *)
(* ================================================================== *)

Example toString_half : JS.numberToString (JS.Fin 5 (-1)) = "0.5".
Proof. reflexivity. Qed.
Example toString_ten : JS.numberToString (JS.Fin 10 0) = "10".
Proof. reflexivity. Qed.
Example toString_small : JS.numberToString (JS.Fin 1 (-7)) = "1e-7".
Proof. reflexivity. Qed.
Example toString_big : JS.numberToString (JS.Fin (-125) 20) = "-1.25e+22".
Proof. reflexivity. Qed.
Example toString_frac : JS.numberToString (JS.Fin 1250 (-2)) = "12.5".
Proof. reflexivity. Qed.
Example toString36_35 : JS.toString36 71 = "1z".
Proof. reflexivity. Qed.
Example trim_ex : JS.trim "  a b  " = "a b".
Proof. reflexivity. Qed.
Example replace_plain : Replace.replaceAll (Ascii.eqb "&") ".abc" "&:hover, & > a" = ".abc:hover, .abc > a".
Proof. reflexivity. Qed.
Example replace_dollar : Replace.replaceAll (Ascii.eqb "&") "x$$y$&z$1" "a&b" = "ax$y&z$1b".
Proof. reflexivity. Qed.
Example replace_context : Replace.replaceAll (Ascii.eqb "&") "[$`|$']" "a&b" = "a[a|b]b".
Proof. reflexivity. Qed.
Example escape_ex : escape "a.b c" = "a\.b\ c".
Proof. reflexivity. Qed.
Example hyphenate_ex : hyphenate "backgroundColor" = "background-color".
Proof. reflexivity. Qed.
Example hyphenate_ms : hyphenate "msTransform" = "-ms-transform".
Proof. reflexivity. Qed.
Example hyphenate_webkit : hyphenate "WebkitTransform" = "-webkit-transform".
Proof. reflexivity. Qed.
Example stringHash_empty : stringHash "" = "45h".
Proof. reflexivity. Qed.
Example stringHash_a : stringHash "a" = "3t1g".
Proof. vm_compute. reflexivity. Qed.
Example styleToString_opacity : styleToString "opacity" (PNumber (JS.Fin 5 (-1))) = "opacity:0.5".
Proof. vm_compute. reflexivity. Qed.
Example styleToString_margin : styleToString "margin" (PNumber (JS.Fin 10 0)) = "margin:10px".
Proof. vm_compute. reflexivity. Qed.
Example parse_order :
  p_style (parseStyles [("margin", VProperty (PNumber (JS.Fin 0 0))); ("color", red)] true)
  = "color:red;margin:0".
Proof. vm_compute. reflexivity. Qed.
Example stylize_hover :
  stylize "&" [("&", VStyles [("color", red)]); ("&:hover", VStyles [("color", blue)])] [] [] None
  = ("&color:red&:hovercolor:blue", [],
     [ {| ss_selector := "&"; ss_style := "color:red"; ss_isUnique := false |};
       {| ss_selector := "&:hover"; ss_style := "color:blue"; ss_isUnique := false |} ]).
Proof. vm_compute. reflexivity. Qed.
Example stylize_media :
  stylize "&" [("@media print", VStyles [("color", red)])] [] [] None
  = ("@media printcolor:red",
     [ {| sr_selector := "@media print"; sr_style := ""; sr_rules := [];
          sr_styles := [ {| ss_selector := "&"; ss_style := "color:red"; ss_isUnique := false |} ] |} ],
     []).
Proof. vm_compute. reflexivity. Qed.
Example register_hover_sheet :
  sheet (composeStylize emptyCache "pid" []
           (stylize "&" exampleHover [] [] None).2 ".abc" true 0).1.1
  = [".abc{color:red}"; ".abc:hover{color:blue}"].
Proof. vm_compute. reflexivity. Qed.
Example register_twice_sheet :
  let s1 := (registerStyle true [("color", red)] (create 0)).1.2 in
  let s2 := (registerStyle true [("color", red)] s1).1.2 in
  getStylesheet s1 = ".f1jvcvsh{color:red}" /\ getStylesheet s2 = getStylesheet s1 /\
  _counters (freeStyle s2) !! ("s" +:+ NUL +:+ "color:red" +:+ NUL +:+ "color:red") = Some 2%nat.
Proof. vm_compute. auto. Qed.

(* ================================================================== *)
(** * The numeric unit policy of [styleToString] *)
(* ================================================================== *)

Lemma CSS_NUMBER_spec key : key ∈ CSS_NUMBER ↔ unitless key.
Proof.
  unfold CSS_NUMBER, unitless. rewrite elem_of_list_to_set, list_elem_of_bind.
  split.
  - intros (property & Hin & Hp). apply list_elem_of_bind in Hin.
    destruct Hin as (prefix & Hin & Hpre).
    apply list_elem_of_singleton in Hin. eauto.
  - intros (prefix & property & Hpre & Hp & ->).
    exists property. split; [|done].
    apply list_elem_of_bind. exists prefix. split; [|done].
    by apply list_elem_of_singleton.
Qed.

Lemma margin_not_unitless : ¬ unitless "margin".
Proof.
  rewrite <- CSS_NUMBER_spec.
  assert (bool_decide ("margin" ∈ CSS_NUMBER) = false) as Hf
    by (vm_compute; reflexivity).
  by apply bool_decide_eq_false in Hf.
Qed.

(** C10: a numeric value equal to zero is rendered without a unit for every
    property name, unit-less or not: [name:0]. *)
Theorem C10_zero_is_rendered_bare (key : string) (e : Z) :
  styleToString key (PNumber (JS.Fin 0 e)) = key +:+ ":0".
Proof. reflexivity. Qed.

(** C6, as stated, fails at [{margin: 0}]: [margin] is not unit-less, and
    the value is not suffixed with [px]. *)
Lemma C6_counterexample :
  ¬ (¬ unitless "margin" →
     styleToString "margin" (PNumber (JS.Fin 0 0))
     = "margin" +:+ ":" +:+ JS.numberToString (JS.Fin 0 0) +:+ "px").
Proof. intros H. specialize (H margin_not_unitless). vm_compute in H. discriminate. Qed.

(** C6 (amended): a numeric value is rendered bare when the property is
    unit-less (with or without a vendor prefix); for every other property
    it is suffixed with [px] provided the number is truthy (neither zero nor
    NaN).  [{opacity: 0.5}] renders [opacity:0.5] and [{margin: 10}]
    renders [margin:10px]. *)
Theorem C6_numeric_unit_policy (key : string) (n : JS.number) :
  (unitless key →
   styleToString key (PNumber n) = key +:+ ":" +:+ JS.numberToString n) ∧
  (¬ unitless key → JS.numberTruthy n = true →
   styleToString key (PNumber n) = key +:+ ":" +:+ JS.numberToString n +:+ "px") ∧
  styleToString "opacity" (PNumber (JS.Fin 5 (-1))) = "opacity:0.5" ∧
  styleToString "margin" (PNumber (JS.Fin 10 0)) = "margin:10px".
Proof.
  split; [|split; [|split]].
  - intros Hu. apply CSS_NUMBER_spec in Hu. unfold styleToString.
    rewrite (bool_decide_eq_true_2 _ Hu). by rewrite andb_false_r.
  - intros Hu Hn. unfold styleToString. rewrite Hn.
    rewrite bool_decide_eq_false_2; [done|]. by rewrite CSS_NUMBER_spec.
  - vm_compute. reflexivity.
  - vm_compute. reflexivity.
Qed.

Lemma C6_numeric_unit_policy_witness :
  ¬ unitless "margin" ∧ JS.numberTruthy (JS.Fin 10 0) = true ∧
  styleToString "margin" (PNumber (JS.Fin 10 0))
  = "margin" +:+ ":" +:+ JS.numberToString (JS.Fin 10 0) +:+ "px".
Proof.
  split; [exact margin_not_unitless|]. split; [reflexivity|].
  apply (proj1 (proj2 (C6_numeric_unit_policy "margin" (JS.Fin 10 0)))).
  - exact margin_not_unitless.
  - reflexivity.
Defined.

(* ================================================================== *)
(** * Selector interpolation *)
(* ================================================================== *)

Lemma getSubstitution_plain matched before after replacement :
  JS.contains "$" replacement = false →
  Replace.getSubstitution matched before after false replacement = replacement.
Proof.
  induction replacement as [|c rest IH]; simpl; [done|].
  rewrite Ascii.eqb_sym. destruct (Ascii.eqb c "$"); [done|].
  intros H. by rewrite IH.
Qed.

Lemma replaceFrom_plain parent before selector :
  JS.contains "$" parent = false →
  Replace.replaceFrom (Ascii.eqb "&") parent before selector
  = substituteAmpersand parent selector.
Proof.
  intros Hp. revert before.
  induction selector as [|c rest IH]; intros before; simpl; [done|].
  rewrite (Ascii.eqb_sym c "&"). destruct (Ascii.eqb "&" c).
  - by rewrite getSubstitution_plain, IH.
  - by rewrite IH.
Qed.

(** A parent selector without a dollar sign is substituted as it is. *)
Lemma interpolate_plain selector parent :
  JS.contains "$" parent = false →
  interpolate selector parent =
    if JS.contains "&" selector then substituteAmpersand parent selector
    else parent +:+ " " +:+ selector.
Proof.
  intros Hp. unfold interpolate, Replace.replaceAll.
  destruct (JS.contains "&" selector); simpl; [|done].
  by apply replaceFrom_plain.
Qed.

(** C7: the source inserts the parent selector through
    [String.prototype.replace], which expands the dollar patterns of its
    replacement text.  For the parent [a[data-v='$$']] and the selector
    [&:hover] the code yields [a[data-v='$']:hover], where the textual
    substitution of the claim yields [a[data-v='$$']:hover]; the input
    reaches [interpolate] through [registerCss]. *)
Theorem C7_interpolate_expands_dollar_patterns :
  interpolate "&:hover" "a[data-v='$$']" = "a[data-v='$']:hover" ∧
  substituteAmpersand "a[data-v='$$']" "&:hover" = "a[data-v='$$']:hover" ∧
  getStylesheet
    (registerCss
       [("a[data-v='$$']", VStyles [("&:hover", VStyles [("color", red)])])]
       (create 0)).1
  = "a[data-v='$']:hover{color:red}".
Proof. vm_compute. auto. Qed.

(* ================================================================== *)
(** * [sortTuples] and [parseStyles] *)
(* ================================================================== *)

Section ArraySort.
Context {T : Type} (comparefn : T → T → Z).

Lemma insertSorted_perm x sorted :
  insertSorted comparefn x sorted ≡ₚ x :: sorted.
Proof.
  induction sorted as [|y rest IH]; simpl; [done|].
  destruct (comparefn x y <? 0); [done|].
  rewrite IH. apply Permutation_swap.
Qed.

Lemma arraySort_foldl_perm acc arr :
  foldl (λ sorted x, insertSorted comparefn x sorted) acc arr ≡ₚ acc ++ arr.
Proof.
  revert acc. induction arr as [|x arr IH]; intros acc; simpl.
  - by rewrite app_nil_r.
  - rewrite IH, insertSorted_perm. simpl. apply Permutation_middle.
Qed.

Lemma arraySort_perm arr : arraySort comparefn arr ≡ₚ arr.
Proof. unfold arraySort. by rewrite arraySort_foldl_perm. Qed.
End ArraySort.

Lemma sortTuples_perm {T} (value : list (string * T)) : sortTuples value ≡ₚ value.
Proof. apply arraySort_perm. Qed.

Lemma elem_of_sortTuples {T} (x : string * T) value :
  x ∈ sortTuples value ↔ x ∈ value.
Proof. by rewrite sortTuples_perm. Qed.

(** ** The depth of the entries of [nested] *)

Lemma depth_cons k v (styles : Styles) :
  depth ((k, v) :: styles) = S (Nat.max (depthValue v) (Nat.pred (depth styles))).
Proof. reflexivity. Qed.

Lemma depth_pos (styles : Styles) : (0 < depth styles)%nat.
Proof. unfold depth. simpl. lia. Qed.

Lemma parseNested_depth (styles : Styles) name sub :
  (name, sub) ∈ parseNested styles → (depth sub < depth styles)%nat.
Proof.
  induction styles as [|[k v] styles IH]; simpl.
  - by intros ?%elem_of_nil.
  - rewrite depth_cons. pose proof (depth_pos styles).
    assert ((name, sub) ∈ parseNested styles → (depth sub < S (Nat.max (depthValue v) (Nat.pred (depth styles))))%nat) as IH'.
    { intros Hin%IH. lia. }
    destruct (negb _); [|done].
    destruct v; try done.
    intros [Heq|Hin]%elem_of_cons; [|auto].
    injection Heq as -> ->. unfold depth. lia.
Qed.

Lemma p_nested_depth (styles : Styles) b name sub :
  (name, sub) ∈ p_nested (parseStyles styles b) → (depth sub < depth styles)%nat.
Proof.
  unfold parseStyles; simpl. destruct b.
  - apply parseNested_depth.
  - rewrite elem_of_sortTuples. apply parseNested_depth.
Qed.

(** ** [stylize] has enough fuel *)

Lemma foldl_stylizeNested_ext rec1 rec2 parent (nested : list (string * Styles)) st :
  (∀ name sub, (name, sub) ∈ nested →
     ∀ rl sl p, rec1 name sub rl sl p = rec2 name sub rl sl p) →
  foldl (stylizeNested rec1 parent) st nested
  = foldl (stylizeNested rec2 parent) st nested.
Proof.
  revert st. induction nested as [|[name sub] nested IH]; intros st Hrec; simpl; [done|].
  rewrite IH.
  - f_equal. unfold stylizeNested. destruct st as [[pid rl] sl]. simpl.
    rewrite (Hrec name sub); [done|]. by left.
  - intros ?? Hin. apply Hrec. by right.
Qed.

Lemma stylizeBody_ext rec1 rec2 selector styles rulesList stylesList parent :
  (∀ name sub,
     (name, sub) ∈ p_nested (parseStyles styles (negb (String.eqb selector ""))) →
     ∀ rl sl p, rec1 name sub rl sl p = rec2 name sub rl sl p) →
  stylizeBody rec1 selector styles rulesList stylesList parent
  = stylizeBody rec2 selector styles rulesList stylesList parent.
Proof.
  intros Hrec. unfold stylizeBody.
  case_bool_decide.
  - by rewrite (foldl_stylizeNested_ext rec1 rec2).
  - by rewrite (foldl_stylizeNested_ext rec1 rec2).
Qed.

Lemma stylizeFuel_enough n m selector styles rulesList stylesList parent :
  (depth styles ≤ n)%nat → (depth styles ≤ m)%nat →
  stylizeFuel n selector styles rulesList stylesList parent
  = stylizeFuel m selector styles rulesList stylesList parent.
Proof.
  revert m selector styles rulesList stylesList parent.
  induction n as [|n IH]; intros m selector styles rulesList stylesList parent Hn Hm.
  { pose proof (depth_pos styles). lia. }
  destruct m as [|m]; [pose proof (depth_pos styles); lia|].
  simpl. apply stylizeBody_ext.
  intros name sub Hin%p_nested_depth rl sl p. apply IH; lia.
Qed.

(** The defining equation of [stylize]. *)
Lemma stylize_unfold selector styles rulesList stylesList parent :
  stylize selector styles rulesList stylesList parent
  = stylizeBody stylize selector styles rulesList stylesList parent.
Proof.
  unfold stylize at 1. pose proof (depth_pos styles).
  destruct (depth styles) as [|d] eqn:Hd; [lia|].
  simpl. apply stylizeBody_ext.
  intros name sub Hin%p_nested_depth rl sl p. unfold stylize.
  apply stylizeFuel_enough; lia.
Qed.

(** ** [sortTuples] sorts *)

Lemma stringGt_asym a b : stringGt a b = true → stringGt b a = false.
Proof.
  unfold stringGt. rewrite (String.compare_antisym b a).
  by destruct (String.compare a b).
Qed.

Lemma insertSorted_HdRel {T} (x y : string * T) sorted :
  nameLe y x → HdRel nameLe y sorted →
  HdRel nameLe y (insertSorted compareTuples x sorted).
Proof.
  intros Hyx Hhd. destruct sorted as [|z rest]; simpl.
  - by constructor.
  - destruct (compareTuples x z <? 0); constructor; [done|].
    by inversion Hhd.
Qed.

Lemma insertSorted_sorted {T} (x : string * T) sorted :
  sortedByName sorted → sortedByName (insertSorted compareTuples x sorted).
Proof.
  unfold sortedByName.
  induction 1 as [|y rest Hrest IH Hhd]; simpl.
  - repeat constructor.
  - unfold compareTuples at 1.
    destruct (stringGt x.1 y.1) eqn:Hgt; simpl.
    + constructor; [done|].
      apply insertSorted_HdRel; [|done]. by apply stringGt_asym.
    + constructor; [by constructor|]. by constructor.
Qed.

Lemma sortTuples_sorted {T} (value : list (string * T)) :
  sortedByName (sortTuples value).
Proof.
  unfold sortTuples, arraySort.
  assert (sortedByName (@nil (string * T))) as Hnil by constructor.
  revert Hnil. generalize (@nil (string * T)).
  induction value as [|x value IH]; intros acc Hacc; simpl; [done|].
  apply IH. by apply insertSorted_sorted.
Qed.

(* ================================================================== *)
(** * The order of the nested entries *)
(* ================================================================== *)

(** C4, as stated, fails at the root of [registerStyle]: the outermost node
    is parsed with the selector [&], and its nested entries keep their
    authoring order. *)
Lemma C4_counterexample :
  ¬ sortedByName
      (p_nested (parseStyles exampleDescending (negb (String.eqb "&" "")))) ∧
  map ss_selector (stylize "&" exampleDescending [] [] None).2 = ["& .b"; "& .a"].
Proof.
  split; [|vm_compute; reflexivity].
  intros Hs. vm_compute in Hs.
  inversion Hs as [|? ? _ Hhd]; subst. inversion Hhd as [|? ? Hle]; subst.
  vm_compute in Hle. discriminate.
Qed.

(* ================================================================== *)
(** * The cache: defining equations *)
(* ================================================================== *)

(** Induction on a node, with the hypothesis for every stored child. *)
Lemma Node_children_ind (P : Node → Prop) :
  (∀ s i, P (Selector s i)) →
  (∀ s i c, Forall (λ kn, P kn.2) (_children c) → P (Style s i c)) →
  (∀ r s i c, Forall (λ kn, P kn.2) (_children c) → P (Rule r s i c)) →
  ∀ n, P n.
Proof.
  intros Hsel Hstyle Hrule.
  fix IH 1. intros [s i|s i c|r s i c].
  - apply Hsel.
  - apply Hstyle. destruct c as [sh ch ks children cs]; simpl.
    induction children as [|[k n] rest IHrest]; constructor; [apply IH|apply IHrest].
  - apply Hrule. destruct c as [sh ch ks children cs]; simpl.
    induction children as [|[k n] rest IHrest]; constructor; [apply IH|apply IHrest].
Qed.

Lemma childrenGet_elem_of k n children :
  childrenGet k children = Some n → (k, n) ∈ children.
Proof.
  induction children as [|[k' n'] rest IH]; simpl; [done|].
  destruct (String.eqb_spec k' k) as [->|Hne].
  - intros [= ->]. by left.
  - intros H. right. by apply IH.
Qed.

Lemma elem_of_values n (c : Cache) :
  n ∈ values c → ∃ k, (k, n) ∈ _children c.
Proof.
  unfold values. rewrite list_elem_of_omap.
  intros (k & _ & Hget). exists k. by apply childrenGet_elem_of.
Qed.

Lemma forValues_foldl f children keys target :
  forValues f children keys target
  = foldl f target (omap (λ k, childrenGet k children) keys).
Proof.
  revert target. induction keys as [|k keys IH]; intros target; simpl; [done|].
  rewrite IH. clear IH.
  assert ((fix find (l : list (string * Node)) : Cache :=
             match l with
             | [] => target
             | (k', child) :: l' =>
                 if String.eqb k' k then f target child else find l'
             end) children
          = match childrenGet k children with
            | Some child => f target child
            | None => target
            end) as ->.
  { induction children as [|[k' child] rest IHc]; simpl; [done|].
    by destruct (String.eqb k' k). }
  by destruct (childrenGet k children).
Qed.

Lemma addWith_ext m1 m2 this style :
  (∀ target, m1 target = m2 target) →
  addWith m1 this style = addWith m2 this style.
Proof.
  intros Hm. unfold addWith. rewrite (Hm emptyCache).
  case_bool_decide; [done|].
  destruct (asCache _) as [ic|]; [|done].
  destruct (asCache style); [|done]. by rewrite (Hm ic).
Qed.

Lemma removeWith_ext m1 m2 this style :
  (∀ target, m1 target = m2 target) →
  removeWith m1 this style = removeWith m2 this style.
Proof.
  intros Hm. unfold removeWith.
  case_bool_decide; [done|].
  destruct (childrenGet _ _) as [item|]; [|done].
  case_bool_decide; [done|].
  destruct (asCache item) as [ic|]; [|done].
  destruct (asCache style); [|done]. by rewrite (Hm ic).
Qed.

(** The defining equations of [add] and [remove]. *)
Lemma add_unfold this style : add this style = addWith (mergeNode style) this style.
Proof.
  destruct style as [s i|s i c|r s i c]; simpl; try done;
    apply addWith_ext; intros target;
    unfold mergeNode, merge, values; simpl; apply forValues_foldl.
Qed.

Lemma remove_unfold this style :
  remove this style = removeWith (unmergeNode style) this style.
Proof.
  destruct style as [s i|s i c|r s i c]; simpl; try done;
    apply removeWith_ext; intros target;
    unfold unmergeNode, unmerge, values; simpl; apply forValues_foldl.
Qed.

(* ================================================================== *)
(** * The cache: dictionaries and arrays *)
(* ================================================================== *)

Lemma childrenGet_delete k k' children :
  childrenGet k' (childrenDelete k children)
  = if decide (k = k') then None else childrenGet k' children.
Proof.
  unfold childrenDelete.
  induction children as [|[k0 n0] rest IH]; simpl.
  - by case_decide.
  - rewrite filter_cons. simpl.
    destruct (decide (k0 ≠ k)) as [Hk0|Hk0]; simpl.
    + destruct (String.eqb_spec k0 k') as [->|Hne]; [|done].
      by rewrite decide_False.
    + apply dec_stable in Hk0. subst k0. rewrite IH.
      destruct (decide (k = k')) as [->|Hne]; [done|].
      by destruct (String.eqb_spec k k').
Qed.

Lemma childrenGet_set k k' n children :
  childrenGet k' (childrenSet k n children)
  = if decide (k = k') then Some n else childrenGet k' children.
Proof.
  unfold childrenSet. simpl. destruct (String.eqb_spec k k') as [->|Hne].
  - by rewrite decide_True.
  - rewrite decide_False by done. rewrite childrenGet_delete.
    by rewrite decide_False.
Qed.

Lemma counter_insert this k k' n :
  default O (<[k := n]> (_counters this) !! k')
  = if decide (k = k') then n else counter this k'.
Proof.
  unfold counter. rewrite lookup_insert. by case_decide.
Qed.

Lemma indexOfFrom_lookup (arr : list string) x i0 :
  x ∈ arr →
  ∃ i : nat, indexOfFrom i0 x arr = i0 + Z.of_nat i ∧ arr !! i = Some x.
Proof.
  revert i0. induction arr as [|y arr IH]; intros i0 Hin.
  - by apply elem_of_nil in Hin.
  - simpl. destruct (String.eqb_spec y x) as [->|Hne].
    + exists O. split; [lia|done].
    + apply elem_of_cons in Hin as [->|Hin]; [done|].
      destruct (IH (i0 + 1) Hin) as (i & Hi & Hl).
      exists (S i). split; [lia|done].
Qed.

Lemma indexOf_lookup (arr : list string) x :
  x ∈ arr → ∃ i : nat, indexOf arr x = Z.of_nat i ∧ arr !! i = Some x.
Proof.
  intros Hin. destruct (indexOfFrom_lookup arr x 0 Hin) as (i & Hi & Hl).
  exists i. split; [|done]. unfold indexOf. lia.
Qed.

Lemma splice_replace {A} (arr : list A) (i : nat) x :
  (i < length arr)%nat → splice arr (Z.of_nat i) 1 [x] = <[i := x]> arr.
Proof.
  intros Hi. unfold splice.
  destruct (Z.ltb_spec (Z.of_nat i) 0); [lia|].
  rewrite Z.min_l by lia. rewrite Nat2Z.id.
  rewrite insert_take_drop by done. simpl. do 3 f_equal. lia.
Qed.

Lemma splice_delete {A} (arr : list A) (i : nat) :
  splice arr (Z.of_nat i) 1 [] = delete i arr.
Proof.
  unfold splice.
  destruct (Z.ltb_spec (Z.of_nat i) 0); [lia|].
  destruct (decide (i < length arr)%nat) as [Hi|Hi].
  - rewrite Z.min_l by lia. rewrite Nat2Z.id. simpl.
    rewrite delete_take_drop. do 2 f_equal. lia.
  - rewrite Z.min_r by lia. rewrite Nat2Z.id. simpl.
    rewrite delete_take_drop.
    by rewrite !take_ge, !drop_ge by lia.
Qed.

(** ** The change counter tells whether the text list changed *)

Lemma addWith_changeId_le m this style :
  (changeId this ≤ changeId (addWith m this style).1)%nat.
Proof.
  unfold addWith. repeat case_match; simpl; lia.
Qed.

Lemma addWith_changeId_same m this style :
  changeId (addWith m this style).1 = changeId this →
  sheet (addWith m this style).1 = sheet this ∧
  _keys (addWith m this style).1 = _keys this.
Proof.
  unfold addWith. repeat case_match; simpl; intros; (done || lia).
Qed.

Lemma removeWith_changeId_le m this style :
  (changeId this ≤ changeId (removeWith m this style).1)%nat.
Proof.
  unfold removeWith. repeat case_match; simpl; lia.
Qed.

Lemma removeWith_changeId_same m this style :
  changeId (removeWith m this style).1 = changeId this →
  sheet (removeWith m this style).1 = sheet this ∧
  _keys (removeWith m this style).1 = _keys this.
Proof.
  unfold removeWith. repeat case_match; simpl; intros; (done || lia).
Qed.

Section Folds.
Variable f : Cache → Node → Cache.
Hypothesis f_le : ∀ c n, (changeId c ≤ changeId (f c n))%nat.
Hypothesis f_same :
  ∀ c n, changeId (f c n) = changeId c →
         sheet (f c n) = sheet c ∧ _keys (f c n) = _keys c.

Lemma foldl_changeId_le c ns : (changeId c ≤ changeId (foldl f c ns))%nat.
Proof.
  revert c. induction ns as [|n ns IH]; intros c; simpl; [done|].
  etrans; [apply (f_le c n)|apply IH].
Qed.

Lemma foldl_changeId_same c ns :
  changeId (foldl f c ns) = changeId c →
  sheet (foldl f c ns) = sheet c ∧ _keys (foldl f c ns) = _keys c.
Proof.
  revert c. induction ns as [|n ns IH]; intros c; simpl; [done|].
  intros Heq.
  pose proof (f_le c n). pose proof (foldl_changeId_le (f c n) ns).
  assert (changeId (f c n) = changeId c) as Hstep by lia.
  destruct (IH (f c n)) as [-> ->]; [lia|]. by apply f_same.
Qed.
End Folds.

Lemma add_changeId_le this style : (changeId this ≤ changeId (add this style).1)%nat.
Proof. rewrite add_unfold. apply addWith_changeId_le. Qed.

Lemma add_changeId_same this style :
  changeId (add this style).1 = changeId this →
  sheet (add this style).1 = sheet this ∧ _keys (add this style).1 = _keys this.
Proof. rewrite add_unfold. apply addWith_changeId_same. Qed.

Lemma remove_changeId_le this style :
  (changeId this ≤ changeId (remove this style).1)%nat.
Proof. rewrite remove_unfold. apply removeWith_changeId_le. Qed.

Lemma remove_changeId_same this style :
  changeId (remove this style).1 = changeId this →
  sheet (remove this style).1 = sheet this ∧ _keys (remove this style).1 = _keys this.
Proof. rewrite remove_unfold. apply removeWith_changeId_same. Qed.

Lemma mergeNode_changeId_same style target :
  changeId (mergeNode style target) = changeId target →
  sheet (mergeNode style target) = sheet target.
Proof.
  unfold mergeNode, merge. destruct (asCache style); [|done].
  intros H. eapply proj1, foldl_changeId_same; [| |done].
  - intros. apply add_changeId_le.
  - intros ??. apply add_changeId_same.
Qed.

Lemma unmergeNode_changeId_same style target :
  changeId (unmergeNode style target) = changeId target →
  sheet (unmergeNode style target) = sheet target.
Proof.
  unfold unmergeNode, unmerge. destruct (asCache style); [|done].
  intros H. eapply proj1, foldl_changeId_same; [| |done].
  - intros. apply remove_changeId_le.
  - intros ??. apply remove_changeId_same.
Qed.

Lemma getStyles_setCache item ic ic' :
  asCache item = Some ic → sheet ic' = sheet ic →
  getStyles (setCache item ic') = getStyles item.
Proof.
  destruct item; simpl; [done| |]; intros [= ->] ->; done.
Qed.

Lemma nodeId_setCache item c : nodeId (setCache item c) = nodeId item.
Proof. by destruct item. Qed.

Lemma asCache_setCache item ic c :
  asCache item = Some ic → asCache (setCache item c) = Some c.
Proof. by destruct item. Qed.

(* ================================================================== *)
(** * The cache invariant *)
(* ================================================================== *)

(** Reduce the projections of a cache built by a record expression. *)
Ltac fields := cbn [sheet changeId _keys _children _counters fst snd].

Lemma wf_emptyCache : wf_cache emptyCache.
Proof.
  constructor; simpl.
  - constructor.
  - intros k. unfold counter. simpl. rewrite lookup_empty. simpl.
    split; [by intros ?%elem_of_nil|lia].
  - intros k. by rewrite lookup_empty.
  - intros k. split; [by intros ?%elem_of_nil|by intros [? ?]].
  - done.
  - split; [done|]. intros i k. simpl. by rewrite lookup_nil.
Qed.

Lemma wf_node_setCache n c : wf_cache c → wf_node (setCache n c).
Proof. destruct n; simpl; by constructor. Qed.

Lemma wf_node_asCache n c : wf_node n → asCache n = Some c → wf_cache c.
Proof. by destruct 1; simpl; intros [= <-]. Qed.

Lemma wf_keys_counter c k : wf_cache c → k ∈ _keys c ↔ (0 < counter c k)%nat.
Proof. by destruct 1. Qed.

Lemma wf_keys_children c k :
  wf_cache c → k ∈ _keys c ↔ is_Some (childrenGet k (_children c)).
Proof. by destruct 1. Qed.

Lemma wf_child c k n :
  wf_cache c → childrenGet k (_children c) = Some n → nodeId n = k ∧ wf_node n.
Proof. destruct 1; eauto. Qed.

Lemma wf_aligned c : wf_cache c → aligned c.
Proof. by destruct 1. Qed.

Lemma wf_NoDup c : wf_cache c → NoDup (_keys c).
Proof. by destruct 1. Qed.

(** A new entry is pushed at the end of both lists. *)
Lemma wf_push this item ch n :
  wf_cache this → counter this (nodeId item) = O → wf_node item →
  wf_cache {| sheet := sheet this ++ [getStyles item];
              changeId := ch;
              _keys := _keys this ++ [nodeId item];
              _children := childrenSet (nodeId item) item (_children this);
              _counters := <[nodeId item := S n]> (_counters this) |}.
Proof.
  intros [c Hnd Hcnt Hnz Hch Hchild [Hlen Hal]] Hzero Hitem.
  assert (nodeId item ∉ _keys c) as Hnotin.
  { rewrite Hcnt. lia. }
  constructor; fields.
  - apply NoDup_app. split; [done|]. split; [|apply NoDup_singleton].
    intros k Hk ->%list_elem_of_singleton. done.
  - intros k. unfold counter at 1. fields. rewrite counter_insert.
    rewrite elem_of_app, list_elem_of_singleton, Hcnt.
    case_decide; subst; [split; [lia|auto]|]. split; [|auto].
    intros [?|?]; [done|congruence].
  - intros k. rewrite lookup_insert. case_decide; [done|apply Hnz].
  - intros k. rewrite childrenGet_set, elem_of_app, list_elem_of_singleton.
    case_decide; subst; [split; eauto|].
    rewrite Hch. split; [|auto]. intros [?|?]; [done|congruence].
  - intros k m. rewrite childrenGet_set. case_decide; subst.
    + by intros [= <-].
    + apply Hchild.
  - unfold aligned; fields. split; [rewrite !length_app; simpl; lia|].
    intros i k Hik.
    destruct (decide (i < length (_keys c))%nat) as [Hi|Hi].
    + rewrite lookup_app_l in Hik by done.
      destruct (Hal i k Hik) as (m & Hget & Hid & Hsheet).
      exists m. rewrite childrenGet_set, decide_False.
      * split; [done|]. split; [done|]. rewrite lookup_app_l by lia. done.
      * intros <-. apply Hnotin. by eapply list_elem_of_lookup_2.
    + rewrite lookup_app_r in Hik by lia.
      apply list_lookup_singleton_Some in Hik as [Hi0 <-].
      exists item. rewrite childrenGet_set, decide_True by done.
      split; [done|]. split; [done|].
      rewrite lookup_app_r by lia.
      replace (i - length (sheet c))%nat with O by lia. done.
Qed.

(** Only a counter changes, and stays positive. *)
Lemma wf_counters this id n :
  wf_cache this → id ∈ _keys this →
  wf_cache {| sheet := sheet this;
              changeId := changeId this;
              _keys := _keys this;
              _children := _children this;
              _counters := <[id := S n]> (_counters this) |}.
Proof.
  intros [c Hnd Hcnt Hnz Hch Hchild Hal] Hin.
  constructor; fields; try done.
  - intros k. unfold counter at 1. fields. rewrite counter_insert.
    case_decide; subst; [split; [lia|done]|apply Hcnt].
  - intros k. rewrite lookup_insert. case_decide; [done|apply Hnz].
Qed.

(** A stored child is replaced in place, together with its text. *)
Lemma wf_update this item' i0 ch n :
  wf_cache this → _keys this !! i0 = Some (nodeId item') → wf_node item' →
  wf_cache {| sheet := <[i0 := getStyles item']> (sheet this);
              changeId := ch;
              _keys := _keys this;
              _children := childrenSet (nodeId item') item' (_children this);
              _counters := <[nodeId item' := S n]> (_counters this) |}.
Proof.
  intros [c Hnd Hcnt Hnz Hch Hchild [Hlen Hal]] Hi0 Hitem.
  assert (nodeId item' ∈ _keys c) as Hin by (by eapply list_elem_of_lookup_2).
  constructor; fields; try done.
  - intros k. unfold counter at 1. fields. rewrite counter_insert.
    case_decide; subst; [split; [lia|done]|apply Hcnt].
  - intros k. rewrite lookup_insert. case_decide; [done|apply Hnz].
  - intros k. rewrite childrenGet_set. case_decide; subst; [|apply Hch].
    split; eauto.
  - intros k m. rewrite childrenGet_set. case_decide; subst.
    + by intros [= <-].
    + apply Hchild.
  - unfold aligned; fields. split; [by rewrite length_insert|].
    intros i k Hik.
    destruct (decide (i = i0)) as [->|Hne].
    + assert (k = nodeId item') as -> by congruence.
      exists item'. rewrite childrenGet_set, decide_True by done.
      split; [done|]. split; [done|].
      apply list_lookup_insert_eq. rewrite Hlen. by eapply lookup_lt_Some.
    + destruct (Hal i k Hik) as (m & Hget & Hid & Hsheet).
      exists m. rewrite childrenGet_set, decide_False.
      * split; [done|]. split; [done|]. by rewrite list_lookup_insert_ne.
      * intros <-. apply Hne. by eapply NoDup_lookup.
Qed.

(** An entry and its slot are deleted. *)
Lemma wf_delete this id i0 ch cs :
  wf_cache this → _keys this !! i0 = Some id →
  (∀ k, k ≠ id → cs !! k = _counters this !! k) → cs !! id = None →
  wf_cache {| sheet := delete i0 (sheet this);
              changeId := ch;
              _keys := delete i0 (_keys this);
              _children := childrenDelete id (_children this);
              _counters := cs |}.
Proof.
  intros [c Hnd Hcnt Hnz Hch Hchild [Hlen Hal]] Hi0 Hcs Hcsid.
  assert (∀ k, k ∈ delete i0 (_keys c) ↔ k ∈ _keys c ∧ k ≠ id) as Hdel.
  { intros k. rewrite !list_elem_of_lookup. split.
    - intros [j Hj]. rewrite list_lookup_delete in Hj.
      case_decide; (split; [eauto|]); intros ->.
      + assert (j = i0) by (by eapply NoDup_lookup). lia.
      + assert (S j = i0) by (by eapply NoDup_lookup). lia.
    - intros [[j Hj] Hne].
      assert (j ≠ i0) by congruence.
      destruct (decide (j < i0)%nat).
      + exists j. by rewrite list_lookup_delete_lt.
      + exists (pred j). rewrite list_lookup_delete_ge by lia.
        by replace (S (pred j)) with j by lia. }
  constructor; fields.
  - rewrite delete_take_drop. rewrite <- (take_drop_middle _ _ _ Hi0) in Hnd.
    apply NoDup_app in Hnd as (H1 & H2 & H3). apply NoDup_cons in H3 as [_ H3].
    apply NoDup_app. split; [done|]. split; [|done].
    intros k Hk1 Hk2. apply (H2 k Hk1). by right.
  - intros k. rewrite Hdel, Hcnt. unfold counter. fields.
    destruct (decide (k = id)) as [->|Hne].
    + rewrite Hcsid. simpl. split; [by intros [_ ?]|lia].
    + rewrite Hcs by done. split; [by intros [? _]|done].
  - intros k. destruct (decide (k = id)) as [->|Hne]; [by rewrite Hcsid|].
    rewrite Hcs by done. apply Hnz.
  - intros k. rewrite Hdel, childrenGet_delete. case_decide; subst.
    + split; [by intros [_ ?]|by intros [? ?]].
    + rewrite Hch. split; [by intros [? _]|done].
  - intros k m. rewrite childrenGet_delete. case_decide; [done|apply Hchild].
  - unfold aligned; fields. split.
    { rewrite !length_delete; [lia|..]; [eauto|].
      apply lookup_lt_is_Some. rewrite Hlen. by eapply lookup_lt_Some. }
    intros i k Hik.
    assert (k ≠ id) as Hne.
    { assert (k ∈ delete i0 (_keys c)) as Hk by (by eapply list_elem_of_lookup_2).
      by apply Hdel in Hk as [_ ?]. }
    rewrite list_lookup_delete in Hik. rewrite list_lookup_delete.
    rewrite childrenGet_delete, decide_False by done.
    case_decide; by apply Hal.
Qed.

(** ** [add] and [remove] keep the invariant *)

Lemma addWith_wf m this style :
  (∀ t, wf_cache t → wf_cache (m t)) →
  (∀ t, changeId (m t) = changeId t → sheet (m t) = sheet t) →
  wf_cache this → wf_cache (addWith m this style).1.
Proof.
  intros Hm Hsame Hwf. unfold addWith.
  case_bool_decide as Hcount.
  - assert (childrenGet (nodeId style) (_children this) = None) as ->.
    { apply eq_None_not_Some. rewrite <- wf_keys_children by done.
      rewrite wf_keys_counter by done. lia. }
    cbn [fst]. rewrite Hcount.
    set (item := setCache style (m emptyCache)).
    assert (nodeId item = nodeId style) as Hid by apply nodeId_setCache.
    rewrite <- Hid. apply wf_push; [done|by rewrite Hid|].
    apply wf_node_setCache, Hm, wf_emptyCache.
  - assert (nodeId style ∈ _keys this) as Hin.
    { rewrite wf_keys_counter by done. lia. }
    pose proof Hin as [item Hitem]%(wf_keys_children _ _ Hwf).
    rewrite Hitem.
    destruct (wf_child _ _ _ Hwf Hitem) as [Hid Hwfitem].
    destruct (counter this (nodeId style)) as [|n] eqn:Hc; [done|].
    destruct (asCache item) as [ic|] eqn:Hic; [|by apply wf_counters].
    destruct (asCache style) as [sc|] eqn:Hsc; [|by apply wf_counters].
    destruct (indexOf_lookup _ _ Hin) as (i0 & Hidx & Hi0).
    set (item' := setCache item (m ic)).
    assert (nodeId item' = nodeId style) as Hid'.
    { unfold item'. by rewrite nodeId_setCache. }
    assert (wf_node item') as Hwf'.
    { apply wf_node_setCache, Hm. by eapply wf_node_asCache. }
    destruct (wf_aligned _ Hwf) as [Hlen Hal].
    destruct (Hal i0 _ Hi0) as (item0 & Hget0 & _ & Hsheet).
    assert (item0 = item) as -> by congruence.
    case_bool_decide as Hchanged; cbn [fst].
    + rewrite Hidx, splice_replace.
      2:{ rewrite Hlen. by eapply lookup_lt_Some. }
      rewrite <- Hid'. apply wf_update; [done|by rewrite Hid'|done].
    + assert (getStyles item' = getStyles item) as Hgs.
      { apply (getStyles_setCache _ ic); [done|by apply Hsame]. }
      rewrite <- (list_insert_id (sheet this) i0 (getStyles item')) at 1.
      2:{ by rewrite Hgs. }
      rewrite <- Hid'. apply wf_update; [done|by rewrite Hid'|done].
Qed.

Lemma removeWith_wf m this style :
  (∀ t, wf_cache t → wf_cache (m t)) →
  (∀ t, changeId (m t) = changeId t → sheet (m t) = sheet t) →
  wf_cache this → wf_cache (removeWith m this style).1.
Proof.
  intros Hm Hsame Hwf. unfold removeWith.
  case_bool_decide as Hcount; [done|].
  assert (nodeId style ∈ _keys this) as Hin.
  { rewrite wf_keys_counter by done. lia. }
  pose proof Hin as [item Hitem]%(wf_keys_children _ _ Hwf).
  rewrite Hitem.
  destruct (wf_child _ _ _ Hwf Hitem) as [Hid Hwfitem].
  rewrite Hid.
  destruct (indexOf_lookup _ _ Hin) as (i0 & Hidx & Hi0).
  destruct (wf_aligned _ Hwf) as [Hlen Hal].
  destruct (Hal i0 _ Hi0) as (item0 & Hget0 & _ & Hsheet).
  assert (item0 = item) as -> by congruence.
  case_bool_decide as Hone; cbn [fst].
  - rewrite Hidx, !splice_delete.
    apply wf_delete; [done|done| |].
    + intros k Hk. rewrite lookup_delete_ne by done. by rewrite lookup_insert_ne.
    + apply lookup_delete_eq.
  - destruct (counter this (nodeId style)) as [|[|n]] eqn:Hc; [done|done|].
    replace (S (S n) - 1)%nat with (S n) by lia.
    destruct (asCache item) as [ic|] eqn:Hic; [|by apply wf_counters].
    destruct (asCache style) as [sc|] eqn:Hsc; [|by apply wf_counters].
    set (item' := setCache item (m ic)).
    assert (nodeId item' = nodeId style) as Hid'.
    { unfold item'. by rewrite nodeId_setCache. }
    assert (wf_node item') as Hwf'.
    { apply wf_node_setCache, Hm. by eapply wf_node_asCache. }
    case_bool_decide as Hchanged; cbn [fst].
    + rewrite Hidx, splice_replace.
      2:{ rewrite Hlen. by eapply lookup_lt_Some. }
      rewrite <- Hid'. apply wf_update; [done|by rewrite Hid'|done].
    + assert (getStyles item' = getStyles item) as Hgs.
      { apply (getStyles_setCache _ ic); [done|by apply Hsame]. }
      rewrite <- (list_insert_id (sheet this) i0 (getStyles item')) at 1.
      2:{ by rewrite Hgs. }
      rewrite <- Hid'. apply wf_update; [done|by rewrite Hid'|done].
Qed.

Lemma foldl_wf (f : Cache → Node → Cache) ns c :
  Forall (λ n, ∀ t, wf_cache t → wf_cache (f t n)) ns →
  wf_cache c → wf_cache (foldl f c ns).
Proof.
  intros Hns. revert c. induction Hns as [|n ns Hn _ IH]; intros c Hc; simpl; auto.
Qed.

Lemma Forall_values (P : Node → Prop) (c : Cache) :
  Forall (λ kn, P kn.2) (_children c) → Forall P (values c).
Proof.
  rewrite !Forall_forall. intros H n [k Hk]%elem_of_values. by apply (H (k, n)).
Qed.

Lemma add_wf this style : wf_cache this → wf_cache (add this style).1.
Proof.
  revert this. induction style as [s i|s i c IH|r s i c IH] using Node_children_ind;
    intros this Hwf; rewrite add_unfold;
    (apply addWith_wf; [|apply mergeNode_changeId_same|done]);
    intros t Ht; unfold mergeNode; simpl; [done|..];
    (apply foldl_wf; [|done]); by apply Forall_values.
Qed.

Lemma remove_wf this style : wf_cache this → wf_cache (remove this style).1.
Proof.
  revert this. induction style as [s i|s i c IH|r s i c IH] using Node_children_ind;
    intros this Hwf; rewrite remove_unfold;
    (apply removeWith_wf; [|apply unmergeNode_changeId_same|done]);
    intros t Ht; unfold unmergeNode; simpl; [done|..];
    (apply foldl_wf; [|done]); by apply Forall_values.
Qed.

Lemma merge_wf this cache : wf_cache this → wf_cache (merge this cache).
Proof.
  intros Hwf. apply foldl_wf; [|done].
  apply Forall_forall. intros n _ t. apply add_wf.
Qed.

Lemma unmerge_wf this cache : wf_cache this → wf_cache (unmerge this cache).
Proof.
  intros Hwf. apply foldl_wf; [|done].
  apply Forall_forall. intros n _ t. apply remove_wf.
Qed.

Lemma reachable_wf c : reachable c → wf_cache c.
Proof.
  induction 1; [apply wf_emptyCache|by apply add_wf|by apply remove_wf].
Qed.

(** C8: in every cache built from [new Cache()] by [add] and [remove], the
    order list and the text list have the same length and are
    index-aligned: the text at position [i] is the rendered text of the
    stored node whose id is at position [i].  The same holds for the cache
    of every stored [Style] or [Rule]. *)
Theorem C8_keys_and_sheet_aligned (c : Cache) :
  reachable c →
  aligned c ∧
  ∀ k n ic, childrenGet k (_children c) = Some n → asCache n = Some ic → aligned ic.
Proof.
  intros Hwf%reachable_wf. split; [by apply wf_aligned|].
  intros k n ic Hget Hic. apply wf_aligned.
  destruct (wf_child _ _ _ Hwf Hget) as [_ Hn]. by eapply wf_node_asCache.
Qed.

Lemma C8_keys_and_sheet_aligned_witness :
  let c := (remove (add (add emptyCache (Selector ".a" "k1")).1
                        (Selector ".b" "k2")).1 (Selector ".a" "k1")).1 in
  reachable c ∧ aligned c.
Proof.
  split.
  - apply reachable_remove, reachable_add, reachable_add, reachable_new.
  - apply C8_keys_and_sheet_aligned.
    apply reachable_remove, reachable_add, reachable_add, reachable_new.
Defined.

(* ================================================================== *)
(** * Counters, order and notifications of one call *)
(* ================================================================== *)

Lemma add_counter this style k :
  counter (add this style).1 k
  = if decide (nodeId style = k) then S (counter this k) else counter this k.
Proof.
  rewrite add_unfold. unfold addWith.
  repeat case_match; unfold counter at 1; fields; rewrite counter_insert;
    case_decide; by subst.
Qed.

Lemma remove_counter this style k :
  counter (remove this style).1 k
  = if decide (nodeId style = k) then pred (counter this k) else counter this k.
Proof.
  rewrite remove_unfold. unfold removeWith.
  case_bool_decide as Hz.
  { cbn [fst]. case_decide; subst; [by rewrite Hz|done]. }
  repeat case_match; unfold counter at 1; fields;
    rewrite ?lookup_delete, ?counter_insert; repeat case_decide; subst; simpl;
    try done; try lia.
  all: try (rewrite lookup_insert_ne by done; done).
Qed.

Lemma add_keys this style :
  _keys (add this style).1 = _keys this ∨
  (counter this (nodeId style) = O ∧
   ∃ k, _keys (add this style).1 = _keys this ++ [k]).
Proof.
  rewrite add_unfold. unfold addWith.
  case_bool_decide; [right; split; [done|eauto]|].
  left. by repeat case_match.
Qed.

Lemma add_changeInPlace this style : Forall changeInPlace (add this style).2.
Proof.
  rewrite add_unfold. unfold addWith.
  repeat case_match; cbn [snd]; repeat constructor.
Qed.

Lemma remove_changeInPlace this style : Forall changeInPlace (remove this style).2.
Proof.
  rewrite remove_unfold. unfold removeWith.
  repeat case_match; cbn [snd]; repeat constructor.
Qed.

(** Adding a node whose id is present: the order list is unchanged and the
    text list changes at most at the index of the id. *)
Lemma add_present this style :
  wf_cache this → nodeId style ∈ _keys this →
  _keys (add this style).1 = _keys this ∧
  ∃ i : nat, _keys this !! i = Some (nodeId style) ∧
    (sheet (add this style).1 = sheet this ∨
     ∃ text, sheet (add this style).1 = <[i := text]> (sheet this)).
Proof.
  intros Hwf Hin.
  destruct (indexOf_lookup _ _ Hin) as (i0 & Hidx & Hi0).
  destruct (wf_aligned _ Hwf) as [Hlen _].
  assert (i0 < length (sheet this))%nat as Hlt.
  { rewrite Hlen. by eapply lookup_lt_Some. }
  pose proof Hin as Hc. rewrite wf_keys_counter in Hc by done.
  rewrite add_unfold. unfold addWith.
  rewrite bool_decide_eq_false_2 by lia.
  pose proof Hin as [item Hitem]%(wf_keys_children _ _ Hwf). rewrite Hitem.
  repeat case_match; fields; (split; [done|]); exists i0; (split; [done|]);
    try (by left);
    right; rewrite Hidx, splice_replace by done; eauto.
Qed.

(** Removing a node: the order list loses at most the id of the node. *)
Lemma remove_keys this style :
  wf_cache this →
  _keys (remove this style).1 = _keys this ∨
  (counter this (nodeId style) = 1%nat ∧
   ∃ i : nat, _keys this !! i = Some (nodeId style) ∧
     _keys (remove this style).1 = delete i (_keys this) ∧
     sheet (remove this style).1 = delete i (sheet this)).
Proof.
  intros Hwf. rewrite remove_unfold. unfold removeWith.
  case_bool_decide as Hz; [by left|].
  assert (nodeId style ∈ _keys this) as Hin.
  { rewrite wf_keys_counter by done. lia. }
  pose proof Hin as [item Hitem]%(wf_keys_children _ _ Hwf).
  rewrite Hitem.
  destruct (wf_child _ _ _ Hwf Hitem) as [Hid _]. rewrite Hid.
  destruct (indexOf_lookup _ _ Hin) as (i0 & Hidx & Hi0).
  case_bool_decide as Hone.
  - right. split; [done|]. exists i0. fields.
    by rewrite Hidx, !splice_delete.
  - left. by repeat case_match.
Qed.

(* ================================================================== *)
(** * Insertion order *)
(* ================================================================== *)

(* ================================================================== *)
(** * Reference counting *)
(* ================================================================== *)

Lemma addAll_snoc this styles n :
  addAll this (styles ++ [n])
  = ((add (addAll this styles).1 n).1,
     (addAll this styles).2 ++ (add (addAll this styles).1 n).2).
Proof.
  unfold addAll. rewrite foldl_snoc.
  destruct (foldl _ _ styles) as [c log]. simpl. by destruct (add c n).
Qed.

Lemma removeAll_snoc this styles n :
  removeAll this (styles ++ [n])
  = ((remove (removeAll this styles).1 n).1,
     (removeAll this styles).2 ++ (remove (removeAll this styles).1 n).2).
Proof.
  unfold removeAll. rewrite foldl_snoc.
  destruct (foldl _ _ styles) as [c log]. simpl. by destruct (remove c n).
Qed.

Lemma addAll_wf this styles : wf_cache this → wf_cache (addAll this styles).1.
Proof.
  intros Hwf. induction styles as [|n styles IH] using rev_ind; [done|].
  rewrite addAll_snoc. cbn [fst]. by apply add_wf.
Qed.

Lemma removeAll_wf this styles : wf_cache this → wf_cache (removeAll this styles).1.
Proof.
  intros Hwf. induction styles as [|n styles IH] using rev_ind; [done|].
  rewrite removeAll_snoc. cbn [fst]. by apply remove_wf.
Qed.

Lemma addAll_counter this styles id :
  Forall (λ n, nodeId n = id) styles →
  counter (addAll this styles).1 id = (counter this id + length styles)%nat.
Proof.
  induction styles as [|n styles IH] using rev_ind; intros Hall.
  - simpl. lia.
  - apply Forall_app in Hall as [Hall Hn]. rewrite Forall_singleton in Hn.
    rewrite addAll_snoc. cbn [fst]. rewrite add_counter, decide_True by done.
    rewrite IH by done. rewrite length_app. simpl. lia.
Qed.

Lemma removeAll_counter this styles id :
  Forall (λ n, nodeId n = id) styles →
  counter (removeAll this styles).1 id = (counter this id - length styles)%nat.
Proof.
  induction styles as [|n styles IH] using rev_ind; intros Hall.
  - simpl. lia.
  - apply Forall_app in Hall as [Hall Hn]. rewrite Forall_singleton in Hn.
    rewrite removeAll_snoc. cbn [fst]. rewrite remove_counter, decide_True by done.
    rewrite IH by done. rewrite length_app. simpl. lia.
Qed.

(** A counter that is not set: [remove] does nothing. *)
Lemma remove_absent this style :
  counter this (nodeId style) = O → remove this style = (this, []).
Proof.
  intros Hz. rewrite remove_unfold. unfold removeWith.
  by rewrite bool_decide_eq_true_2.
Qed.

(** A counter above one: [remove] sends no [remove] notification. *)
Lemma remove_shared this style :
  (1 < counter this (nodeId style))%nat →
  Forall (λ ch, isRemoved ch = false) (remove this style).2.
Proof.
  intros Hc. rewrite remove_unfold. unfold removeWith.
  rewrite bool_decide_eq_false_2 by lia.
  destruct (childrenGet _ _) as [item|]; [|by constructor].
  rewrite bool_decide_eq_false_2 by lia.
  repeat case_match; cbn [snd]; repeat constructor.
Qed.

(** A counter equal to one: [remove] deletes the entry and its slot and
    sends one [remove] notification. *)
Lemma remove_last this style :
  wf_cache this → counter this (nodeId style) = 1%nat →
  ∃ item (i : nat),
    childrenGet (nodeId style) (_children this) = Some item ∧
    _keys this !! i = Some (nodeId style) ∧
    (remove this style).2 = [Removed item (Z.of_nat i)] ∧
    _keys (remove this style).1 = delete i (_keys this) ∧
    sheet (remove this style).1 = delete i (sheet this) ∧
    _counters (remove this style).1 !! nodeId style = None ∧
    childrenGet (nodeId style) (_children (remove this style).1) = None.
Proof.
  intros Hwf Hone.
  assert (nodeId style ∈ _keys this) as Hin.
  { rewrite wf_keys_counter by done. lia. }
  pose proof Hin as [item Hitem]%(wf_keys_children _ _ Hwf).
  destruct (wf_child _ _ _ Hwf Hitem) as [Hid _].
  destruct (indexOf_lookup _ _ Hin) as (i0 & Hidx & Hi0).
  exists item, i0. split; [done|]. split; [done|].
  rewrite remove_unfold. unfold removeWith.
  rewrite bool_decide_eq_false_2 by lia.
  rewrite Hitem, Hid, Hidx, (bool_decide_eq_true_2 _ Hone). fields.
  rewrite !splice_delete, lookup_delete_eq, childrenGet_delete, decide_True by done.
  done.
Qed.

Lemma removeAll_shared this styles id :
  Forall (λ n, nodeId n = id) styles →
  (length styles < counter this id)%nat →
  Forall (λ ch, isRemoved ch = false) (removeAll this styles).2.
Proof.
  induction styles as [|n styles IH] using rev_ind; intros Hall Hlen.
  - constructor.
  - apply Forall_app in Hall as [Hall Hn]. rewrite Forall_singleton in Hn.
    rewrite length_app in Hlen. simpl in Hlen.
    rewrite removeAll_snoc. cbn [snd]. apply Forall_app. split.
    + apply IH; [done|lia].
    + apply remove_shared. rewrite Hn, removeAll_counter by done. lia.
Qed.

(* ================================================================== *)
(** * Adding a node twice *)
(* ================================================================== *)

Lemma clone_setCache style : clone style = setCache style (mergeNode style emptyCache).
Proof. by destruct style. Qed.

Lemma add_children this style k :
  wf_cache this →
  childrenGet k (_children (add this style).1)
  = if decide (nodeId style = k) then Some (storedAfterAdd this style)
    else childrenGet k (_children this).
Proof.
  intros Hwf. rewrite add_unfold. unfold addWith, storedAfterAdd.
  case_bool_decide as Hcount.
  - assert (childrenGet (nodeId style) (_children this) = None) as ->.
    { apply eq_None_not_Some. rewrite <- wf_keys_children by done.
      rewrite wf_keys_counter by done. lia. }
    fields. rewrite nodeId_setCache, childrenGet_set, clone_setCache. done.
  - assert (nodeId style ∈ _keys this) as Hin.
    { rewrite wf_keys_counter by done. lia. }
    pose proof Hin as [item Hitem]%(wf_keys_children _ _ Hwf).
    rewrite Hitem.
    destruct (asCache item) as [ic|] eqn:Hic;
      [destruct (asCache style) as [sc|] eqn:Hsc|].
    + case_bool_decide; fields; by rewrite childrenGet_set.
    + fields. case_decide; by subst.
    + fields. case_decide; by subst.
Qed.

Lemma Node_values_ind (P : Node → Prop) :
  (∀ style, (∀ sc, asCache style = Some sc → Forall P (values sc)) → P style) →
  ∀ n, P n.
Proof.
  intros H n.
  induction n as [s i|s i c IH|r s i c IH] using Node_children_ind;
    apply H; simpl; intros sc Hsc; simplify_eq; by apply Forall_values.
Qed.

Lemma foldl_add_wf ns c :
  wf_cache c → wf_cache (foldl (λ t n, (add t n).1) c ns).
Proof.
  intros Hwf. apply foldl_wf; [|done].
  apply Forall_forall. intros n _ t. apply add_wf.
Qed.

Lemma absorbed_foldl child ns c :
  (∀ this other, wf_cache this → absorbed this child →
                 absorbed (add this other).1 child) →
  wf_cache c → absorbed c child →
  absorbed (foldl (λ t n, (add t n).1) c ns) child.
Proof.
  intros Hchild. revert c.
  induction ns as [|n ns IH]; intros c Hwf Habs; simpl; [done|].
  apply IH; [by apply add_wf|by apply Hchild].
Qed.

(** Adding further nodes keeps a node absorbed. *)
Lemma absorbed_add style :
  ∀ this other, wf_cache this → absorbed this style →
                absorbed (add this other).1 style.
Proof.
  induction style as [style IH] using Node_values_ind.
  intros this other Hwf Habs.
  inversion Habs as [? ? item Hc Hitem Hkids]; subst.
  destruct (decide (nodeId other = nodeId style)) as [Heq|Hne].
  2:{ apply absorbed_intro with item; [| |done].
      - rewrite add_counter, decide_False; done.
      - rewrite add_children, decide_False; done. }
  assert (childrenGet (nodeId style) (_children (add this other).1)
          = Some (storedAfterAdd this other)) as Hstored.
  { rewrite add_children, decide_True; done. }
  assert ((0 < counter (add this other).1 (nodeId style))%nat) as Hc'.
  { rewrite add_counter. case_decide; lia. }
  unfold storedAfterAdd in Hstored. rewrite Heq, Hitem in Hstored.
  destruct (asCache item) as [ic|] eqn:Hic;
    [destruct (asCache other) as [oc|] eqn:Hoc|]; simpl in Hstored.
  2,3: by apply absorbed_intro with item; [done|done|rewrite Hic].
  eapply absorbed_intro; [done|exact Hstored|].
  intros ic' sc Hic' Hsc.
  rewrite (asCache_setCache _ ic) in Hic' by done. injection Hic' as <-.
  specialize (Hkids ic sc eq_refl Hsc). specialize (IH sc Hsc).
  unfold mergeNode. rewrite Hoc. unfold merge.
  assert (wf_cache ic) as Hwfic.
  { destruct (wf_child _ _ _ Hwf Hitem) as [_ Hn]. by eapply wf_node_asCache. }
  rewrite Forall_forall in Hkids, IH. apply Forall_forall. intros child Hin.
  apply absorbed_foldl; auto.
Qed.

(** [this.add(style)] absorbs [style]. *)
Lemma add_absorbed style : ∀ this, wf_cache this → absorbed (add this style).1 style.
Proof.
  induction style as [style IH] using Node_values_ind.
  intros this Hwf.
  assert (∀ t sc, wf_cache t → asCache style = Some sc →
            Forall (absorbed (merge t sc)) (values sc)) as Hmerge.
  { intros t sc Ht Hsc. specialize (IH sc Hsc). unfold merge.
    revert t Ht. induction (values sc) as [|n ns IHns] using rev_ind; intros t Ht.
    - constructor.
    - apply Forall_app in IH as [IH1 IH2]. rewrite Forall_singleton in IH2.
      rewrite foldl_snoc. apply Forall_app. split.
      + specialize (IHns IH1 t Ht). rewrite Forall_forall in IHns.
        apply Forall_forall. intros m Hm.
        apply absorbed_add; [by apply foldl_add_wf|by apply IHns].
      + apply Forall_singleton. apply IH2. by apply foldl_add_wf. }
  eapply absorbed_intro.
  - rewrite add_counter, decide_True by done. lia.
  - rewrite add_children, decide_True by done. done.
  - intros ic' sc Hic' Hsc. unfold storedAfterAdd in Hic'.
    destruct (childrenGet (nodeId style) (_children this)) as [item|] eqn:Hitem.
    + destruct (asCache item) as [ic|] eqn:Hic; [|congruence].
      rewrite Hsc in Hic'.
      rewrite (asCache_setCache _ ic) in Hic' by done. injection Hic' as <-.
      unfold mergeNode. rewrite Hsc. apply Hmerge; [|done].
      destruct (wf_child _ _ _ Hwf Hitem) as [_ Hn]. by eapply wf_node_asCache.
    + rewrite clone_setCache, (asCache_setCache _ sc) in Hic' by done.
      injection Hic' as <-. unfold mergeNode. rewrite Hsc.
      apply Hmerge; [apply wf_emptyCache|done].
Qed.

(** Adding an absorbed node changes nothing but counters: no notification
    is sent and the change counter stays. *)
Lemma add_absorbed_unchanged style :
  ∀ this, wf_cache this → absorbed this style →
          (add this style).2 = [] ∧ changeId (add this style).1 = changeId this.
Proof.
  induction style as [style IH] using Node_values_ind.
  intros this Hwf Habs.
  inversion Habs as [? ? item Hc Hitem Hkids]; subst.
  rewrite add_unfold. unfold addWith.
  rewrite bool_decide_eq_false_2 by lia. rewrite Hitem.
  destruct (asCache item) as [ic|] eqn:Hic; [|done].
  destruct (asCache style) as [sc|] eqn:Hsc; [|done].
  assert (changeId (mergeNode style ic) = changeId ic) as Hsame.
  { unfold mergeNode. rewrite Hsc. unfold merge.
    specialize (Hkids ic sc eq_refl eq_refl). specialize (IH sc eq_refl).
    assert (wf_cache ic) as Hwfic.
    { destruct (wf_child _ _ _ Hwf Hitem) as [_ Hn]. by eapply wf_node_asCache. }
    clear Hitem Hic Hsc. revert ic Hwfic Hkids.
    induction (values sc) as [|n ns IHns]; intros ic Hwfic Hkids; simpl; [done|].
    apply Forall_cons in IH as [IHn IH]. apply Forall_cons in Hkids as [Hn Hkids].
    destruct (IHn ic Hwfic Hn) as [_ Hch].
    rewrite IHns; [done|done|by apply add_wf|].
    rewrite Forall_forall in Hkids. apply Forall_forall. intros m Hm.
    apply absorbed_add; auto. }
  by rewrite bool_decide_eq_false_2 by (intros ?; done).
Qed.

Lemma addAll_fst this styles :
  (addAll this styles).1 = foldl (λ t n, (add t n).1) this styles.
Proof.
  induction styles as [|n styles IH] using rev_ind; [done|].
  by rewrite addAll_snoc, foldl_snoc, <- IH.
Qed.

Lemma addAll_absorbed_mono this styles n :
  wf_cache this → absorbed this n → absorbed (addAll this styles).1 n.
Proof.
  intros Hwf Habs. rewrite addAll_fst.
  apply absorbed_foldl; [|done..]. intros. by apply absorbed_add.
Qed.

Lemma addAll_absorbed this styles :
  wf_cache this → Forall (absorbed (addAll this styles).1) styles.
Proof.
  intros Hwf. induction styles as [|n styles IH] using rev_ind; [constructor|].
  rewrite addAll_snoc. cbn [fst]. apply Forall_app. split.
  - rewrite Forall_forall in IH. apply Forall_forall. intros m Hm.
    apply absorbed_add; [by apply addAll_wf|by apply IH].
  - apply Forall_singleton, add_absorbed. by apply addAll_wf.
Qed.

Lemma addAll_unchanged this styles :
  wf_cache this → Forall (absorbed this) styles →
  (addAll this styles).2 = [] ∧
  changeId (addAll this styles).1 = changeId this ∧
  sheet (addAll this styles).1 = sheet this ∧
  _keys (addAll this styles).1 = _keys this.
Proof.
  intros Hwf. induction styles as [|n styles IH] using rev_ind; intros Hall; [done|].
  apply Forall_app in Hall as [Hall Hn]. rewrite Forall_singleton in Hn.
  destruct (IH Hall) as (Hev & Hch & Hsh & Hk).
  rewrite addAll_snoc. cbn [fst snd].
  destruct (add_absorbed_unchanged n (addAll this styles).1) as [Hev' Hch'].
  { by apply addAll_wf. }
  { by apply addAll_absorbed_mono. }
  destruct (add_changeId_same _ _ Hch') as [Hsh' Hk'].
  rewrite Hev, Hev', Hch', Hsh', Hk'. done.
Qed.

Lemma addAll_counter_occurrences this styles k :
  counter (addAll this styles).1 k = (counter this k + occurrences k styles)%nat.
Proof.
  unfold occurrences.
  induction styles as [|n styles IH] using rev_ind; [simpl; lia|].
  rewrite addAll_snoc. cbn [fst]. rewrite add_counter, IH, filter_app, length_app.
  rewrite filter_cons, filter_nil. case_decide; simpl; lia.
Qed.

(** Adding the same nodes a second time changes nothing but counters. *)
Lemma addAll_twice this styles :
  wf_cache this →
  let c1 := (addAll this styles).1 in
  (addAll c1 styles).2 = [] ∧
  changeId (addAll c1 styles).1 = changeId c1 ∧
  sheet (addAll c1 styles).1 = sheet c1 ∧
  _keys (addAll c1 styles).1 = _keys c1 ∧
  ∀ k, (counter (addAll c1 styles).1 k + counter this k = 2 * counter c1 k)%nat.
Proof.
  intros Hwf c1.
  destruct (addAll_unchanged c1 styles) as (Hev & Hch & Hsh & Hk).
  { by apply addAll_wf. }
  { by apply addAll_absorbed. }
  repeat split; try done.
  intros k. unfold c1. rewrite !addAll_counter_occurrences. lia.
Qed.

(** ** [composeStylize] adds the nodes of [composeItems] *)

Lemma composeStyles_items pid className isStyle cache stylesList st :
  composeStyles pid className isStyle stylesList (composed cache st)
  = composed cache (styleItems pid className isStyle stylesList st).
Proof.
  unfold composeStyles, styleItems. revert st.
  induction stylesList as [|s sl IH]; intros [items uid]; cbn [foldl]; [done|].
  rewrite <- IH. f_equal. unfold composed at 1, composeStyle. cbn [fst snd].
  destruct (styleItem pid className isStyle s uid) as [item uid'].
  unfold composed. cbn [fst snd]. rewrite addAll_snoc. cbn [fst snd].
  by destruct (add (addAll cache items).1 item).
Qed.

Lemma composeRules_items pid className isStyle cache rulesList st :
  foldl (composeRuleInto pid className isStyle) (composed cache st) rulesList
  = composed cache (ruleItems pid className isStyle rulesList st).
Proof.
  unfold ruleItems. revert st.
  induction rulesList as [|r rl IH]; intros [items uid]; cbn [foldl]; [done|].
  rewrite <- IH. f_equal. unfold composed at 1, composeRuleInto. cbn [fst snd].
  destruct (composeRule pid className isStyle r uid) as [item uid'].
  unfold composed. cbn [fst snd]. rewrite addAll_snoc. cbn [fst snd].
  by destruct (add (addAll cache items).1 item).
Qed.

Lemma composeStylize_items cache pid rulesList stylesList className isStyle uid :
  composeStylize cache pid rulesList stylesList className isStyle uid
  = composed cache (composeItems pid className isStyle rulesList stylesList uid).
Proof.
  unfold composeStylize, composeItems.
  change (cache, uid, []) with (composed cache ([], uid)).
  by rewrite composeStyles_items, composeRules_items.
Qed.

(* ================================================================== *)
(** * Style trees without the [$unique] flag *)
(* ================================================================== *)

Lemma StylizeRule_rules_ind (P : StylizeRule → Prop) :
  (∀ r, Forall P (sr_rules r) → P r) → ∀ r, P r.
Proof.
  intros H. fix IH 1. intros [sel sty rules styles]. apply H. simpl.
  induction rules as [|r rules IHrules]; constructor; [apply IH|apply IHrules].
Qed.

Lemma noUniqueRule_unfold r :
  noUniqueRule r = noUnique (sr_rules r) (sr_styles r).
Proof.
  destruct r as [sel sty rules styles]. reflexivity.
Qed.

Lemma uniqueFree_cons k v (styles : Styles) :
  uniqueFree ((k, v) :: styles) = true →
  uniqueFreeValue v = true ∧
  (fix all (es : list (string * StyleValue)) : bool :=
     match es with
     | [] => true
     | (_, v') :: rest => uniqueFreeValue v' && all rest
     end) styles = true.
Proof.
  unfold uniqueFree. simpl. intros [_ H]%andb_true_iff.
  by apply andb_true_iff in H.
Qed.

Lemma uniqueFree_elem (styles : Styles) k sub :
  uniqueFree styles = true → (k, VStyles sub) ∈ styles → uniqueFree sub = true.
Proof.
  unfold uniqueFree at 1. simpl. intros [_ Hall]%andb_true_iff.
  induction styles as [|[k' v'] styles IH]; intros Hin.
  - by apply elem_of_nil in Hin.
  - apply andb_true_iff in Hall as [Hv Hall].
    apply elem_of_cons in Hin as [[= <- <-]|Hin]; [done|]. by apply IH.
Qed.

Lemma uniqueFree_isUnique (styles : Styles) b :
  uniqueFree styles = true → p_isUnique (parseStyles styles b) = false.
Proof.
  unfold uniqueFree. simpl. intros [H _]%andb_true_iff.
  by apply negb_true_iff in H.
Qed.

Lemma parseNested_elem (styles : Styles) name sub :
  (name, sub) ∈ parseNested styles → ∃ k, (k, VStyles sub) ∈ styles.
Proof.
  induction styles as [|[k v] styles IH]; simpl.
  - by intros ?%elem_of_nil.
  - assert ((name, sub) ∈ parseNested styles →
            ∃ k0, (k0, VStyles sub) ∈ (k, v) :: styles) as IH'.
    { intros [k0 Hk0]%IH. exists k0. by right. }
    destruct (negb _); [|done].
    destruct v; try done.
    intros [Heq|Hin]%elem_of_cons; [|auto].
    injection Heq as -> ->. exists k. by left.
Qed.

Lemma p_nested_uniqueFree (styles : Styles) b name sub :
  uniqueFree styles = true → (name, sub) ∈ p_nested (parseStyles styles b) →
  uniqueFree sub = true.
Proof.
  intros Hu Hin.
  assert ((name, sub) ∈ parseNested styles) as [k Hk]%parseNested_elem.
  { revert Hin. unfold parseStyles; simpl. destruct b; [done|].
    by rewrite elem_of_sortTuples. }
  by eapply uniqueFree_elem.
Qed.

Lemma noUnique_snoc_style rl sl s :
  noUnique rl sl = true → ss_isUnique s = false → noUnique rl (sl ++ [s]) = true.
Proof.
  unfold noUnique. rewrite forallb_app. simpl.
  intros [-> ->]%andb_true_iff ->. done.
Qed.

Lemma noUnique_snoc_rule rl sl r :
  noUnique rl sl = true → noUniqueRule r = true → noUnique (rl ++ [r]) sl = true.
Proof.
  unfold noUnique. rewrite forallb_app. simpl.
  intros [-> ->]%andb_true_iff ->. done.
Qed.

Lemma foldl_stylizeNested_noUnique rec parent (nested : list (string * Styles)) st :
  (∀ name sub, (name, sub) ∈ nested → ∀ rl sl p,
     noUnique rl sl = true →
     noUnique (rec name sub rl sl p).1.2 (rec name sub rl sl p).2 = true) →
  noUnique st.1.2 st.2 = true →
  noUnique (foldl (stylizeNested rec parent) st nested).1.2
           (foldl (stylizeNested rec parent) st nested).2 = true.
Proof.
  revert st. induction nested as [|[name sub] nested IH]; intros st Hrec Hst;
    cbn [foldl]; [done|].
  apply IH.
  - intros ?? Hin. apply Hrec. by right.
  - unfold stylizeNested. destruct st as [[pid rl] sl]. cbn [fst snd] in *.
    specialize (Hrec name sub (list_elem_of_here _ _) rl sl parent Hst).
    by destruct (rec name sub rl sl parent) as [[sub' rl'] sl'].
Qed.

Lemma stylizeFuel_noUnique fuel selector styles rulesList stylesList parent :
  uniqueFree styles = true → noUnique rulesList stylesList = true →
  noUnique (stylizeFuel fuel selector styles rulesList stylesList parent).1.2
           (stylizeFuel fuel selector styles rulesList stylesList parent).2 = true.
Proof.
  revert selector styles rulesList stylesList parent.
  induction fuel as [|fuel IH]; intros selector styles rl sl parent Hu Hacc; [done|].
  cbn [stylizeFuel]. unfold stylizeBody.
  rewrite (uniqueFree_isUnique styles _ Hu).
  set (parsed := parseStyles styles (negb (String.eqb selector ""))).
  assert (∀ name sub, (name, sub) ∈ p_nested parsed → ∀ rl sl p,
            noUnique rl sl = true →
            noUnique (stylizeFuel fuel name sub rl sl p).1.2
                     (stylizeFuel fuel name sub rl sl p).2 = true) as Hrec.
  { intros name sub Hin rl' sl' p Hacc'. apply IH; [|done].
    by eapply p_nested_uniqueFree. }
  case_bool_decide.
  - match goal with
    | |- context [foldl ?f ?st ?l] =>
        pose proof (foldl_stylizeNested_noUnique (stylizeFuel fuel) parent l st Hrec) as Hfold;
        destruct (foldl f st l) as [[pid childRules] childStyles]
    end.
    cbn [fst snd] in *. apply noUnique_snoc_rule; [done|].
    rewrite noUniqueRule_unfold. cbn [sr_rules sr_styles]. apply Hfold.
    unfold noUnique. simpl. rewrite andb_true_r.
    destruct parent as [p|]; [|done]. by destruct (_ && _).
  - apply foldl_stylizeNested_noUnique; [done|]. cbn [fst snd].
    destruct (stringTruthy (p_style parsed)); [|done].
    by apply noUnique_snoc_style.
Qed.

Lemma stylize_noUnique selector styles parent :
  uniqueFree styles = true →
  noUnique (stylize selector styles [] [] parent).1.2
           (stylize selector styles [] [] parent).2 = true.
Proof. intros Hu. by apply stylizeFuel_noUnique. Qed.

(** ** Without the flag, the nodes do not depend on [uniqueId] *)

Lemma composeRule_loop pid className isStyle rules c uid log :
  (fix loop (rules : list StylizeRule) (st : Cache * N) : Cache * N :=
     match rules with
     | [] => st
     | r' :: rest =>
         let '(item, uid') := composeRule pid className isStyle r' st.2 in
         loop rest ((add st.1 item).1, uid')
     end) rules (c, uid)
  = (foldl (composeRuleInto pid className isStyle) (c, uid, log) rules).1.
Proof.
  revert c uid log. induction rules as [|r rules IH]; intros c uid log; [done|].
  cbn [foldl]. unfold composeRuleInto at 2. cbn [fst snd].
  destruct (composeRule pid className isStyle r uid) as [item uid'].
  destruct (add c item) as [c' changes] eqn:Hadd.
  replace c' with (add c item).1 by (by rewrite Hadd).
  apply IH.
Qed.

(** The defining equation of [composeRule]: the rule is filled by the
    recursive call of [composeStylize]. *)
Lemma composeRule_unfold pid className isStyle r uid :
  composeRule pid className isStyle r uid
  = let res := composeStylize emptyCache pid (sr_rules r) (sr_styles r)
                 className isStyle uid in
    (Rule (sr_selector r) (sr_style r)
       ("r" +:+ NUL +:+ pid +:+ NUL +:+ sr_selector r +:+ NUL +:+ sr_style r)
       res.1.1,
     res.1.2).
Proof.
  destruct r as [sel sty rules styles]. cbn [composeRule sr_rules sr_styles sr_selector sr_style].
  unfold composeStylize.
  destruct (composeStyles pid className isStyle styles (emptyCache, uid, []))
    as [[c1 uid1] log1].
  rewrite (composeRule_loop _ _ _ _ _ _ log1).
  by destruct (foldl _ _ rules) as [[c2 uid2] log2].
Qed.

Lemma styleItems_noUnique pid className isStyle stylesList items uid :
  forallb (λ s, negb (ss_isUnique s)) stylesList = true →
  styleItems pid className isStyle stylesList (items, uid)
  = ((styleItems pid className isStyle stylesList (items, 0%N)).1, uid).
Proof.
  unfold styleItems. revert items.
  induction stylesList as [|s sl IH]; intros items Hall; [done|].
  cbn [forallb] in Hall. apply andb_true_iff in Hall as [Hs Hall].
  apply negb_true_iff in Hs.
  cbn [foldl]. unfold styleItem. rewrite Hs. by apply IH.
Qed.

Lemma ruleItems_noUnique pid className isStyle rulesList items uid :
  Forall (λ r, ∀ uid, composeRule pid className isStyle r uid
                      = ((composeRule pid className isStyle r 0%N).1, uid))
         rulesList →
  ruleItems pid className isStyle rulesList (items, uid)
  = ((ruleItems pid className isStyle rulesList (items, 0%N)).1, uid).
Proof.
  unfold ruleItems. revert items.
  induction rulesList as [|r rl IH]; intros items Hall; [done|].
  apply Forall_cons in Hall as [Hr Hall].
  cbn [foldl]. rewrite (Hr uid).
  destruct (composeRule pid className isStyle r 0%N) as [item uid'] eqn:Hitem.
  cbn [fst].
  assert (uid' = 0%N) as ->.
  { specialize (Hr 0%N). rewrite Hitem in Hr. by injection Hr. }
  by apply IH.
Qed.

Lemma composeItems_noUnique_gen pid className isStyle rulesList stylesList uid :
  forallb (λ s, negb (ss_isUnique s)) stylesList = true →
  Forall (λ r, ∀ uid, composeRule pid className isStyle r uid
                      = ((composeRule pid className isStyle r 0%N).1, uid))
         rulesList →
  composeItems pid className isStyle rulesList stylesList uid
  = ((composeItems pid className isStyle rulesList stylesList 0%N).1, uid).
Proof.
  intros Hstyles Hrules. unfold composeItems.
  rewrite (styleItems_noUnique _ _ _ _ _ uid) by done.
  pose proof (styleItems_noUnique pid className isStyle stylesList [] 0%N Hstyles) as E.
  destruct (styleItems pid className isStyle stylesList ([], 0%N)) as [items u0].
  cbn [fst] in *. injection E as ->.
  by apply ruleItems_noUnique.
Qed.

Lemma composeRule_noUnique pid className isStyle r :
  noUniqueRule r = true →
  ∀ uid, composeRule pid className isStyle r uid
         = ((composeRule pid className isStyle r 0%N).1, uid).
Proof.
  induction r as [r IH] using StylizeRule_rules_ind.
  rewrite noUniqueRule_unfold. unfold noUnique.
  intros [Hstyles Hrules]%andb_true_iff uid.
  assert (Forall (λ r, ∀ uid, composeRule pid className isStyle r uid
                       = ((composeRule pid className isStyle r 0%N).1, uid))
                 (sr_rules r)) as Hall.
  { rewrite Forall_forall in IH. apply Forall_forall. intros r' Hr'.
    apply IH; [done|]. rewrite forallb_forall in Hrules.
    apply Hrules. by apply list_elem_of_In. }
  rewrite !composeRule_unfold, !composeStylize_items. unfold composed.
  cbn [fst snd].
  by rewrite (composeItems_noUnique_gen _ _ _ _ _ uid).
Qed.

Lemma composeItems_noUnique pid className isStyle rulesList stylesList uid :
  noUnique rulesList stylesList = true →
  composeItems pid className isStyle rulesList stylesList uid
  = ((composeItems pid className isStyle rulesList stylesList 0%N).1, uid).
Proof.
  unfold noUnique. intros [Hstyles Hrules]%andb_true_iff.
  apply composeItems_noUnique_gen; [done|].
  apply Forall_forall. intros r Hr. apply composeRule_noUnique.
  rewrite forallb_forall in Hrules. apply Hrules. by apply list_elem_of_In.
Qed.

(* ================================================================== *)
(** * Further properties of the registration entry points *)
(* ================================================================== *)

(** X1: registering a style tree in which no node sets [$unique] a second
    time returns the same id, sends no notification, leaves [uniqueId], the
    order list, the text list, the change counter and the stylesheet text
    as they were after the first registration, and raises every counter by
    as much as the first registration did. *)
Theorem registerStyle_twice (production : bool) (styles : Styles) (st : State) :
  reachable (freeStyle st) →
  uniqueFree styles = true →
  let r1 := registerStyle production styles st in
  let r2 := registerStyle production styles r1.1.2 in
  r2.1.1 = r1.1.1 ∧
  r2.2 = [] ∧
  uniqueId r2.1.2 = uniqueId st ∧
  _keys (freeStyle r2.1.2) = _keys (freeStyle r1.1.2) ∧
  sheet (freeStyle r2.1.2) = sheet (freeStyle r1.1.2) ∧
  changeId (freeStyle r2.1.2) = changeId (freeStyle r1.1.2) ∧
  getStylesheet r2.1.2 = getStylesheet r1.1.2 ∧
  ∀ k, (counter (freeStyle r2.1.2) k + counter (freeStyle st) k
        = 2 * counter (freeStyle r1.1.2) k)%nat.
Proof.
  intros Hwf%reachable_wf Hu. unfold registerStyle.
  pose proof (stylize_noUnique "&" styles None Hu) as Hno.
  destruct (stylize "&" styles [] [] None) as [[pid rl] sl]. cbn [fst snd] in Hno.
  rewrite !composeStylize_items.
  set (className := "." +:+ _).
  rewrite (composeItems_noUnique _ _ _ _ _ (uniqueId st)) by done.
  unfold composed. cbn [fst snd uniqueId freeStyle].
  rewrite (composeItems_noUnique _ _ _ _ _ (uniqueId st)) by done.
  cbn [fst snd].
  set (items := (composeItems pid className true rl sl 0%N).1).
  destruct (addAll_twice (freeStyle st) items Hwf) as (Hev & Hch & Hsh & Hk & Hcnt).
  unfold getStylesheet. cbn [freeStyle]. rewrite Hsh.
  repeat split; done.
Qed.

Lemma registerStyle_twice_witness :
  let styles := [("color", red); ("&:hover", VStyles [("color", blue)])] in
  reachable (freeStyle (create 0)) ∧ uniqueFree styles = true ∧
  (registerStyle true styles (registerStyle true styles (create 0)).1.2).2 = [].
Proof.
  intros styles. split; [apply reachable_new|]. split; [reflexivity|].
  exact (proj1 (proj2 (registerStyle_twice true styles (create 0)
                         reachable_new eq_refl))).
Defined.

(* ================================================================== *)
(** * Further properties of the cache *)
(* ================================================================== *)

(** X2: in every cache built by [add] and [remove], the ids of the order
    list are pairwise distinct; an id is in the order list exactly when its
    counter is positive and exactly when a child is stored for it; a stored
    child carries the id it is stored under; and no counter is stored as
    zero. *)
Theorem reachable_bookkeeping (c : Cache) :
  reachable c →
  NoDup (_keys c) ∧
  (∀ k, k ∈ _keys c ↔ (0 < counter c k)%nat) ∧
  (∀ k, k ∈ _keys c ↔ is_Some (childrenGet k (_children c))) ∧
  (∀ k n, childrenGet k (_children c) = Some n → nodeId n = k) ∧
  (∀ k, _counters c !! k ≠ Some O).
Proof.
  intros Hwf%reachable_wf. destruct Hwf as [c Hnd Hcnt Hnz Hch Hchild Hal].
  repeat split; try done; try apply Hcnt; try apply Hch.
  intros k n Hget. by destruct (Hchild k n Hget).
Qed.

Lemma reachable_bookkeeping_witness :
  let c := (add (add emptyCache (Selector ".a" "k1")).1 (Selector ".a" "k1")).1 in
  reachable c ∧ NoDup (_keys c).
Proof.
  intros c.
  assert (reachable c) as Hr by apply reachable_add, reachable_add, reachable_new.
  split; [exact Hr|]. exact (proj1 (reachable_bookkeeping c Hr)).
Defined.

(** X3: counters count calls.  [add] raises the counter of the id of its
    argument by one and [remove] lowers it by one, stopping at zero; the
    counters of all other ids are left alone.  So after any calls of [add]
    and [remove] with nodes of one id on a cache, the counter of that id is
    the number of [add] calls minus the number of [remove] calls, as long as
    no more nodes are removed than were added. *)
Theorem counter_counts_calls (c : Cache) (n : Node) (k : string) (adds rems : list Node) :
  counter (add c n).1 k
  = (if decide (nodeId n = k) then S (counter c k) else counter c k) ∧
  counter (remove c n).1 k
  = (if decide (nodeId n = k) then pred (counter c k) else counter c k) ∧
  (Forall (λ m, nodeId m = k) adds → Forall (λ m, nodeId m = k) rems →
   counter (removeAll (addAll c adds).1 rems).1 k
   = (counter c k + length adds - length rems)%nat).
Proof.
  split; [apply add_counter|]. split; [apply remove_counter|].
  intros Ha Hr. rewrite removeAll_counter, addAll_counter by done. done.
Qed.

Lemma counter_counts_calls_witness :
  let n := Selector ".a" "k1" in
  Forall (λ m, nodeId m = "k1") [n; n; n] ∧ Forall (λ m, nodeId m = "k1") [n] ∧
  counter (removeAll (addAll emptyCache [n; n; n]).1 [n]).1 "k1"
  = (counter emptyCache "k1" + length [n; n; n] - length [n])%nat.
Proof.
  intros n.
  assert (Forall (λ m, nodeId m = "k1") [n; n; n]) as H3 by (repeat constructor).
  assert (Forall (λ m, nodeId m = "k1") [n]) as H1 by (repeat constructor).
  split; [exact H3|]. split; [exact H1|].
  exact (proj2 (proj2 (counter_counts_calls emptyCache n "k1" [n; n; n] [n])) H3 H1).
Defined.

Lemma addWith_changeId_events m this style :
  changeId (addWith m this style).1
  = (changeId this + length (addWith m this style).2)%nat.
Proof. unfold addWith. repeat case_match; simpl; lia. Qed.

Lemma removeWith_changeId_events m this style :
  changeId (removeWith m this style).1
  = (changeId this + length (removeWith m this style).2)%nat.
Proof. unfold removeWith. repeat case_match; simpl; lia. Qed.

Lemma addWith_events_le m this style : (length (addWith m this style).2 ≤ 1)%nat.
Proof. unfold addWith. repeat case_match; simpl; lia. Qed.

Lemma removeWith_events_le m this style : (length (removeWith m this style).2 ≤ 1)%nat.
Proof. unfold removeWith. repeat case_match; simpl; lia. Qed.

(** X4: the change counter moves in step with the notifications.  A call
    of [add] or [remove] sends at most one notification and raises
    [changeId] by the number of notifications it sends; when it sends none,
    the order list and the text list are unchanged. *)
Theorem changeId_counts_notifications (c : Cache) (n : Node) :
  changeId (add c n).1 = (changeId c + length (add c n).2)%nat ∧
  (length (add c n).2 ≤ 1)%nat ∧
  ((add c n).2 = [] → sheet (add c n).1 = sheet c ∧ _keys (add c n).1 = _keys c) ∧
  changeId (remove c n).1 = (changeId c + length (remove c n).2)%nat ∧
  (length (remove c n).2 ≤ 1)%nat ∧
  ((remove c n).2 = [] →
   sheet (remove c n).1 = sheet c ∧ _keys (remove c n).1 = _keys c).
Proof.
  pose proof (add_changeId_same c n) as Ha.
  pose proof (remove_changeId_same c n) as Hr.
  rewrite add_unfold in *. rewrite remove_unfold in *.
  pose proof (addWith_changeId_events (mergeNode n) c n) as Hae.
  pose proof (removeWith_changeId_events (unmergeNode n) c n) as Hre.
  split; [done|]. split; [apply addWith_events_le|].
  split; [intros H0; apply Ha; rewrite Hae, H0; simpl; lia|].
  split; [done|]. split; [apply removeWith_events_le|].
  intros H0. apply Hr. rewrite Hre, H0. simpl. lia.
Qed.

Lemma changeId_counts_notifications_witness :
  let c := (add emptyCache (Selector ".a" "k1")).1 in
  let n := Selector ".a" "k1" in
  (add c n).2 = [] ∧ sheet (add c n).1 = sheet c.
Proof.
  intros c n. split; [reflexivity|].
  exact (proj1 (proj1 (proj2 (proj2 (changeId_counts_notifications c n))) eq_refl)).
Defined.

(** ** Adding an unseen id, and removing it again *)

Lemma join_snoc arr x : join (arr ++ [x]) = join arr +:+ x.
Proof. unfold join. by rewrite foldl_snoc. Qed.

Lemma indexOfFrom_snoc_fresh keys id i0 :
  id ∉ keys → indexOfFrom i0 id (keys ++ [id]) = i0 + Z.of_nat (length keys).
Proof.
  revert i0. induction keys as [|k keys IH]; intros i0 Hnotin; simpl.
  - rewrite String.eqb_refl. lia.
  - apply not_elem_of_cons in Hnotin as [Hne Hnotin].
    destruct (String.eqb_spec k id) as [->|_]; [done|].
    rewrite IH by done. lia.
Qed.

Lemma indexOf_snoc_fresh keys id :
  id ∉ keys → indexOf (keys ++ [id]) id = Z.of_nat (length keys).
Proof. intros H. unfold indexOf. by rewrite indexOfFrom_snoc_fresh. Qed.

Lemma childrenDelete_absent k children :
  childrenGet k children = None → childrenDelete k children = children.
Proof.
  unfold childrenDelete.
  induction children as [|[k' n'] rest IH]; simpl; [done|].
  destruct (String.eqb_spec k' k) as [->|Hne]; [done|].
  intros H. rewrite filter_cons. simpl. rewrite decide_True by done.
  by rewrite IH.
Qed.

Lemma childrenDelete_set k n children :
  childrenDelete k (childrenSet k n children) = childrenDelete k children.
Proof.
  unfold childrenSet, childrenDelete. rewrite filter_cons. simpl.
  rewrite decide_False by (intros H; by apply H).
  rewrite list_filter_filter. apply list_filter_iff. intros [k' n']. simpl. tauto.
Qed.

Lemma wf_counter_zero c k : wf_cache c → counter c k = O → _counters c !! k = None.
Proof.
  intros Hwf Hz. destruct Hwf as [c _ _ Hnz _ _ _]. specialize (Hnz k).
  unfold counter in Hz. destruct (_counters c !! k) as [[|m]|]; simpl in *; done.
Qed.

(** The result of [add] for an id that has no counter. *)
Lemma add_fresh this style :
  wf_cache this → counter this (nodeId style) = O →
  add this style
  = ({| sheet := sheet this ++ [getStyles (clone style)];
        changeId := S (changeId this);
        _keys := _keys this ++ [nodeId style];
        _children := childrenSet (nodeId style) (clone style) (_children this);
        _counters := <[nodeId style := 1%nat]> (_counters this) |},
     [Added (clone style) (Z.of_nat (length (_keys this)))]).
Proof.
  intros Hwf Hz. rewrite add_unfold. unfold addWith.
  rewrite Hz. rewrite bool_decide_eq_true_2 by done.
  assert (childrenGet (nodeId style) (_children this) = None) as ->.
  { apply eq_None_not_Some. rewrite <- wf_keys_children by done.
    rewrite wf_keys_counter by done. lia. }
  rewrite <- clone_setCache.
  assert (nodeId (clone style) = nodeId style) as -> by (by destruct style).
  do 3 f_equal. rewrite length_app. simpl. lia.
Qed.

(** X5: adding a node whose id has no counter appends: the id goes to the
    end of the order list, the text of a clone of the node goes to the end
    of the text list and of the stylesheet text, the counter becomes one,
    and the single notification is [add] with the last index. *)
Theorem add_unseen_appends (c : Cache) (n : Node) :
  reachable c → counter c (nodeId n) = O →
  _keys (add c n).1 = _keys c ++ [nodeId n] ∧
  sheet (add c n).1 = sheet c ++ [getStyles (clone n)] ∧
  join (sheet (add c n).1) = join (sheet c) +:+ getStyles (clone n) ∧
  childrenGet (nodeId n) (_children (add c n).1) = Some (clone n) ∧
  counter (add c n).1 (nodeId n) = 1%nat ∧
  (add c n).2 = [Added (clone n) (Z.of_nat (length (_keys c)))].
Proof.
  intros Hwf%reachable_wf Hz. rewrite add_fresh by done. fields.
  rewrite join_snoc, childrenGet_set, decide_True by done.
  repeat split; try done.
  unfold counter. fields. by rewrite lookup_insert_eq.
Qed.

Lemma add_unseen_appends_witness :
  let n := Style "color:red" "s1" emptyCache in
  reachable emptyCache ∧ counter emptyCache (nodeId n) = O ∧
  sheet (add emptyCache n).1 = sheet emptyCache ++ [getStyles (clone n)].
Proof.
  intros n. split; [apply reachable_new|]. split; [reflexivity|].
  exact (proj1 (proj2 (add_unseen_appends emptyCache n reachable_new eq_refl))).
Defined.

(** The result of [remove] for an id whose counter is one. *)
Lemma remove_last_eq this style item (i : nat) :
  wf_cache this → counter this (nodeId style) = 1%nat →
  childrenGet (nodeId style) (_children this) = Some item →
  _keys this !! i = Some (nodeId style) →
  remove this style
  = ({| sheet := delete i (sheet this);
        changeId := S (changeId this);
        _keys := delete i (_keys this);
        _children := childrenDelete (nodeId style) (_children this);
        _counters := delete (nodeId style) (_counters this) |},
     [Removed item (Z.of_nat i)]).
Proof.
  intros Hwf Hone Hitem Hi.
  destruct (wf_child _ _ _ Hwf Hitem) as [Hid _].
  assert (nodeId style ∈ _keys this) as Hin by (by eapply list_elem_of_lookup_2).
  destruct (indexOf_lookup _ _ Hin) as (i0 & Hidx & Hi0).
  assert (i0 = i) as -> by (eapply NoDup_lookup; [by apply wf_NoDup|done..]).
  rewrite remove_unfold. unfold removeWith.
  rewrite bool_decide_eq_false_2 by lia.
  rewrite Hitem, Hid, Hidx, (bool_decide_eq_true_2 _ Hone).
  by rewrite !splice_delete, delete_insert_eq.
Qed.

(** X6: [remove] undoes [add] for an unseen id.  Adding a node whose id has
    no counter and removing it again restores the text list, the order
    list, the children and the counters; only [changeId] has moved, by two,
    and the [remove] notification carries the index the node was added
    at. *)
Theorem remove_undoes_add (c : Cache) (n : Node) :
  reachable c → counter c (nodeId n) = O →
  remove (add c n).1 n
  = ({| sheet := sheet c;
        changeId := S (S (changeId c));
        _keys := _keys c;
        _children := _children c;
        _counters := _counters c |},
     [Removed (clone n) (Z.of_nat (length (_keys c)))]).
Proof.
  intros Hwf%reachable_wf Hz.
  assert (nodeId n ∉ _keys c) as Hnotin.
  { rewrite wf_keys_counter by done. lia. }
  assert (childrenGet (nodeId n) (_children c) = None) as Hnone.
  { apply eq_None_not_Some. by rewrite <- wf_keys_children. }
  pose proof (add_wf c n Hwf) as Hwf1.
  pose proof (add_counter c n (nodeId n)) as Hc1.
  rewrite decide_True, Hz in Hc1 by done.
  revert Hwf1 Hc1. rewrite add_fresh by done. cbn [fst]. intros Hwf1 Hc1.
  rewrite (remove_last_eq _ n (clone n) (length (_keys c))); [|done|done|..]; fields.
  - destruct (wf_aligned _ Hwf) as [Hlen _].
    rewrite <- Hlen at 1. rewrite !delete_middle, !app_nil_r.
    rewrite childrenDelete_set, childrenDelete_absent by done.
    rewrite delete_insert_eq, delete_id by (by apply wf_counter_zero).
    done.
  - by rewrite childrenGet_set, decide_True.
  - rewrite lookup_app_r by lia. by rewrite Nat.sub_diag.
Qed.

Lemma remove_undoes_add_witness :
  let n := Style "color:red" "s1" emptyCache in
  reachable emptyCache ∧ counter emptyCache (nodeId n) = O ∧
  (remove (add emptyCache n).1 n).2
  = [Removed (clone n) (Z.of_nat (length (_keys emptyCache)))].
Proof.
  intros n. split; [apply reachable_new|]. split; [reflexivity|].
  exact (f_equal snd (remove_undoes_add emptyCache n reachable_new eq_refl)).
Defined.

(** ** Cloning *)

Lemma values_Forall2 (c : Cache) :
  wf_cache c →
  Forall2 (λ k n, childrenGet k (_children c) = Some n) (_keys c) (values c).
Proof.
  intros Hwf. unfold values.
  assert (∀ k, k ∈ _keys c → is_Some (childrenGet k (_children c))) as Hall.
  { intros k. by rewrite <- wf_keys_children. }
  induction (_keys c) as [|k ks IH]; simpl; [constructor|].
  destruct (Hall k) as [n Hn]; [by left|]. rewrite Hn. simpl.
  constructor; [done|]. apply IH. intros k' Hk'. apply Hall. by right.
Qed.

Lemma values_ids (c : Cache) : wf_cache c → nodeId <$> values c = _keys c.
Proof.
  intros Hwf. pose proof (values_Forall2 c Hwf) as H2.
  assert (∀ k n, childrenGet k (_children c) = Some n → nodeId n = k) as Hid.
  { intros k n Hkn. by destruct (wf_child _ _ _ Hwf Hkn). }
  revert H2. generalize (values c) (_keys c). intros ns ks H2.
  induction H2 as [|k n ks ns Hkn _ IH]; csimpl; [done|].
  by rewrite (Hid _ _ Hkn), IH.
Qed.

Lemma values_texts (c : Cache) : wf_cache c → getStyles <$> values c = sheet c.
Proof.
  intros Hwf. pose proof (values_Forall2 c Hwf) as H2.
  destruct (wf_aligned _ Hwf) as [Hlen Hal].
  apply list_eq. intros i. rewrite list_lookup_fmap.
  destruct (_keys c !! i) as [k|] eqn:Hk.
  - destruct (Forall2_lookup_l _ _ _ _ _ H2 Hk) as (n & Hn & Hget).
    destruct (Hal i k Hk) as (n' & Hget' & _ & Hsheet).
    rewrite Hn, Hsheet. simpl. congruence.
  - apply lookup_ge_None in Hk.
    rewrite (lookup_ge_None_2 (values c)), (lookup_ge_None_2 (sheet c)); [done|lia|].
    rewrite <- (Forall2_length _ _ _ H2). lia.
Qed.

(** Adding nodes with pairwise distinct ids to a new cache. *)
Lemma foldl_add_fresh (ns : list Node) :
  NoDup (nodeId <$> ns) →
  let c := foldl (λ t n, (add t n).1) emptyCache ns in
  _keys c = nodeId <$> ns ∧
  sheet c = (getStyles ∘ clone) <$> ns ∧
  changeId c = length ns ∧
  ∀ k, counter c k = if decide (k ∈ nodeId <$> ns) then 1%nat else O.
Proof.
  induction ns as [|n ns IH] using rev_ind; intros Hnd; cbv zeta.
  { by repeat split. }
  rewrite fmap_app in Hnd. apply NoDup_app in Hnd as (Hnd & Hnotin & _).
  destruct (IH Hnd) as (Hk & Hs & Hc & Hcnt). clear IH.
  rewrite foldl_snoc.
  set (c := foldl (λ t n, (add t n).1) emptyCache ns) in *.
  assert (wf_cache c) as Hwf by (apply foldl_add_wf, wf_emptyCache).
  assert (nodeId n ∉ nodeId <$> ns) as Hfresh.
  { intros Hin. apply (Hnotin _ Hin). by left. }
  assert (counter c (nodeId n) = O) as Hz.
  { rewrite Hcnt. by rewrite decide_False. }
  rewrite add_fresh by done. fields.
  split; [by rewrite Hk, fmap_app|].
  split; [by rewrite Hs, fmap_app|].
  split; [rewrite Hc, length_app; simpl; lia|].
  intros k. unfold counter at 1. fields. rewrite counter_insert, Hcnt.
  rewrite fmap_app.
  destruct (decide (nodeId n = k)) as [<-|Hne].
  - rewrite decide_True; [done|]. apply elem_of_app. right. by left.
  - destruct (decide (k ∈ nodeId <$> ns)).
    + rewrite decide_True; [done|]. apply elem_of_app. by left.
    + rewrite decide_False; [done|].
      intros [?|?%list_elem_of_singleton]%elem_of_app; done.
Qed.

Lemma values_wf (c : Cache) n : wf_cache c → n ∈ values c → wf_node n.
Proof.
  intros Hwf (k & _ & Hget)%list_elem_of_omap.
  by destruct (wf_child _ _ _ Hwf Hget).
Qed.

Lemma merge_empty_sheet (c : Cache) :
  wf_cache c →
  Forall (λ n, getStyles (clone n) = getStyles n) (values c) →
  sheet (merge emptyCache c) = sheet c.
Proof.
  intros Hwf Hall. unfold merge.
  destruct (foldl_add_fresh (values c)) as (_ & Hs & _).
  { rewrite values_ids by done. by apply wf_NoDup. }
  rewrite Hs, <- values_texts by done.
  apply Forall_fmap_ext_1. by rewrite Forall_forall in Hall |- *.
Qed.

Lemma clone_text (n : Node) : wf_node n → getStyles (clone n) = getStyles n.
Proof.
  induction n as [n IH] using Node_values_ind. intros Hwf.
  destruct (asCache n) as [c|] eqn:Hc; [|by destruct n].
  assert (wf_cache c) as Hwfc by (by eapply wf_node_asCache).
  specialize (IH c eq_refl).
  rewrite clone_setCache. apply (getStyles_setCache _ c); [done|].
  unfold mergeNode. rewrite Hc. apply merge_empty_sheet; [done|].
  rewrite Forall_forall in IH. apply Forall_forall. intros v Hv.
  apply IH; [done|]. by eapply values_wf.
Qed.

(** X7: cloning keeps the text and resets the counters.  The clone of a
    cache built by [add] and [remove] has the same order list and the same
    text list; every id of it has the counter one, whatever its counter in
    the original, and its change counter is the number of its ids.  The
    clone of a stored node renders the same text as the node. *)
Theorem clone_keeps_text_resets_counters (c : Cache) :
  reachable c →
  _keys (merge emptyCache c) = _keys c ∧
  sheet (merge emptyCache c) = sheet c ∧
  changeId (merge emptyCache c) = length (_keys c) ∧
  (∀ k, counter (merge emptyCache c) k = if decide (k ∈ _keys c) then 1%nat else O) ∧
  (∀ k n, childrenGet k (_children c) = Some n →
          getStyles (clone n) = getStyles n ∧ nodeId (clone n) = nodeId n).
Proof.
  intros Hwf%reachable_wf.
  destruct (foldl_add_fresh (values c)) as (Hk & _ & Hc & Hcnt).
  { rewrite values_ids by done. by apply wf_NoDup. }
  rewrite values_ids in Hk, Hcnt by done.
  split; [done|]. split; [|split; [|split; [done|]]].
  - apply merge_empty_sheet; [done|]. apply Forall_forall. intros n Hn.
    apply clone_text. by eapply values_wf.
  - unfold merge. rewrite Hc. by rewrite <- (values_ids c Hwf), length_fmap.
  - intros k n Hget. destruct (wf_child _ _ _ Hwf Hget) as [_ Hn].
    split; [by apply clone_text|by destruct n].
Qed.

Lemma clone_keeps_text_resets_counters_witness :
  let n := Selector ".a" "k1" in
  let c := (add (add emptyCache n).1 n).1 in
  reachable c ∧ counter c "k1" = 2%nat ∧ counter (merge emptyCache c) "k1" = 1%nat.
Proof.
  intros n c.
  assert (reachable c) as Hr by apply reachable_add, reachable_add, reachable_new.
  split; [exact Hr|]. split; [reflexivity|].
  exact (proj1 (proj2 (proj2 (proj2 (clone_keeps_text_resets_counters c Hr)))) "k1").
Defined.

(* ================================================================== *)
(** * Further properties of the string helpers *)
(* ================================================================== *)

Lemma toLowerCase_not_upper c : isUpper (toLowerCase c) = false.
Proof. destruct c as [[] [] [] [] [] [] [] []]; reflexivity. Qed.

Lemma allChars_app p a b : allChars p (a +:+ b) = allChars p a && allChars p b.
Proof.
  induction a as [|c a IH]; simpl; [done|]. rewrite IH. by rewrite andb_assoc.
Qed.

Lemma replaceWith_id class f s :
  allChars (λ c, negb (class c)) s = true → Replace.replaceWith class f s = s.
Proof.
  induction s as [|c s IH]; simpl; [done|].
  intros [Hc Hs]%andb_true_iff. apply negb_true_iff in Hc. rewrite Hc.
  by rewrite IH.
Qed.

Lemma replaceWith_allChars class f p s :
  (∀ c, class c = true → allChars p (f c) = true) →
  (∀ c, class c = false → p c = true) →
  allChars p (Replace.replaceWith class f s) = true.
Proof.
  intros Hf Hp. induction s as [|c s IH]; simpl; [done|].
  destruct (class c) eqn:Hc.
  - rewrite allChars_app, IH, Hf by done. done.
  - simpl. by rewrite IH, Hp.
Qed.

Lemma replaceMsPrefix_spec s :
  (∃ rest, s = "ms-" +:+ rest ∧ replaceMsPrefix s = "-ms-" +:+ rest) ∨
  ((∀ rest, s ≠ "ms-" +:+ rest) ∧ replaceMsPrefix s = s).
Proof.
  destruct s as [|c1 s]; [right; split; [intros r; discriminate|reflexivity]|].
  destruct c1 as [[] [] [] [] [] [] [] []];
    try (right; split; [intros r; discriminate|reflexivity]).
  destruct s as [|c2 s]; [right; split; [intros r; discriminate|reflexivity]|].
  destruct c2 as [[] [] [] [] [] [] [] []];
    try (right; split; [intros r; discriminate|reflexivity]).
  destruct s as [|c3 rest]; [right; split; [intros r; discriminate|reflexivity]|].
  destruct c3 as [[] [] [] [] [] [] [] []];
    try (right; split; [intros r; discriminate|reflexivity]).
  left. by exists rest.
Qed.

Lemma replaceMsPrefix_allChars p s :
  p "-"%char = true → allChars p s = true → allChars p (replaceMsPrefix s) = true.
Proof.
  intros Hdash Hs.
  destruct (replaceMsPrefix_spec s) as [(rest & -> & ->)|[_ ->]]; [|done].
  simpl in *. rewrite Hdash in Hs |- *. done.
Qed.

Lemma replaceMsPrefix_idem s : replaceMsPrefix (replaceMsPrefix s) = replaceMsPrefix s.
Proof.
  destruct (replaceMsPrefix_spec s) as [(rest & -> & Hr)|[_ Hr]]; by rewrite !Hr.
Qed.

(** X8: [hyphenate] leaves no upper-case letter, and applying it to its
    own result changes nothing, so a property name that is already
    hyphenated is looked up and rendered under the same name. *)
Theorem hyphenate_lower_idempotent (propertyName : string) :
  allChars (λ c, negb (isUpper c)) (hyphenate propertyName) = true ∧
  hyphenate (hyphenate propertyName) = hyphenate propertyName.
Proof.
  set (t := Replace.replaceWith isUpper (λ m, "-" +:+ String (toLowerCase m) "")
              propertyName).
  assert (allChars (λ c, negb (isUpper c)) t = true) as Ht.
  { apply replaceWith_allChars.
    - intros c _. simpl. by rewrite toLowerCase_not_upper.
    - intros c Hc. by rewrite Hc. }
  assert (allChars (λ c, negb (isUpper c)) (hyphenate propertyName) = true) as Hh.
  { by apply replaceMsPrefix_allChars. }
  split; [done|].
  unfold hyphenate at 1. rewrite replaceWith_id by done.
  unfold hyphenate. apply replaceMsPrefix_idem.
Qed.

Lemma string_app_assoc (a b c : string) : (a +:+ b) +:+ c = a +:+ (b +:+ c).
Proof.
  induction a as [|x a IH]; [done|].
  change (String x ((a +:+ b) +:+ c) = String x (a +:+ (b +:+ c))). by rewrite IH.
Qed.

Lemma replaceWith_app class f a b :
  Replace.replaceWith class f (a +:+ b)
  = Replace.replaceWith class f a +:+ Replace.replaceWith class f b.
Proof.
  induction a as [|c a IH]; simpl; [done|].
  destruct (class c); rewrite IH; [|done].
  by rewrite string_app_assoc.
Qed.

Lemma replaceFrom_escape before str :
  Replace.replaceFrom escapeClass "\$&" before str
  = Replace.replaceWith escapeClass (λ c, String "\" (String c "")) str.
Proof.
  revert before. induction str as [|c str IH]; intros before; simpl; [done|].
  destruct (escapeClass c); by rewrite IH.
Qed.

Lemma escape_replaceWith str :
  escape str = Replace.replaceWith escapeClass (λ c, String "\" (String c "")) str.
Proof. apply replaceFrom_escape. Qed.

(** X9: [escape] puts one backslash before every character of its class
    and keeps every other character: the replacement pattern of the source
    expands to a backslash followed by the matched character.  It
    distributes over concatenation and leaves a string without such
    characters as it is. *)
Theorem escape_backslashes (str : string) :
  escape str = Replace.replaceWith escapeClass (λ c, String "\" (String c "")) str ∧
  (∀ a b, escape (a +:+ b) = escape a +:+ escape b) ∧
  (allChars (λ c, negb (escapeClass c)) str = true → escape str = str).
Proof.
  split; [apply escape_replaceWith|]. split.
  - intros a b. rewrite !escape_replaceWith. apply replaceWith_app.
  - intros H. rewrite escape_replaceWith. by apply replaceWith_id.
Qed.

Lemma escape_backslashes_witness :
  allChars (λ c, negb (escapeClass c)) "f1jvcvsh" = true ∧ escape "f1jvcvsh" = "f1jvcvsh".
Proof.
  split; [reflexivity|].
  exact (proj2 (proj2 (escape_backslashes "f1jvcvsh")) eq_refl).
Defined.

(** ** Ids made by [stringHash] *)

Lemma digitsAux_lt b fuel n acc :
  (0 < b)%N → Forall (λ d, (d < b)%N) acc →
  Forall (λ d, (d < b)%N) (JS.digitsAux fuel b n acc).
Proof.
  intros Hb. revert n acc. induction fuel as [|fuel IH]; intros n acc Hacc; simpl; [done|].
  assert (Forall (λ d, (d < b)%N) ((n mod b)%N :: acc)) as Hacc'.
  { constructor; [|done]. apply N.mod_lt. lia. }
  destruct (n / b =? 0)%N; [done|]. by apply IH.
Qed.

Lemma digits_lt b n : (0 < b)%N → Forall (λ d, (d < b)%N) (JS.digits b n).
Proof. intros Hb. by apply digitsAux_lt. Qed.

Lemma digitChar_base36 d :
  (d < 36)%N →
  isBase36Char (JS.digitChar d) = true ∧ escapeClass (JS.digitChar d) = false.
Proof.
  intros Hd.
  assert (forallb (λ d, isBase36Char (JS.digitChar d) &&
                        negb (escapeClass (JS.digitChar d)))
                  (N.of_nat <$> seq 0 36) = true) as Hall
    by (vm_compute; reflexivity).
  rewrite forallb_forall in Hall.
  assert (In d (N.of_nat <$> seq 0 36)) as Hin.
  { apply list_elem_of_In, list_elem_of_fmap. exists (N.to_nat d).
    split; [lia|]. apply elem_of_seq. lia. }
  apply Hall, andb_true_iff in Hin as [H1 H2].
  by apply negb_true_iff in H2.
Qed.

Lemma allChars_stringOfDigits p ds :
  Forall (λ d, p (JS.digitChar d) = true) ds →
  allChars p (JS.stringOfDigits ds) = true.
Proof.
  unfold JS.stringOfDigits. induction 1 as [|d ds Hd _ IH]; simpl; [done|].
  by rewrite Hd, IH.
Qed.

Lemma toString36_chars n :
  allChars isBase36Char (JS.toString36 n) = true ∧
  allChars (λ c, negb (escapeClass c)) (JS.toString36 n) = true.
Proof.
  pose proof (digits_lt 36 n eq_refl) as Hlt. rewrite Forall_forall in Hlt.
  split; apply allChars_stringOfDigits, Forall_forall; intros d Hd;
    destruct (digitChar_base36 d (Hlt d Hd)) as [H1 H2]; [done|by rewrite H2].
Qed.

(** X10: the ids made by [stringHash] need no escaping.  The hash consists
    of the characters [0-9a-z], so [escape] leaves the id [f<hash>] as it
    is; for styles without a truthy [$displayName], [registerStyle] gives
    the same id, the same state and the same notifications in production
    mode and outside of it. *)
Theorem hash_ids_need_no_escaping (pid : string) (styles : Styles) (st : State) :
  allChars isBase36Char (stringHash pid) = true ∧
  escape ("f" +:+ stringHash pid) = "f" +:+ stringHash pid ∧
  (truthy (getProperty styles "$displayName") = false →
   registerStyle false styles st = registerStyle true styles st).
Proof.
  assert (∀ p, escape ("f" +:+ stringHash p) = "f" +:+ stringHash p) as Hesc.
  { intros p. rewrite escape_replaceWith. apply replaceWith_id.
    simpl. apply toString36_chars. }
  split; [apply toString36_chars|]. split; [apply Hesc|].
  intros Hname. unfold registerStyle.
  destruct (stylize "&" styles [] [] None) as [[p rl] sl].
  unfold key. rewrite Hname. simpl. by rewrite Hesc.
Qed.

Lemma hash_ids_need_no_escaping_witness :
  truthy (getProperty [("color", red)] "$displayName") = false ∧
  registerStyle false [("color", red)] (create 0)
  = registerStyle true [("color", red)] (create 0).
Proof.
  split; [reflexivity|].
  exact (proj2 (proj2 (hash_ids_need_no_escaping "" [("color", red)] (create 0)))
           eq_refl).
Defined.

(** X11: for a parent selector without a dollar sign, [interpolate] is
    the textual substitution: every [&] of the selector becomes the parent,
    and a selector without [&] is appended to the parent after a space. *)
Theorem interpolate_without_dollar (selector parent : string) :
  JS.contains "$" parent = false →
  (JS.contains "&" selector = true →
   interpolate selector parent = substituteAmpersand parent selector) ∧
  (JS.contains "&" selector = false →
   interpolate selector parent = parent +:+ " " +:+ selector).
Proof.
  intros Hp. rewrite interpolate_plain by done.
  split; intros ->; done.
Qed.

Lemma interpolate_without_dollar_witness :
  JS.contains "$" ".abc" = false ∧ JS.contains "&" "&:hover > &" = true ∧
  interpolate "&:hover > &" ".abc" = ".abc:hover > .abc".
Proof.
  split; [reflexivity|]. split; [reflexivity|].
  exact (proj1 (interpolate_without_dollar "&:hover > &" ".abc" eq_refl) eq_refl).
Defined.

(* ================================================================== *)
(** * Further properties of the parser *)
(* ================================================================== *)

Lemma stringGt_lt a b : stringGt a b = true ↔ OrderedTypeEx.String_as_OT.lt b a.
Proof.
  rewrite <- OrderedTypeEx.String_as_OT.cmp_lt.
  unfold stringGt, OrderedTypeEx.String_as_OT.cmp.
  rewrite (String.compare_antisym a b).
  destruct (String.compare b a); simpl; split; congruence.
Qed.

Lemma stringGt_false a b :
  stringGt a b = false ↔ a = b ∨ OrderedTypeEx.String_as_OT.lt a b.
Proof.
  rewrite <- OrderedTypeEx.String_as_OT.cmp_lt, <- OrderedTypeEx.String_as_OT.cmp_eq.
  unfold stringGt, OrderedTypeEx.String_as_OT.cmp.
  destruct (String.compare a b); split; intros H;
    try done; try (by left); try (by right); by destruct H.
Qed.

#[local] Instance nameLe_trans {T} : Transitive (@nameLe T).
Proof.
  intros a b c. unfold nameLe. rewrite !stringGt_false.
  intros [Hab|Hab] [Hbc|Hbc].
  - left. congruence.
  - right. by rewrite Hab.
  - right. by rewrite <- Hbc.
  - right. by eapply OrderedTypeEx.String_as_OT.lt_trans.
Qed.

Lemma nameLe_antisym {T} (a b : string * T) : nameLe a b → nameLe b a → a.1 = b.1.
Proof.
  unfold nameLe. rewrite !stringGt_false.
  intros [?|Hab] [?|Hba]; try done.
  exfalso. eapply OrderedTypeEx.String_as_OT.lt_not_eq; [|reflexivity].
  by eapply OrderedTypeEx.String_as_OT.lt_trans.
Qed.

Lemma NoDup_fst_inj {A B} (l : list (A * B)) k v1 v2 :
  NoDup l.*1 → (k, v1) ∈ l → (k, v2) ∈ l → v1 = v2.
Proof.
  induction l as [|[k' v'] l IH]; csimpl; intros Hnd H1 H2.
  - by apply elem_of_nil in H1.
  - apply NoDup_cons in Hnd as [Hk' Hnd].
    apply elem_of_cons in H1 as [[= -> ->]|H1];
      apply elem_of_cons in H2 as [[= ->]|H2]; try done.
    + exfalso. apply Hk'. apply list_elem_of_fmap. by exists (k', v2).
    + exfalso. apply Hk'. apply list_elem_of_fmap. by exists (k', v1).
    + by apply IH.
Qed.

(** Two arrays with the same entries, whose names are pairwise distinct,
    are sorted into the same array. *)
Lemma sortTuples_unique {T} (value1 value2 : list (string * T)) :
  value1 ≡ₚ value2 → NoDup value1.*1 → sortTuples value1 = sortTuples value2.
Proof.
  intros Hperm Hnd.
  apply (Sorted_unique_strong nameLe).
  - intros x1 x2 Hx1 Hx2 H12 H21.
    rewrite elem_of_sortTuples in Hx1. rewrite elem_of_sortTuples, <- Hperm in Hx2.
    pose proof (nameLe_antisym _ _ H12 H21) as Heq.
    destruct x1 as [k1 v1], x2 as [k2 v2]. simpl in Heq. subst k2.
    f_equal. by eapply NoDup_fst_inj.
  - apply sortTuples_sorted.
  - apply sortTuples_sorted.
  - by rewrite !sortTuples_perm.
Qed.

(** X12: [sortTuples] returns its entries sorted by name.  When the names
    are pairwise distinct the result does not depend on the order of the
    input: two arrays with the same entries are sorted into the same
    array. *)
Theorem sortTuples_sorts {T} (value value' : list (string * T)) :
  sortedByName (sortTuples value) ∧
  sortTuples value ≡ₚ value ∧
  (value ≡ₚ value' → NoDup value.*1 → sortTuples value = sortTuples value').
Proof.
  split; [apply sortTuples_sorted|]. split; [apply sortTuples_perm|].
  apply sortTuples_unique.
Qed.

Lemma sortTuples_sorts_witness :
  let value := [("margin", DScalar (PNumber (JS.Fin 0 0))); ("color", DScalar (PString "red"))] in
  let value' := [("color", DScalar (PString "red")); ("margin", DScalar (PNumber (JS.Fin 0 0)))] in
  value ≡ₚ value' ∧ NoDup value.*1 ∧ sortTuples value = sortTuples value'.
Proof.
  intros value value'.
  assert (value ≡ₚ value') as Hp by apply Permutation_swap.
  assert (NoDup value.*1) as Hn.
  { apply NoDup_cons. split; [|apply NoDup_singleton].
    intros H%list_elem_of_singleton. discriminate. }
  split; [exact Hp|]. split; [exact Hn|].
  exact (proj2 (proj2 (sortTuples_sorts value value')) Hp Hn).
Defined.

Lemma parseProperties_omap (styles : Styles) :
  parseProperties styles = omap declarationOf styles.
Proof.
  induction styles as [|[k v] styles IH]; [done|].
  cbn [parseProperties omap list_omap]. unfold declarationOf at 1. cbn [fst snd].
  case_bool_decide; simpl; [done|]. destruct v; by rewrite ?IH.
Qed.

Lemma parseNested_omap (styles : Styles) :
  parseNested styles = omap nestedOf styles.
Proof.
  induction styles as [|[k v] styles IH]; [done|].
  cbn [parseNested omap list_omap]. unfold nestedOf at 1. cbn [fst snd].
  case_bool_decide; simpl; [done|]. destruct v; by rewrite ?IH.
Qed.

Lemma getProperty_elem (styles : Styles) k v :
  NoDup styles.*1 → (k, v) ∈ styles → getProperty styles k = v.
Proof.
  induction styles as [|[k' v'] styles IH]; csimpl; intros Hnd Hin.
  - by apply elem_of_nil in Hin.
  - apply NoDup_cons in Hnd as [Hk' Hnd].
    destruct (String.eqb_spec k' k) as [->|Hne].
    + apply elem_of_cons in Hin as [[= ->]|Hin]; [done|].
      exfalso. apply Hk'. apply list_elem_of_fmap. by exists (k, v).
    + apply elem_of_cons in Hin as [[= -> ->]|Hin]; [done|]. by apply IH.
Qed.

Lemma getProperty_absent (styles : Styles) k :
  k ∉ styles.*1 → getProperty styles k = VNull.
Proof.
  induction styles as [|[k' v'] styles IH]; csimpl; intros Hnotin; [done|].
  apply not_elem_of_cons in Hnotin as [Hne Hnotin].
  destruct (String.eqb_spec k' k) as [->|_]; [done|]. by apply IH.
Qed.

Lemma getProperty_perm (styles1 styles2 : Styles) k :
  styles1 ≡ₚ styles2 → NoDup styles1.*1 →
  getProperty styles1 k = getProperty styles2 k.
Proof.
  intros Hperm Hnd.
  assert (NoDup styles2.*1) as Hnd2 by (by rewrite <- Hperm).
  destruct (decide (k ∈ styles1.*1)) as [Hin|Hnotin].
  - apply list_elem_of_fmap in Hin as ([k' v] & -> & Hin). simpl.
    rewrite (getProperty_elem styles1 k' v) by done.
    symmetry. apply getProperty_elem; [done|]. by rewrite <- Hperm.
  - rewrite !getProperty_absent; [done| |done]. by rewrite <- Hperm.
Qed.

Lemma stylizeBody_parse rec selector styles1 styles2 rulesList stylesList parent :
  parseStyles styles1 (negb (String.eqb selector ""))
  = parseStyles styles2 (negb (String.eqb selector "")) →
  stylizeBody rec selector styles1 rulesList stylesList parent
  = stylizeBody rec selector styles2 rulesList stylesList parent.
Proof. intros H. unfold stylizeBody. by rewrite H. Qed.

(** The parse of a style object does not depend on the order of its
    declarations, when their hyphenated names are pairwise distinct. *)
Lemma parseStyles_perm (styles1 styles2 : Styles) b :
  styles1 ≡ₚ styles2 → NoDup styles1.*1 →
  NoDup (parseProperties styles1).*1 →
  parseNested styles1 = parseNested styles2 →
  parseStyles styles1 b = parseStyles styles2 b.
Proof.
  intros Hperm Hkeys Hnames Hnested. unfold parseStyles.
  rewrite Hnested, (getProperty_perm styles1 styles2) by done.
  rewrite (sortTuples_unique (parseProperties styles1) (parseProperties styles2));
    [done| |done].
  rewrite !parseProperties_omap. by apply omap_Permutation.
Qed.

(** X13: a registration does not depend on the order in which the
    declarations of the style object are written.  For two style objects
    with the same entries, whose declarations have pairwise distinct
    hyphenated names and whose nested entries come in the same order,
    [parseStyles] returns the same result and [registerStyle] returns the
    same id, the same state and the same notifications. *)
Theorem registerStyle_declaration_order
    (production : bool) (styles1 styles2 : Styles) (st : State) :
  styles1 ≡ₚ styles2 →
  NoDup styles1.*1 →
  NoDup (parseProperties styles1).*1 →
  parseNested styles1 = parseNested styles2 →
  (∀ b, parseStyles styles1 b = parseStyles styles2 b) ∧
  registerStyle production styles1 st = registerStyle production styles2 st.
Proof.
  intros Hperm Hkeys Hnames Hnested.
  split; [intros b; by apply parseStyles_perm|].
  unfold registerStyle.
  rewrite (stylize_unfold "&" styles1), (stylize_unfold "&" styles2).
  rewrite (stylizeBody_parse _ _ styles1 styles2) by (by apply parseStyles_perm).
  unfold key. by rewrite (getProperty_perm styles1 styles2).
Qed.

Lemma registerStyle_declaration_order_witness :
  let styles1 := [("color", red); ("margin", VProperty (PNumber (JS.Fin 0 0)))] in
  let styles2 := [("margin", VProperty (PNumber (JS.Fin 0 0))); ("color", red)] in
  styles1 ≡ₚ styles2 ∧ NoDup styles1.*1 ∧ NoDup (parseProperties styles1).*1 ∧
  parseNested styles1 = parseNested styles2 ∧
  registerStyle true styles1 (create 0) = registerStyle true styles2 (create 0).
Proof.
  intros styles1 styles2.
  assert (styles1 ≡ₚ styles2) as Hp by apply Permutation_swap.
  assert (NoDup styles1.*1) as Hk.
  { apply NoDup_cons. split; [|apply NoDup_singleton].
    intros H%list_elem_of_singleton. discriminate. }
  assert (NoDup (parseProperties styles1).*1) as Hn.
  { apply NoDup_cons. split; [|apply NoDup_singleton].
    intros H%list_elem_of_singleton. discriminate. }
  split; [exact Hp|]. split; [exact Hk|]. split; [exact Hn|]. split; [reflexivity|].
  exact (proj2 (registerStyle_declaration_order true styles1 styles2 (create 0)
                  Hp Hk Hn eq_refl)).
Defined.

(** X14: an entry whose value is [null] or [undefined], or whose trimmed
    name starts with a dollar sign, contributes neither a declaration nor a
    nested entry: the rendered declarations and the nested entries are those
    of the style object without it. *)
Theorem parseStyles_skips_null_and_dollar
    (before after : Styles) (k : string) (v : StyleValue) (b : bool) :
  v = VNull ∨ JS.charCodeAt0 (JS.trim k) = Some 36 →
  p_style (parseStyles (before ++ (k, v) :: after) b)
  = p_style (parseStyles (before ++ after) b) ∧
  p_nested (parseStyles (before ++ (k, v) :: after) b)
  = p_nested (parseStyles (before ++ after) b).
Proof.
  intros Hskip.
  assert (declarationOf (k, v) = None ∧ nestedOf (k, v) = None) as [Hd Hn].
  { unfold declarationOf, nestedOf. cbn [fst snd].
    destruct Hskip as [-> | Hdollar]; [by case_bool_decide|].
    by rewrite bool_decide_eq_true_2. }
  unfold parseStyles. cbn [p_style p_nested].
  rewrite !parseProperties_omap, !parseNested_omap, !omap_app.
  cbn [omap list_omap]. by rewrite Hd, Hn.
Qed.

Lemma parseStyles_skips_null_and_dollar_witness :
  JS.charCodeAt0 (JS.trim " $debug ") = Some 36 ∧
  p_style (parseStyles ([("color", red)] ++ (" $debug ", blue) :: []) true)
  = p_style (parseStyles ([("color", red)] ++ []) true).
Proof.
  split; [reflexivity|].
  exact (proj1 (parseStyles_skips_null_and_dollar [("color", red)] [] " $debug "
                  blue true (or_intror eq_refl))).
Defined.

(* ================================================================== *)
(** * Further properties of [stylize] *)
(* ================================================================== *)

Lemma foldl_stylizeNested_prefix rec parent (nested : list (string * Styles)) st :
  (∀ name sub rl sl p,
     rl `prefix_of` (rec name sub rl sl p).1.2 ∧
     sl `prefix_of` (rec name sub rl sl p).2) →
  st.1.2 `prefix_of` (foldl (stylizeNested rec parent) st nested).1.2 ∧
  st.2 `prefix_of` (foldl (stylizeNested rec parent) st nested).2.
Proof.
  intros Hrec. revert st.
  induction nested as [|[name sub] nested IH]; intros st; cbn [foldl]; [done|].
  destruct (IH (stylizeNested rec parent st (name, sub))) as [H1 H2].
  assert (st.1.2 `prefix_of` (stylizeNested rec parent st (name, sub)).1.2 ∧
          st.2 `prefix_of` (stylizeNested rec parent st (name, sub)).2) as [H3 H4].
  { unfold stylizeNested. destruct st as [[pid rl] sl]. cbn [fst snd].
    specialize (Hrec name sub rl sl parent).
    by destruct (rec name sub rl sl parent) as [[sub' rl'] sl']. }
  split; by etrans.
Qed.

Lemma stylizeFuel_prefix fuel selector styles rulesList stylesList parent :
  rulesList `prefix_of`
    (stylizeFuel fuel selector styles rulesList stylesList parent).1.2 ∧
  stylesList `prefix_of`
    (stylizeFuel fuel selector styles rulesList stylesList parent).2.
Proof.
  revert selector styles rulesList stylesList parent.
  induction fuel as [|fuel IH]; intros selector styles rl sl parent; [done|].
  cbn [stylizeFuel]. unfold stylizeBody.
  case_bool_decide.
  - destruct (foldl _ _ _) as [[pid childRules] childStyles]. cbn [fst snd].
    split; [by apply prefix_app_r|done].
  - match goal with
    | |- context [foldl (stylizeNested _ ?p) ?st ?l] =>
        destruct (foldl_stylizeNested_prefix (stylizeFuel fuel) p l st IH) as [H1 H2]
    end.
    cbn [fst snd] in *. split; [done|].
    etrans; [|exact H2]. destruct (stringTruthy _); [by apply prefix_app_r|done].
Qed.

(** X15: [stylize] only appends to its accumulators: the rules and the
    flat styles that were in [rulesList] and [stylesList] before the call
    are still there afterwards, in the same order, at the front. *)
Theorem stylize_appends
    (selector : string) (styles : Styles)
    (rulesList : list StylizeRule) (stylesList : list StylizeStyle)
    (parent : option string) :
  rulesList `prefix_of` (stylize selector styles rulesList stylesList parent).1.2 ∧
  stylesList `prefix_of` (stylize selector styles rulesList stylesList parent).2.
Proof. apply stylizeFuel_prefix. Qed.

(** X16: a style object without a declaration and without a nested entry
    (an empty object, or one that only holds control keys and [null]
    values) registers nothing: [registerStyle] returns the id made from the
    empty fingerprint and leaves the state as it is, without a
    notification. *)
Theorem registerStyle_nothing_to_register
    (production : bool) (styles : Styles) (st : State) :
  parseProperties styles = [] → parseNested styles = [] →
  registerStyle production styles st = (key production "" styles, st, []).
Proof.
  intros Hp Hn. unfold registerStyle. rewrite stylize_unfold.
  unfold stylizeBody, parseStyles. cbn [p_style p_nested p_isUnique negb].
  rewrite Hp, Hn. simpl. by destruct st.
Qed.

Lemma registerStyle_nothing_to_register_witness :
  let styles := [("$displayName", VProperty (PString "button")); ("color", VNull)] in
  parseProperties styles = [] ∧ parseNested styles = [] ∧
  registerStyle false styles (create 0) = (key false "" styles, create 0, []).
Proof.
  intros styles. split; [reflexivity|]. split; [reflexivity|].
  exact (registerStyle_nothing_to_register false styles (create 0) eq_refl eq_refl).
Defined.

(* ================================================================== *)
(** * Unique styles *)
(* ================================================================== *)

Lemma digitsAux_app fuel b n acc :
  JS.digitsAux fuel b n acc = JS.digitsAux fuel b n [] ++ acc.
Proof.
  revert n acc. induction fuel as [|fuel IH]; intros n acc; simpl; [done|].
  destruct (n / b =? 0)%N; [done|].
  rewrite (IH _ ((n mod b)%N :: acc)), (IH _ [(n mod b)%N]).
  by rewrite <- app_assoc.
Qed.

Lemma fromDigits_snoc b ds d : fromDigits b (ds ++ [d]) = (fromDigits b ds * b + d)%N.
Proof. unfold fromDigits. by rewrite foldl_snoc. Qed.

Lemma fromDigits_digitsAux b fuel n :
  (2 ≤ b)%N → (n < 2 ^ N.of_nat fuel)%N →
  fromDigits b (JS.digitsAux fuel b n []) = n.
Proof.
  intros Hb. revert n. induction fuel as [|fuel IH]; intros n Hn.
  - simpl in Hn. assert (n = 0%N) as -> by lia. done.
  - cbn [JS.digitsAux].
    destruct (N.eqb_spec (n / b) 0) as [Hz|Hnz].
    + unfold fromDigits. simpl. apply N.mod_small.
      apply N.div_small_iff in Hz; lia.
    + rewrite digitsAux_app, fromDigits_snoc, IH.
      * rewrite N.mul_comm. symmetry. apply N.div_mod. lia.
      * rewrite Nat2N.inj_succ, N.pow_succ_r' in Hn.
        apply N.Div0.div_lt_upper_bound. nia.
Qed.

Lemma fromDigits_digits b n : (2 ≤ b)%N → fromDigits b (JS.digits b n) = n.
Proof.
  intros Hb. apply fromDigits_digitsAux; [done|].
  rewrite Nat2N.inj_succ, N2Nat.id.
  destruct n as [|p]; [done|]. apply N.log2_spec. lia.
Qed.

Lemma digitChar_code d :
  (d < 36)%N →
  N_of_ascii (JS.digitChar d) = if (d <? 10)%N then (48 + d)%N else (87 + d)%N.
Proof.
  intros Hd. unfold JS.digitChar.
  destruct (d <? 10)%N; apply N_ascii_embedding; lia.
Qed.

Lemma digitChar_inj d d' :
  (d < 36)%N → (d' < 36)%N → JS.digitChar d = JS.digitChar d' → d = d'.
Proof.
  intros Hd Hd' Heq. apply (f_equal N_of_ascii) in Heq.
  rewrite !digitChar_code in Heq by done.
  destruct (N.ltb_spec d 10), (N.ltb_spec d' 10); lia.
Qed.

Lemma stringOfDigits_inj ds ds' :
  Forall (λ d, (d < 36)%N) ds → Forall (λ d, (d < 36)%N) ds' →
  JS.stringOfDigits ds = JS.stringOfDigits ds' → ds = ds'.
Proof.
  unfold JS.stringOfDigits. intros Hds. revert ds'.
  induction Hds as [|d ds Hd _ IH]; intros [|d' ds'] Hds' Heq; try done.
  apply Forall_cons in Hds' as [Hd' Hds'].
  injection Heq as Hc Hrest.
  f_equal; [by apply digitChar_inj|by apply IH].
Qed.

Lemma toString36_inj n m : JS.toString36 n = JS.toString36 m → n = m.
Proof.
  intros Heq. apply stringOfDigits_inj in Heq; [|by apply digits_lt..].
  rewrite <- (fromDigits_digits 36 n), <- (fromDigits_digits 36 m) by done.
  by rewrite Heq.
Qed.

Lemma uniqueStyleId_inj n m : uniqueStyleId n = uniqueStyleId m → n = m.
Proof. unfold uniqueStyleId. intros [= H]. by apply toString36_inj. Qed.

(** ** The ids of the nodes of a registration *)

Lemma idBetween_mono u0 u u' id :
  idBetween u0 u id → (u ≤ u')%N → idBetween u0 u' id.
Proof.
  intros [(m & H1 & H2 & ->)|H] Hle; [left|by right].
  exists m. repeat split; [done|lia].
Qed.

Lemma idBetween_weaken u0 u1 u' id :
  idBetween u1 u' id → (u0 ≤ u1)%N → idBetween u0 u' id.
Proof.
  intros [(m & H1 & H2 & ->)|H] Hle; [left|by right].
  exists m. repeat split; [lia|done].
Qed.

Lemma styleItem_id pid className isStyle s u :
  (u ≤ (styleItem pid className isStyle s u).2)%N ∧
  idBetween u (styleItem pid className isStyle s u).2
    (nodeId (styleItem pid className isStyle s u).1).
Proof.
  unfold styleItem. cbn [fst snd nodeId]. destruct (ss_isUnique s).
  - split; [lia|]. left. exists (u + 1)%N. repeat split; lia.
  - split; [lia|]. right. simpl. discriminate.
Qed.

Lemma styleItems_ids pid className isStyle stylesList u0 items u :
  (u0 ≤ u)%N → Forall (λ n, idBetween u0 u (nodeId n)) items →
  (u0 ≤ (styleItems pid className isStyle stylesList (items, u)).2)%N ∧
  Forall (λ n, idBetween u0
                 (styleItems pid className isStyle stylesList (items, u)).2
                 (nodeId n))
         (styleItems pid className isStyle stylesList (items, u)).1.
Proof.
  unfold styleItems. revert items u.
  induction stylesList as [|s sl IH]; intros items u Hle Hall; cbn [foldl]; [done|].
  destruct (styleItem_id pid className isStyle s u) as [Hu Hid].
  destruct (styleItem pid className isStyle s u) as [item u'].
  cbn [fst snd] in *. apply IH; [lia|].
  apply Forall_app. split.
  - eapply Forall_impl; [exact Hall|]. intros n Hn. eapply idBetween_mono; [exact Hn|lia].
  - apply Forall_singleton. eapply idBetween_weaken; [exact Hid|lia].
Qed.

Lemma ruleItems_ids pid className isStyle rulesList u0 items u :
  Forall (λ r, ∀ u, (u ≤ (composeRule pid className isStyle r u).2)%N) rulesList →
  (u0 ≤ u)%N → Forall (λ n, idBetween u0 u (nodeId n)) items →
  (u0 ≤ (ruleItems pid className isStyle rulesList (items, u)).2)%N ∧
  Forall (λ n, idBetween u0
                 (ruleItems pid className isStyle rulesList (items, u)).2
                 (nodeId n))
         (ruleItems pid className isStyle rulesList (items, u)).1.
Proof.
  unfold ruleItems. intros Hrules. revert items u.
  induction Hrules as [|r rl Hr _ IH]; intros items u Hle Hall; cbn [foldl]; [done|].
  specialize (Hr u).
  assert (JS.charCodeAt0 (nodeId (composeRule pid className isStyle r u).1) ≠ Some 117)
    as Hid.
  { rewrite composeRule_unfold. simpl. discriminate. }
  destruct (composeRule pid className isStyle r u) as [item u'].
  cbn [fst snd] in *. apply IH; [lia|].
  apply Forall_app. split.
  - eapply Forall_impl; [exact Hall|]. intros n Hn. eapply idBetween_mono; [exact Hn|lia].
  - apply Forall_singleton. by right.
Qed.

Lemma composeItems_ids_gen pid className isStyle rulesList stylesList u :
  Forall (λ r, ∀ u, (u ≤ (composeRule pid className isStyle r u).2)%N) rulesList →
  (u ≤ (composeItems pid className isStyle rulesList stylesList u).2)%N ∧
  Forall (λ n, idBetween u
                 (composeItems pid className isStyle rulesList stylesList u).2
                 (nodeId n))
         (composeItems pid className isStyle rulesList stylesList u).1.
Proof.
  intros Hrules. unfold composeItems.
  destruct (styleItems_ids pid className isStyle stylesList u [] u) as [H1 H2];
    [lia|constructor|].
  destruct (styleItems pid className isStyle stylesList ([], u)) as [items u1].
  by apply ruleItems_ids.
Qed.

Lemma composeRule_uid_le pid className isStyle r :
  ∀ u, (u ≤ (composeRule pid className isStyle r u).2)%N.
Proof.
  induction r as [r IH] using StylizeRule_rules_ind. intros u.
  rewrite composeRule_unfold, composeStylize_items. cbn [fst snd composed].
  by apply composeItems_ids_gen.
Qed.

Lemma composeItems_ids pid className isStyle rulesList stylesList u :
  (u ≤ (composeItems pid className isStyle rulesList stylesList u).2)%N ∧
  Forall (λ n, idBetween u
                 (composeItems pid className isStyle rulesList stylesList u).2
                 (nodeId n))
         (composeItems pid className isStyle rulesList stylesList u).1.
Proof.
  apply composeItems_ids_gen, Forall_forall. intros r _. apply composeRule_uid_le.
Qed.

Lemma styleItems_acc pid className isStyle stylesList items u :
  styleItems pid className isStyle stylesList (items, u)
  = (items ++ (styleItems pid className isStyle stylesList ([], u)).1,
     (styleItems pid className isStyle stylesList ([], u)).2).
Proof.
  unfold styleItems. revert items u.
  induction stylesList as [|s sl IH]; intros items u; cbn [foldl].
  - by rewrite app_nil_r.
  - destruct (styleItem pid className isStyle s u) as [item u'].
    rewrite (IH (items ++ [item])), (IH ([] ++ [item])). cbn [fst snd].
    by rewrite <- app_assoc.
Qed.

Lemma ruleItems_acc pid className isStyle rulesList items u :
  ruleItems pid className isStyle rulesList (items, u)
  = (items ++ (ruleItems pid className isStyle rulesList ([], u)).1,
     (ruleItems pid className isStyle rulesList ([], u)).2).
Proof.
  unfold ruleItems. revert items u.
  induction rulesList as [|r rl IH]; intros items u; cbn [foldl].
  - by rewrite app_nil_r.
  - destruct (composeRule pid className isStyle r u) as [item u'].
    rewrite (IH (items ++ [item])), (IH ([] ++ [item])). cbn [fst snd].
    by rewrite <- app_assoc.
Qed.

(** The nodes of [composeStylize] when [stylesList] starts with [s]. *)
Lemma composeItems_cons pid className isStyle rulesList s stylesList u :
  composeItems pid className isStyle rulesList (s :: stylesList) u
  = ((styleItem pid className isStyle s u).1 ::
       (composeItems pid className isStyle rulesList stylesList
          (styleItem pid className isStyle s u).2).1,
     (composeItems pid className isStyle rulesList stylesList
        (styleItem pid className isStyle s u).2).2).
Proof.
  unfold composeItems. unfold styleItems at 1. cbn [foldl].
  destruct (styleItem pid className isStyle s u) as [item u1]. cbn [fst snd].
  change (foldl _ ([] ++ [item], u1) stylesList)
    with (styleItems pid className isStyle stylesList ([item], u1)).
  rewrite styleItems_acc.
  destruct (styleItems pid className isStyle stylesList ([], u1)) as [items u2].
  cbn [fst snd]. rewrite ruleItems_acc. rewrite (ruleItems_acc _ _ _ _ items).
  cbn [fst snd]. by rewrite <- app_assoc.
Qed.

(** ** Entries that a sequence of [add] calls leaves alone *)



Lemma addAll_keys_elem this styles k :
  wf_cache this → k ∈ _keys (addAll this styles).1 →
  k ∈ _keys this ∨ k ∈ nodeId <$> styles.
Proof.
  intros Hwf. rewrite !wf_keys_counter by (done || by apply addAll_wf).
  rewrite addAll_counter_occurrences. unfold occurrences. intros Hpos.
  destruct (counter this k) as [|c]; [right|left; lia].
  destruct (filter _ styles) as [|n ns] eqn:Hf; [simpl in Hpos; lia|].
  assert (n ∈ filter (λ n, nodeId n = k) styles) as Hin by (rewrite Hf; by left).
  apply list_elem_of_filter in Hin as [<- Hin]. by apply list_elem_of_fmap_2.
Qed.

Lemma addAll_keys_prefix this styles :
  _keys this `prefix_of` _keys (addAll this styles).1.
Proof.
  induction styles as [|n styles IH] using rev_ind; [done|].
  rewrite addAll_snoc. cbn [fst]. etrans; [exact IH|].
  destruct (add_keys (addAll this styles).1 n) as [->|(_ & k & ->)]; [done|].
  by apply prefix_app_r.
Qed.

Lemma idBetween_not_unique u u' m id :
  idBetween u u' id → (m ≤ u ∨ u' < m)%N → id ≠ uniqueStyleId m.
Proof.
  intros [(m' & H1 & H2 & ->)|H] Hm.
  - intros Heq%uniqueStyleId_inj. lia.
  - intros ->. by apply H.
Qed.

(** ** Registering a tree whose outermost node is unique *)


Lemma registerStyle_items production styles st :
  let pid := (stylize "&" styles [] [] None).1.1 in
  let id := key production pid styles in
  let selector := "." +:+ (if production then id else escape id) in
  let items := composeItems pid selector true
                 (stylize "&" styles [] [] None).1.2
                 (stylize "&" styles [] [] None).2 (uniqueId st) in
  registerStyle production styles st
  = (id, {| uniqueId := items.2; freeStyle := (addAll (freeStyle st) items.1).1 |},
     (addAll (freeStyle st) items.1).2).
Proof.
  unfold registerStyle.
  destruct (stylize "&" styles [] [] None) as [[pid rl] sl]. cbn [fst snd].
  by rewrite composeStylize_items.
Qed.


Lemma rootStyleItem_text production styles u u' :
  getStyles (clone (rootStyleItem production styles u))
  = getStyles (clone (rootStyleItem production styles u')).
Proof. reflexivity. Qed.

(* ================================================================== *)
(** * The other registration entry points *)
(* ================================================================== *)

Lemma add_twice this style :
  wf_cache this →
  let c1 := (add this style).1 in
  (add c1 style).2 = [] ∧
  changeId (add c1 style).1 = changeId c1 ∧
  sheet (add c1 style).1 = sheet c1 ∧
  _keys (add c1 style).1 = _keys c1.
Proof.
  intros Hwf c1.
  destruct (add_absorbed_unchanged style c1) as [Hev Hch].
  { by apply add_wf. }
  { by apply add_absorbed. }
  destruct (add_changeId_same _ _ Hch) as [Hsh Hk]. done.
Qed.

(** X18: the other entry points dedup in the same way.  For a style tree
    in which no node sets [$unique], a second call of [registerRule]
    (hence of [registerCss]) or of [registerHashRule] (hence of
    [registerKeyframes]) with the same arguments sends no notification and
    leaves [uniqueId], the order list, the text list and the change counter
    as they were after the first call; [registerHashRule] returns the same
    id both times. *)
Theorem register_rule_twice
    (production : bool) (prefix rule : string) (styles : Styles) (st : State) :
  reachable (freeStyle st) →
  uniqueFree styles = true →
  let r1 := registerRule rule styles st in
  let r2 := registerRule rule styles r1.1 in
  let h1 := registerHashRule production prefix styles st in
  let h2 := registerHashRule production prefix styles h1.1.2 in
  (r2.2 = [] ∧
   uniqueId r2.1 = uniqueId st ∧
   _keys (freeStyle r2.1) = _keys (freeStyle r1.1) ∧
   sheet (freeStyle r2.1) = sheet (freeStyle r1.1) ∧
   changeId (freeStyle r2.1) = changeId (freeStyle r1.1)) ∧
  (h2.1.1 = h1.1.1 ∧
   h2.2 = [] ∧
   uniqueId h2.1.2 = uniqueId st ∧
   _keys (freeStyle h2.1.2) = _keys (freeStyle h1.1.2) ∧
   sheet (freeStyle h2.1.2) = sheet (freeStyle h1.1.2) ∧
   changeId (freeStyle h2.1.2) = changeId (freeStyle h1.1.2)).
Proof.
  intros Hwf%reachable_wf Hu. split.
  - unfold registerRule.
    pose proof (stylize_noUnique rule styles None Hu) as Hno.
    destruct (stylize rule styles [] [] None) as [[pid rl] sl]. cbn [fst snd] in Hno.
    rewrite !composeStylize_items.
    rewrite (composeItems_noUnique _ _ _ _ _ (uniqueId st)) by done.
    unfold composed. cbn [fst snd uniqueId freeStyle].
    rewrite (composeItems_noUnique _ _ _ _ _ (uniqueId st)) by done.
    cbn [fst snd].
    set (items := (composeItems pid "" false rl sl 0%N).1).
    destruct (addAll_twice (freeStyle st) items Hwf) as (Hev & Hch & Hsh & Hk & _).
    done.
  - unfold registerHashRule.
    pose proof (stylize_noUnique "" styles None Hu) as Hno.
    destruct (stylize "" styles [] [] None) as [[pid rl] sl]. cbn [fst snd] in Hno.
    rewrite !composeStylize_items.
    rewrite (composeItems_noUnique _ _ _ _ _ (uniqueId st)) by done.
    unfold composed. cbn [fst snd uniqueId freeStyle].
    set (node := Rule _ _ _ _).
    destruct (add (freeStyle st) node) as [c1 ev1] eqn:Hadd1.
    cbn [fst snd uniqueId freeStyle].
    rewrite (composeItems_noUnique _ _ _ _ _ (uniqueId st)) by done.
    cbn [fst snd]. fold node.
    destruct (add_twice (freeStyle st) node Hwf) as (Hev & Hch & Hsh & Hk).
    rewrite Hadd1 in Hev, Hch, Hsh, Hk. cbn [fst] in *.
    by destruct (add c1 node) as [c2 ev2].
Qed.

Lemma register_rule_twice_witness :
  let styles := [("from", VStyles [("opacity", VProperty (PNumber (JS.Fin 0 0)))]);
                 ("to", VStyles [("opacity", VProperty (PNumber (JS.Fin 1 0)))])] in
  reachable (freeStyle (create 0)) ∧ uniqueFree styles = true ∧
  (registerKeyframes true styles (registerKeyframes true styles (create 0)).1.2).2 = [].
Proof.
  intros styles. split; [apply reachable_new|]. split; [reflexivity|].
  exact (proj1 (proj2 (proj2 (register_rule_twice true "@keyframes" "" styles (create 0)
                                reachable_new eq_refl)))).
Defined.

(** X19: [values()] of a cache built by [add] and [remove] returns one
    stored node per id of the order list, in that order, and the text list
    holds the rendered texts of these nodes: the stylesheet text of the
    cache is the concatenation of the texts of its values. *)
Theorem values_in_insertion_order (c : Cache) :
  reachable c →
  nodeId <$> values c = _keys c ∧
  getStyles <$> values c = sheet c ∧
  join (sheet c) = join (getStyles <$> values c).
Proof.
  intros Hwf%reachable_wf.
  split; [by apply values_ids|]. split; [by apply values_texts|].
  by rewrite values_texts.
Qed.

Lemma values_in_insertion_order_witness :
  let c := (add (add emptyCache (Selector ".a" "k1")).1 (Selector ".b" "k2")).1 in
  reachable c ∧ nodeId <$> values c = _keys c.
Proof.
  intros c.
  assert (reachable c) as Hr by apply reachable_add, reachable_add, reachable_new.
  split; [exact Hr|]. exact (proj1 (values_in_insertion_order c Hr)).
Defined.

(** ** An invariant of the program state *)

Lemma addAll_reachable this styles : reachable this → reachable (addAll this styles).1.
Proof.
  intros Hr. induction styles as [|n styles IH] using rev_ind; [done|].
  rewrite addAll_snoc. cbn [fst]. by apply reachable_add.
Qed.

Lemma composed_fresh cache items u u' :
  wf_cache cache → freshAbove u cache → (u ≤ u')%N →
  Forall (λ n, idBetween u u' (nodeId n)) items →
  freshAbove u' (addAll cache items).1.
Proof.
  intros Hwf Hfresh Hle Hids n Hn Hin.
  apply addAll_keys_elem in Hin; [|done]. destruct Hin as [Hin|Hin].
  - revert Hin. apply Hfresh. lia.
  - apply list_elem_of_fmap in Hin as (node & Heq & Hnode).
    rewrite Forall_forall in Hids.
    eapply idBetween_not_unique; [exact (Hids node Hnode)| |by symmetry]. lia.
Qed.

(** X20: [uniqueId] only grows, and no stored id runs ahead of it.  Every
    registration leaves [uniqueId] at least as large as it was, keeps the
    cache among those built by [add] and [remove], and keeps the property
    that no id of the order list is the id of a unique style for a value
    that [uniqueId] has not reached; a new instance has this property.  So
    the id taken for the next unique style is never in use. *)
Theorem registrations_keep_unique_ids_fresh
    (production : bool) (rule : string) (styles : Styles) (st : State) (uid : N) :
  reachable (freeStyle st) →
  freshAbove (uniqueId st) (freeStyle st) →
  (reachable (freeStyle (create uid)) ∧
   freshAbove (uniqueId (create uid)) (freeStyle (create uid))) ∧
  ((uniqueId st ≤ uniqueId (registerStyle production styles st).1.2)%N ∧
   reachable (freeStyle (registerStyle production styles st).1.2) ∧
   freshAbove (uniqueId (registerStyle production styles st).1.2)
              (freeStyle (registerStyle production styles st).1.2)) ∧
  ((uniqueId st ≤ uniqueId (registerRule rule styles st).1)%N ∧
   reachable (freeStyle (registerRule rule styles st).1) ∧
   freshAbove (uniqueId (registerRule rule styles st).1)
              (freeStyle (registerRule rule styles st).1)) ∧
  (uniqueStyleId (uniqueId st + 1) ∉ _keys (freeStyle st)).
Proof.
  intros Hr Hfresh. pose proof (reachable_wf _ Hr) as Hwf.
  split; [|split; [|split]].
  - split; [apply reachable_new|]. intros n _ Hin. by apply elem_of_nil in Hin.
  - rewrite registerStyle_items. cbn [fst snd uniqueId freeStyle].
    match goal with
    | |- context [composeItems ?p ?c ?b ?rl ?sl ?u] =>
        destruct (composeItems_ids p c b rl sl u) as [Hle Hids]
    end.
    split; [done|]. split; [by apply addAll_reachable|].
    by eapply composed_fresh.
  - unfold registerRule.
    destruct (stylize rule styles [] [] None) as [[pid rl] sl].
    rewrite composeStylize_items. unfold composed. cbn [fst snd uniqueId freeStyle].
    destruct (composeItems_ids pid "" false rl sl (uniqueId st)) as [Hle Hids].
    split; [done|]. split; [by apply addAll_reachable|].
    by eapply composed_fresh.
  - apply Hfresh. lia.
Qed.

Lemma registrations_keep_unique_ids_fresh_witness :
  let st := (registerStyle true [("$unique", VProperty (PBoolean true)); ("color", red)]
               (create 0)).1.2 in
  reachable (freeStyle st) ∧ freshAbove (uniqueId st) (freeStyle st) ∧
  (uniqueStyleId (uniqueId st + 1) ∉ _keys (freeStyle st)).
Proof.
  intros st.
  assert (freshAbove (uniqueId (create 0)) (freeStyle (create 0))) as Hf0.
  { intros n _ Hin. by apply elem_of_nil in Hin. }
  destruct (proj1 (proj2 (registrations_keep_unique_ids_fresh true ""
              [("$unique", VProperty (PBoolean true)); ("color", red)] (create 0) 0
              reachable_new Hf0))) as (_ & Hr & Hf).
  split; [exact Hr|]. split; [exact Hf|].
  exact (proj2 (proj2 (proj2 (registrations_keep_unique_ids_fresh true "" [] st 0
                                Hr Hf)))).
Defined.

(* ================================================================== *)
(** * Class names as replacement text *)
(* ================================================================== *)

Lemma escapeClass_neq c d :
  escapeClass d = true → escapeClass c = false → Ascii.eqb c d = false.
Proof.
  intros Hd Hc. destruct (Ascii.eqb_spec c d) as [->|_]; [congruence|done].
Qed.

Lemma getSubstitution_backslash matched before after rest :
  Replace.getSubstitution matched before after false (String "\" rest)
  = String "\" (Replace.getSubstitution matched before after false rest) ∧
  Replace.getSubstitution matched before after true (String "\" rest)
  = String "$" (String "\" (Replace.getSubstitution matched before after false rest)).
Proof. split; reflexivity. Qed.

(** In the result of [escape] no dollar sign starts a replacement pattern:
    as a replacement text it stands for itself, also after a pending
    dollar sign. *)
Lemma getSubstitution_escaped matched before after str :
  let t := Replace.replaceWith escapeClass (λ c, String "\" (String c "")) str in
  Replace.getSubstitution matched before after false t = t ∧
  Replace.getSubstitution matched before after true t = String "$" t.
Proof.
  induction str as [|c str [IH1 IH2]]; [done|].
  cbn [Replace.replaceWith]. destruct (escapeClass c) eqn:Hc.
  - change (String "\" (String c "") +:+ ?r) with (String "\" (String c r)).
    destruct (getSubstitution_backslash matched before after
                (String c (Replace.replaceWith escapeClass
                             (λ c, String "\" (String c "")) str))) as [-> ->].
    assert (Replace.getSubstitution matched before after false
              (String c (Replace.replaceWith escapeClass
                           (λ c, String "\" (String c "")) str))
            = String c (Replace.replaceWith escapeClass
                          (λ c, String "\" (String c "")) str)) as ->; [|done].
    cbn [Replace.getSubstitution].
    destruct (Ascii.eqb_spec c "$") as [->|_]; by rewrite ?IH1, ?IH2.
  - pose proof (escapeClass_neq c "$" eq_refl Hc) as H1.
    pose proof (escapeClass_neq c "&" eq_refl Hc) as H2.
    pose proof (escapeClass_neq c "`" eq_refl Hc) as H3.
    pose proof (escapeClass_neq c "'" eq_refl Hc) as H4.
    cbn [Replace.getSubstitution]. rewrite H1, H2, H3, H4, IH1. done.
Qed.

Lemma getSubstitution_cons_plain matched before after c rest :
  Ascii.eqb c "$" = false →
  Replace.getSubstitution matched before after false (String c rest)
  = String c (Replace.getSubstitution matched before after false rest).
Proof. intros H. cbn [Replace.getSubstitution]. by rewrite H. Qed.

Lemma replaceFrom_verbatim parent before selector :
  (∀ matched before after,
     Replace.getSubstitution matched before after false parent = parent) →
  Replace.replaceFrom (Ascii.eqb "&") parent before selector
  = substituteAmpersand parent selector.
Proof.
  intros Hp. revert before.
  induction selector as [|c rest IH]; intros before; simpl; [done|].
  rewrite (Ascii.eqb_sym c "&"). destruct (Ascii.eqb "&" c).
  - by rewrite Hp, IH.
  - by rewrite IH.
Qed.

Lemma interpolate_classSelector production pid selector styles :
  interpolate selector (classSelector production (key production pid styles))
  = if JS.contains "&" selector
    then substituteAmpersand (classSelector production (key production pid styles))
           selector
    else classSelector production (key production pid styles) +:+ " " +:+ selector.
Proof.
  unfold interpolate, Replace.replaceAll.
  destruct (JS.contains "&" selector); [|done]. cbn [negb].
  apply replaceFrom_verbatim. intros matched before after.
  unfold classSelector. destruct production.
  - unfold key. cbn [orb].
    apply getSubstitution_plain. simpl.
    destruct (toString36_chars (Z.to_N (toUint32 (stringHashLoop pid 5381)))) as [H _].
    unfold stringHash. clear -H.
    induction (JS.toString36 _) as [|c s IH]; [done|].
    simpl in H. apply andb_true_iff in H as [Hc Hs]. simpl.
    destruct (Ascii.eqb_spec "$" c) as [<-|_]; [discriminate|]. by apply IH.
  - change ("." +:+ ?s) with (String "." s).
    rewrite getSubstitution_cons_plain by done. f_equal.
    rewrite escape_replaceWith. apply getSubstitution_escaped.
Qed.

(** X21: the class selector of a registration is always inserted as it is.
    In production mode it consists of a dot, the letter [f] and a hash; in
    the other mode it is escaped, and in an escaped string no dollar sign
    starts a replacement pattern.  So [interpolate] with the class selector
    as parent is the textual substitution, whatever [$displayName] is. *)
Theorem class_selector_is_inserted_verbatim
    (production : bool) (pid selector : string) (styles : Styles) :
  let className := classSelector production (key production pid styles) in
  interpolate selector className
  = if JS.contains "&" selector then substituteAmpersand className selector
    else className +:+ " " +:+ selector.
Proof. apply interpolate_classSelector. Qed.

(* ================================================================== *)
(** * What a registration renders *)
(* ================================================================== *)

Lemma append_empty_r (s : string) : s +:+ "" = s.
Proof.
  induction s as [|c s IH]; [done|].
  change (String c s +:+ "") with (String c (s +:+ "")). by rewrite IH.
Qed.

(** The text of the [Style] node made for one entry of [stylesList]: its
    selector, then its declarations in braces. *)
Lemma styleItem_text pid className isStyle s u :
  wf_node (styleItem pid className isStyle s u).1 ∧
  getStyles (styleItem pid className isStyle s u).1
  = (if isStyle then interpolate (ss_selector s) className else ss_selector s)
    +:+ "{" +:+ ss_style s +:+ "}".
Proof.
  unfold styleItem. cbn [fst snd].
  set (k := if isStyle then _ else _).
  rewrite add_fresh; [|apply wf_emptyCache|done]. cbn [fst].
  split.
  - constructor. change (wf_cache (add emptyCache
      (Selector k ("k" +:+ NUL +:+ pid +:+ NUL +:+ k))).1) || idtac.
    pose proof (add_wf emptyCache (Selector k ("k" +:+ NUL +:+ pid +:+ NUL +:+ k))
                  wf_emptyCache) as H.
    rewrite add_fresh in H; [|apply wf_emptyCache|done]. exact H.
  - reflexivity.
Qed.

(** The outcome of [stylize] for the outermost node of [registerStyle] when
    the tree has declarations and no nested entry. *)
Lemma stylize_flat (styles : Styles) :
  parseNested styles = [] → p_style (parseStyles styles true) ≠ "" →
  stylize "&" styles [] [] None
  = (p_style (parseStyles styles true), [], [rootStyle styles]).
Proof.
  intros Hnested Hstyle. rewrite stylize_unfold. unfold stylizeBody.
  rewrite bool_decide_eq_false_2 by discriminate.
  change (negb (String.eqb "&" "")) with true.
  assert (stringTruthy (p_style (parseStyles styles true)) = true) as ->.
  { unfold stringTruthy. apply negb_true_iff. by apply String.eqb_neq. }
  cbn [p_nested parseStyles]. rewrite Hnested. reflexivity.
Qed.

(** X22: on a new instance, a style object that has declarations and no
    nested entry is rendered as one CSS rule: the class selector of the
    returned id, then the declarations in braces.  The id is the key of the
    declarations text, and the listener receives one [add] notification,
    for index 0, whose item renders the stylesheet text. *)
Theorem flat_style_renders_one_rule
    (production : bool) (styles : Styles) (uid : N) :
  parseNested styles = [] →
  p_style (parseStyles styles true) ≠ "" →
  let style := p_style (parseStyles styles true) in
  let r := registerStyle production styles (create uid) in
  r.1.1 = key production style styles ∧
  getStylesheet r.1.2
  = classSelector production r.1.1 +:+ "{" +:+ style +:+ "}" ∧
  ∃ item, r.2 = [Added item 0] ∧ getStyles item = getStylesheet r.1.2.
Proof.
  intros Hnested Hstyle. cbv zeta.
  rewrite registerStyle_items. rewrite stylize_flat by done.
  cbn [fst snd uniqueId freeStyle create].
  fold (classSelector production
          (key production (p_style (parseStyles styles true)) styles)).
  rewrite composeItems_cons. cbn [fst snd].
  destruct (styleItem_text (p_style (parseStyles styles true))
              (classSelector production
                 (key production (p_style (parseStyles styles true)) styles)) true
              (rootStyle styles) (uid + 1)%N) as [Hwf Htext].
  cbn [rootStyle ss_selector ss_style] in Htext.
  rewrite (interpolate_classSelector production _ "&" styles) in Htext.
  change (JS.contains "&" "&") with true in Htext.
  cbv iota in Htext.
  set (id := key production _ styles) in *.
  assert (substituteAmpersand (classSelector production id) "&"
          = classSelector production id) as Hamp.
  { change (classSelector production id +:+ "" = classSelector production id).
    apply append_empty_r. }
  rewrite Hamp in Htext.
  set (item := (styleItem _ _ true (rootStyle styles) (uid + 1)%N).1) in *.
  unfold composeItems, styleItems, ruleItems. cbn [foldl fst snd].
  unfold addAll. cbn [foldl].
  rewrite add_fresh; [|apply wf_emptyCache|done].
  cbn [fst snd app]. unfold getStylesheet. cbn [freeStyle sheet emptyCache app].
  rewrite clone_text by done. rewrite Htext.
  split; [done|]. split; [done|].
  eexists. split; [reflexivity|]. rewrite clone_text by done. by rewrite Htext.
Qed.

Lemma flat_style_renders_one_rule_witness :
  let styles := [("color", red)] in
  parseNested styles = [] ∧ p_style (parseStyles styles true) ≠ "" ∧
  getStylesheet (registerStyle false styles (create 0)).1.2
  = classSelector false (registerStyle false styles (create 0)).1.1
    +:+ "{" +:+ p_style (parseStyles styles true) +:+ "}".
Proof.
  intros styles.
  assert (p_style (parseStyles styles true) ≠ "") as Hs by discriminate.
  split; [reflexivity|]. split; [exact Hs|].
  exact (proj1 (proj2 (flat_style_renders_one_rule false styles 0 eq_refl Hs))).
Defined.

(** The outcome of [stylize] for a tree that consists of one at-rule with
    declarations. *)
Lemma stylize_at_rule (name : string) (sub : Styles) :
  JS.trim name = name → JS.charCodeAt0 name = Some 64 →
  parseNested sub = [] → p_style (parseStyles sub true) ≠ "" →
  stylize "&" [(name, VStyles sub)] [] [] None
  = (name +:+ p_style (parseStyles sub true),
     [ {| sr_selector := name; sr_style := "";
          sr_rules := [];
          sr_styles := [ {| ss_selector := "&";
                            ss_style := p_style (parseStyles sub true);
                            ss_isUnique := p_isUnique (parseStyles sub true) |} ] |} ],
     []).
Proof.
  intros Htrim Hat Hnested Hstyle.
  assert (String.eqb name "" = false) as Hne.
  { apply String.eqb_neq. intros ->. discriminate. }
  assert (stringTruthy (p_style (parseStyles sub true)) = true) as Htruthy.
  { unfold stringTruthy. apply negb_true_iff. by apply String.eqb_neq. }
  set (P := parseStyles sub true) in *.
  rewrite stylize_unfold. unfold stylizeBody at 1.
  rewrite bool_decide_eq_false_2 by discriminate.
  change (negb (String.eqb "&" "")) with true.
  cbn [parseStyles p_style p_nested p_isUnique parseProperties parseNested].
  rewrite Htrim, Hat. rewrite bool_decide_eq_false_2 by discriminate.
  cbn [negb]. change (stringifyProperties (sortTuples [])) with "".
  change (stringTruthy "") with false. cbv iota.
  cbn [foldl]. unfold stylizeNested at 1. cbn [fst snd].
  rewrite stylize_unfold. unfold stylizeBody.
  rewrite Hat. rewrite bool_decide_eq_true_2 by done.
  rewrite Hne. cbn [negb]. fold P. rewrite Htruthy.
  change (stringTruthy "&") with true. cbn [andb parentTruthy].
  assert (p_nested P = []) as -> by exact Hnested.
  reflexivity.
Qed.

Lemma interpolate_amp_classSelector production pid styles :
  interpolate "&" (classSelector production (key production pid styles))
  = classSelector production (key production pid styles).
Proof.
  rewrite interpolate_classSelector.
  change (JS.contains "&" "&") with true. cbv iota.
  change (substituteAmpersand ?p "&") with (p +:+ "").
  apply append_empty_r.
Qed.

(** X23: on a new instance, a style object that consists of one at-rule
    with declarations (and nothing nested in it) is rendered as the at-rule
    wrapped around one CSS rule: the class selector of the returned id with
    the declarations.  The id is the key of the at-rule name followed by the
    declarations text. *)
Theorem at_rule_wraps_class_rule
    (production : bool) (name : string) (sub : Styles) (uid : N) :
  JS.trim name = name → JS.charCodeAt0 name = Some 64 →
  parseNested sub = [] → p_style (parseStyles sub true) ≠ "" →
  let styles := [(name, VStyles sub)] in
  let style := p_style (parseStyles sub true) in
  let r := registerStyle production styles (create uid) in
  r.1.1 = key production (name +:+ style) styles ∧
  getStylesheet r.1.2
  = name +:+ "{" +:+
      (classSelector production r.1.1 +:+ "{" +:+ style +:+ "}") +:+ "}".
Proof.
  intros Htrim Hat Hnested Hstyle. cbv zeta.
  rewrite registerStyle_items. rewrite stylize_at_rule by done.
  cbn [fst snd uniqueId freeStyle create].
  fold (classSelector production
          (key production (name +:+ p_style (parseStyles sub true))
             [(name, VStyles sub)])).
  unfold composeItems, styleItems, ruleItems. cbn [foldl fst snd].
  set (pid := name +:+ p_style (parseStyles sub true)).
  set (cn := classSelector production _).
  set (s := {| ss_selector := "&"; ss_style := p_style (parseStyles sub true);
               ss_isUnique := p_isUnique (parseStyles sub true) |}).
  cbn [composeRule sr_styles sr_rules sr_selector sr_style].
  unfold composeStyles. cbn [foldl]. unfold composeStyle.
  destruct (styleItem_text pid cn true s (uid + 1)%N) as [Hwf Htext].
  destruct (styleItem pid cn true s (uid + 1)%N) as [item u'].
  cbn [fst snd] in Hwf, Htext.
  unfold cn in Htext at 1. cbn [s ss_selector ss_style] in Htext.
  rewrite interpolate_amp_classSelector in Htext. fold cn in Htext.
  pose proof (add_wf emptyCache item wf_emptyCache) as Hwf1.
  rewrite add_fresh in Hwf1 by (first [apply wf_emptyCache | done]).
  rewrite add_fresh by (first [apply wf_emptyCache | done]).
  cbn [fst snd app] in Hwf1 |- *.
  unfold addAll. cbn [foldl].
  rewrite add_fresh; [|apply wf_emptyCache|done].
  cbn [fst snd app]. unfold getStylesheet. cbn [freeStyle sheet emptyCache app].
  rewrite clone_text by (by constructor).
  cbn [getStyles sheet emptyCache app].
  rewrite clone_text by done. rewrite Htext.
  split; reflexivity.
Qed.

Lemma at_rule_wraps_class_rule_witness :
  let name := "@media print" in
  let sub := [("color", red)] in
  JS.trim name = name ∧ JS.charCodeAt0 name = Some 64 ∧
  parseNested sub = [] ∧ p_style (parseStyles sub true) ≠ "" ∧
  getStylesheet (registerStyle true [(name, VStyles sub)] (create 0)).1.2
  = name +:+ "{" +:+
      (classSelector true (registerStyle true [(name, VStyles sub)] (create 0)).1.1
       +:+ "{" +:+ p_style (parseStyles sub true) +:+ "}") +:+ "}".
Proof.
  intros name sub.
  assert (p_style (parseStyles sub true) ≠ "") as Hs by discriminate.
  split; [reflexivity|]. split; [reflexivity|]. split; [reflexivity|].
  split; [exact Hs|].
  exact (proj2 (at_rule_wraps_class_rule true name sub 0 eq_refl eq_refl eq_refl Hs)).
Defined.

(* ================================================================== *)
(** * Reference counting: the slot of a shared id *)
(* ================================================================== *)

(** A counter above one: [remove] keeps the order list and changes the
    text list at most at the index of the id. *)
Lemma remove_shared_sheet this style :
  wf_cache this → (1 < counter this (nodeId style))%nat →
  _keys (remove this style).1 = _keys this ∧
  ∃ i : nat, _keys this !! i = Some (nodeId style) ∧
    (sheet (remove this style).1 = sheet this ∨
     ∃ text, sheet (remove this style).1 = <[i := text]> (sheet this)).
Proof.
  intros Hwf Hc.
  assert (nodeId style ∈ _keys this) as Hin.
  { rewrite wf_keys_counter by done. lia. }
  destruct (indexOf_lookup _ _ Hin) as (i0 & Hidx & Hi0).
  destruct (wf_aligned _ Hwf) as [Hlen _].
  assert (i0 < length (sheet this))%nat as Hlt.
  { rewrite Hlen. by eapply lookup_lt_Some. }
  rewrite remove_unfold. unfold removeWith.
  rewrite bool_decide_eq_false_2 by lia.
  pose proof Hin as [item Hitem]%(wf_keys_children _ _ Hwf). rewrite Hitem.
  destruct (wf_child _ _ _ Hwf Hitem) as [Hid _]. rewrite Hid.
  rewrite bool_decide_eq_false_2 by lia.
  repeat case_match; fields; (split; [done|]); exists i0; (split; [done|]);
    try (by left);
    right; rewrite Hidx, splice_replace by done; eauto.
Qed.

(** The slot of an id that is last in the order list. *)
Lemma last_slot (keys : list string) (texts : list string) id (i : nat) t text :
  id ∉ keys → length texts = length keys →
  (keys ++ [id]) !! i = Some id →
  <[i := text]> (texts ++ [t]) = texts ++ [text].
Proof.
  intros Hnotin Hlen Hi.
  destruct (decide (i < length keys)%nat) as [Hlt|Hge].
  - rewrite lookup_app_l in Hi by done.
    apply list_elem_of_lookup_2 in Hi. done.
  - assert (i = length texts) as ->.
    { apply lookup_lt_Some in Hi. rewrite length_app in Hi. simpl in Hi. lia. }
    rewrite insert_app_r_alt by lia. by rewrite Nat.sub_diag.
Qed.

(** Calls of [add] with nodes of an id that [c] has no counter for put the
    id at the end of the order list and one text at the end of the text
    list; the lists of [c] stay in front of them. *)
Lemma addAll_same_id (c : Cache) id adds :
  wf_cache c → counter c id = O → adds ≠ [] →
  Forall (λ n, nodeId n = id) adds →
  _keys (addAll c adds).1 = _keys c ++ [id] ∧
  ∃ t, sheet (addAll c adds).1 = sheet c ++ [t].
Proof.
  intros Hwf Hzero.
  assert (id ∉ _keys c) as Hnotin.
  { rewrite wf_keys_counter by done. lia. }
  destruct (wf_aligned _ Hwf) as [Hlen _].
  induction adds as [|n adds IH] using rev_ind; intros Hne Hall; [done|].
  apply Forall_app in Hall as [Hall Hn]. rewrite Forall_singleton in Hn.
  rewrite addAll_snoc. cbn [fst].
  destruct adds as [|n0 adds0].
  - cbn [addAll foldl fst]. rewrite add_fresh by (by rewrite ?Hn).
    fields. rewrite Hn. eauto.
  - destruct IH as [Hkeys [t Hsheet]]; [done..|].
    set (c' := (addAll c (n0 :: adds0)).1) in *.
    assert (wf_cache c') as Hwf' by (by apply addAll_wf).
    destruct (add_present c' n Hwf') as [Hk (i & Hi & Hs)].
    { rewrite Hkeys, Hn. apply elem_of_app. right. by left. }
    split; [by rewrite Hk|].
    destruct Hs as [->|[text ->]]; [by eauto|].
    exists text. rewrite Hsheet.
    rewrite Hkeys, Hn in Hi. by eapply last_slot.
Qed.

(** Calls of [remove] with nodes of that id, fewer than its counter, keep
    this shape. *)
Lemma removeAll_same_id (c c1 : Cache) id rems :
  id ∉ _keys c → length (sheet c) = length (_keys c) →
  wf_cache c1 →
  _keys c1 = _keys c ++ [id] → (∃ t, sheet c1 = sheet c ++ [t]) →
  Forall (λ n, nodeId n = id) rems →
  (length rems < counter c1 id)%nat →
  _keys (removeAll c1 rems).1 = _keys c ++ [id] ∧
  ∃ t, sheet (removeAll c1 rems).1 = sheet c ++ [t].
Proof.
  intros Hnotin Hlen Hwf1 Hkeys Hsheet.
  induction rems as [|n rems IH] using rev_ind; intros Hall Hlt; [done|].
  apply Forall_app in Hall as [Hall Hn]. rewrite Forall_singleton in Hn.
  rewrite length_app in Hlt. simpl in Hlt.
  destruct IH as [Hk2 [t Hs2]]; [done|lia|].
  rewrite removeAll_snoc. cbn [fst].
  set (c' := (removeAll c1 rems).1) in *.
  assert (wf_cache c') as Hwf' by (by apply removeAll_wf).
  destruct (remove_shared_sheet c' n Hwf') as [Hk (i & Hi & Hs)].
  { rewrite Hn. unfold c'. rewrite removeAll_counter by done. lia. }
  split; [by rewrite Hk|].
  destruct Hs as [->|[text ->]]; [by eauto|].
  exists text. rewrite Hs2.
  rewrite Hk2, Hn in Hi. by eapply last_slot.
Qed.

(** C3: [remove] of a node whose id has no counter (never added, or removed
    as often as added) returns the cache unchanged and sends nothing.  After
    [N] calls of [add] with nodes of one id that had no counter, and [N-1]
    calls of [remove], the id is still the last entry of the order list and
    the text of its stored node is the last entry of the text list, behind
    the unchanged lists of the cache before the calls; no [remove]
    notification was sent.  The [N]th call of [remove] deletes exactly this
    slot, so that the order list and the text list are those of the cache
    before the calls, deletes the counter and the child, and sends exactly
    one [remove] notification, with the stored node and the index of the
    slot; one more call is a no-op. *)
Theorem C3_refcount_gated_removal
    (c : Cache) (id : string) (adds rems : list Node) (last : Node) :
  reachable c →
  counter c id = O →
  Forall (λ n, nodeId n = id) adds →
  Forall (λ n, nodeId n = id) rems →
  nodeId last = id →
  length adds = S (length rems) →
  let c1 := (addAll c adds).1 in
  let c2 := (removeAll c1 rems).1 in
  let c3 := (remove c2 last).1 in
  remove c last = (c, []) ∧
  id ∈ _keys c2 ∧
  (∃ (i : nat) text, _keys c2 !! i = Some id ∧ sheet c2 !! i = Some text) ∧
  Forall (λ ch, isRemoved ch = false) (removeAll c1 rems).2 ∧
  (∃ item index, (remove c2 last).2 = [Removed item index] ∧ nodeId item = id) ∧
  (id ∉ _keys c3) ∧
  length (sheet c3) = pred (length (sheet c2)) ∧
  _counters c3 !! id = None ∧
  childrenGet id (_children c3) = None ∧
  remove c3 last = (c3, []) ∧
  _keys c2 = _keys c ++ [id] ∧
  (∃ item,
     childrenGet id (_children c2) = Some item ∧
     nodeId item = id ∧
     sheet c2 = sheet c ++ [getStyles item] ∧
     remove c2 last
     = ({| sheet := sheet c;
           changeId := S (changeId c2);
           _keys := _keys c;
           _children := childrenDelete id (_children c2);
           _counters := delete id (_counters c2) |},
        [Removed item (Z.of_nat (length (_keys c)))])).
Proof.
  intros Hwf%reachable_wf Hzero Hadds Hrems Hlast Hlen c1 c2 c3.
  assert (wf_cache c1) as Hwf1 by (by apply addAll_wf).
  assert (wf_cache c2) as Hwf2 by (by apply removeAll_wf).
  assert (counter c1 id = length adds) as Hc1.
  { unfold c1. rewrite addAll_counter by done. lia. }
  assert (counter c2 id = 1%nat) as Hc2.
  { unfold c2. rewrite removeAll_counter by done. lia. }
  assert (id ∈ _keys c2) as Hin2.
  { rewrite wf_keys_counter by done. lia. }
  assert (id ∉ _keys c) as Hnotin.
  { rewrite wf_keys_counter by done. lia. }
  destruct (wf_aligned _ Hwf) as [Hlen0 _].
  destruct (addAll_same_id c id adds Hwf Hzero) as [Hk1 Hs1]; [|done|].
  { intros ->. discriminate. }
  destruct (removeAll_same_id c c1 id rems Hnotin Hlen0 Hwf1 Hk1 Hs1 Hrems)
    as [Hk2 [t Hs2]]; [lia|].
  fold c2 in Hk2, Hs2.
  subst id.
  destruct (remove_last c2 last Hwf2 Hc2)
    as (item & i & Hitem & Hi & Hev & Hkeys & Hsheet & Hcnt & Hchild).
  destruct (wf_aligned _ Hwf2) as [Hal1 Hal2].
  destruct (Hal2 _ _ Hi) as (item' & Hitem' & Hid' & Htext).
  assert (item' = item) as -> by congruence.
  assert (i = length (_keys c)) as ->.
  { rewrite Hk2 in Hi.
    destruct (decide (i < length (_keys c))%nat) as [Hlt|Hge].
    - rewrite lookup_app_l in Hi by done.
      apply list_elem_of_lookup_2 in Hi. done.
    - apply lookup_lt_Some in Hi. rewrite length_app in Hi. simpl in Hi. lia. }
  assert (t = getStyles item) as ->.
  { rewrite Hs2 in Htext.
    rewrite lookup_app_r in Htext by lia.
    rewrite Hlen0, Nat.sub_diag in Htext. simpl in Htext. congruence. }
  assert (wf_cache c3) as Hwf3 by (by apply remove_wf).
  assert (counter c3 (nodeId last) = O) as Hc3.
  { unfold counter, c3. by rewrite Hcnt. }
  split; [by apply remove_absent|].
  split; [done|].
  split; [by eauto|].
  split; [apply (removeAll_shared _ _ (nodeId last)); [done|lia]|].
  split; [exists item, (Z.of_nat (length (_keys c))); split; [done|congruence]|].
  split; [rewrite wf_keys_counter by done; lia|].
  split.
  { unfold c3. rewrite Hsheet, length_delete; [lia|].
    rewrite Htext. eauto. }
  split; [done|]. split; [done|].
  split; [by apply remove_absent|].
  split; [done|].
  exists item. split; [done|]. split; [done|]. split; [done|].
  rewrite (remove_last_eq c2 last item (length (_keys c))) by done.
  rewrite Hs2, Hk2. f_equal. f_equal.
  - rewrite <- Hlen0. rewrite delete_take_drop.
    rewrite take_app_length. rewrite drop_ge by (rewrite length_app; simpl; lia).
    by rewrite app_nil_r.
  - rewrite delete_take_drop.
    rewrite take_app_length. rewrite drop_ge by (rewrite length_app; simpl; lia).
    by rewrite app_nil_r.
Qed.

Lemma C3_refcount_gated_removal_witness :
  let c := (add emptyCache (Selector ".b" "kb")).1 in
  let n := Selector ".x" "kx" in
  reachable c ∧
  counter c "kx" = O ∧
  Forall (λ n, nodeId n = "kx") [n; n] ∧
  Forall (λ n, nodeId n = "kx") [n] ∧
  nodeId n = "kx" ∧
  length [n; n] = S (length [n]) ∧
  _keys (removeAll (addAll c [n; n]).1 [n]).1 = _keys c ++ ["kx"].
Proof.
  intros c n.
  assert (reachable c) as Hr by apply reachable_add, reachable_new.
  assert (Forall (λ m, nodeId m = "kx") [n; n]) as H2 by (repeat constructor).
  assert (Forall (λ m, nodeId m = "kx") [n]) as H1 by (repeat constructor).
  split; [exact Hr|]. split; [reflexivity|]. split; [exact H2|].
  split; [exact H1|]. split; [reflexivity|]. split; [reflexivity|].
  exact (proj1 (proj2 (proj2 (proj2 (proj2 (proj2 (proj2 (proj2 (proj2 (proj2 (proj2
           (C3_refcount_gated_removal c "kx" [n; n] [n] n
              Hr eq_refl H2 H1 eq_refl eq_refl)))))))))))).
Defined.

(* ================================================================== *)
(** * Adding a stored id: the merge in place *)
(* ================================================================== *)

(** When a call keeps the order list and changes the text list at most at
    the index of an id, the text at that index is the text of the node now
    stored for the id. *)
Lemma inplace_text (c c' : Cache) id (i : nat) :
  wf_cache c' → _keys c' = _keys c → _keys c !! i = Some id →
  (sheet c' = sheet c ∨ ∃ text, sheet c' = <[i := text]> (sheet c)) →
  ∃ item', childrenGet id (_children c') = Some item' ∧
           sheet c' = <[i := getStyles item']> (sheet c).
Proof.
  intros Hwf' Hkeys Hi Hsheet.
  destruct (wf_aligned _ Hwf') as [Hlen' Hal'].
  rewrite <- Hkeys in Hi.
  destruct (Hal' _ _ Hi) as (item' & Hitem' & _ & Htext).
  exists item'. split; [done|].
  destruct Hsheet as [Heq|[text Heq]].
  - rewrite Heq in *. by rewrite list_insert_id.
  - rewrite Heq in Htext |- *.
    rewrite list_lookup_insert_eq in Htext.
    + by injection Htext as ->.
    + apply lookup_lt_Some in Htext. by rewrite length_insert in Htext.
Qed.

(** The notification of [add] for a stored id. *)
Lemma add_present_event this style item (i : nat) :
  wf_cache this →
  _keys this !! i = Some (nodeId style) →
  childrenGet (nodeId style) (_children this) = Some item →
  (add this style).2
  = match asCache item, asCache style with
    | Some ic, Some sc =>
        if bool_decide (changeId (merge ic sc) ≠ changeId ic)
        then [Changed (setCache item (merge ic sc)) (Z.of_nat i) (Z.of_nat i)]
        else []
    | _, _ => []
    end.
Proof.
  intros Hwf Hi Hitem.
  assert (nodeId style ∈ _keys this) as Hin by (by eapply list_elem_of_lookup_2).
  destruct (indexOf_lookup _ _ Hin) as (i0 & Hidx & Hi0).
  assert (i0 = i) as -> by (eapply NoDup_lookup; [by apply wf_NoDup|done..]).
  pose proof Hin as Hc. rewrite wf_keys_counter in Hc by done.
  rewrite add_unfold. unfold addWith.
  rewrite bool_decide_eq_false_2 by lia. rewrite Hitem, Hidx.
  unfold mergeNode.
  destruct (asCache item) as [ic|], (asCache style) as [sc|]; try done.
  by case_bool_decide.
Qed.

(** [target.merge(cache)] keeps the entries of [target] in front, in their
    order, and leaves every entry of [cache] present in [target]. *)
Lemma merge_keys (target cache : Cache) :
  wf_cache target →
  _keys target `prefix_of` _keys (merge target cache) ∧
  ∀ m, m ∈ values cache → nodeId m ∈ _keys (merge target cache).
Proof.
  intros Hwf. unfold merge. rewrite <- addAll_fst.
  split; [apply addAll_keys_prefix|].
  intros m Hm. rewrite wf_keys_counter by (by apply addAll_wf).
  rewrite addAll_counter_occurrences. unfold occurrences.
  assert (m ∈ filter (λ n, nodeId n = nodeId m) (values cache)) as Hin.
  { by apply list_elem_of_filter. }
  destruct (filter _ (values cache)); [by apply elem_of_nil in Hin|].
  simpl. lia.
Qed.

(** C9: the order list only grows at its end and only loses the id that is
    removed, so the ids that stay present keep their relative order, and
    every [change] notification of [add] and [remove] carries the same
    index twice.  Adding a node whose id is already stored leaves the order
    list as it is.  When the stored node and the added node are both
    caches, the stored node becomes the stored node merged with the added
    one: its own entries stay in front, in their order, and every entry of
    the added node is present in it.  The text list is the old one with the
    text at the index of the id replaced by the text of the node now
    stored, the nodes stored for the other ids are untouched, and the
    notification, sent exactly when the merge moved the change counter of
    the stored node, is [change] with the node now stored and the index of
    the id twice. *)
Theorem C9_insertion_order_preserved (c : Cache) (n : Node) :
  reachable c →
  _keys c `prefix_of` _keys (add c n).1 ∧
  (nodeId n ∈ _keys c →
   _keys (add c n).1 = _keys c ∧
   ∃ i : nat, _keys c !! i = Some (nodeId n) ∧
     (sheet (add c n).1 = sheet c ∨
      ∃ text, sheet (add c n).1 = <[i := text]> (sheet c))) ∧
  Forall changeInPlace (add c n).2 ∧
  _keys (remove c n).1 `sublist_of` _keys c ∧
  (∀ k, k ∈ _keys c → k ≠ nodeId n → k ∈ _keys (remove c n).1) ∧
  Forall changeInPlace (remove c n).2 ∧
  (nodeId n ∈ _keys c →
   ∃ (i : nat) (item : Node),
     _keys c !! i = Some (nodeId n) ∧
     childrenGet (nodeId n) (_children c) = Some item ∧
     let item' :=
       match asCache item, asCache n with
       | Some ic, Some sc => setCache item (merge ic sc)
       | _, _ => item
       end in
     childrenGet (nodeId n) (_children (add c n).1) = Some item' ∧
     sheet (add c n).1 = <[i := getStyles item']> (sheet c) ∧
     (add c n).2
     = match asCache item, asCache n with
       | Some ic, Some sc =>
           if bool_decide (changeId (merge ic sc) ≠ changeId ic)
           then [Changed item' (Z.of_nat i) (Z.of_nat i)]
           else []
       | _, _ => []
       end ∧
     (∀ k, k ≠ nodeId n →
           childrenGet k (_children (add c n).1) = childrenGet k (_children c)) ∧
     (∀ ic sc, asCache item = Some ic → asCache n = Some sc →
               _keys ic `prefix_of` _keys (merge ic sc) ∧
               ∀ m, m ∈ values sc → nodeId m ∈ _keys (merge ic sc))) ∧
  ((1 < counter c (nodeId n))%nat →
   _keys (remove c n).1 = _keys c ∧
   ∃ (i : nat) (item' : Node),
     _keys c !! i = Some (nodeId n) ∧
     childrenGet (nodeId n) (_children (remove c n).1) = Some item' ∧
     sheet (remove c n).1 = <[i := getStyles item']> (sheet c)).
Proof.
  intros Hwf%reachable_wf.
  split; [|split; [|split; [|split; [|split; [|split; [|split]]]]]].
  - destruct (add_keys c n) as [->|(_ & k & ->)]; [done|by apply prefix_app_r].
  - by apply add_present.
  - apply add_changeInPlace.
  - destruct (remove_keys c n Hwf) as [->|(_ & i & _ & -> & _)]; [done|].
    apply sublist_delete.
  - intros k Hk Hne.
    destruct (remove_keys c n Hwf) as [->|(_ & i & Hi & -> & _)]; [done|].
    apply list_elem_of_lookup in Hk as [j Hj].
    assert (j ≠ i) by congruence.
    apply list_elem_of_lookup.
    destruct (decide (j < i)%nat).
    + exists j. by rewrite list_lookup_delete_lt.
    + exists (pred j). rewrite list_lookup_delete_ge by lia.
      by replace (S (pred j)) with j by lia.
  - apply remove_changeInPlace.
  - intros Hin.
    destruct (add_present c n Hwf Hin) as [Hkeys (i & Hi & Hsheet)].
    pose proof Hin as [item Hitem]%(wf_keys_children _ _ Hwf).
    destruct (wf_child _ _ _ Hwf Hitem) as [_ Hwfitem].
    exists i, item. split; [done|]. split; [done|]. cbv zeta.
    pose proof (add_children c n (nodeId n) Hwf) as Hstored.
    rewrite decide_True in Hstored by done.
    unfold storedAfterAdd, mergeNode in Hstored. rewrite Hitem in Hstored.
    assert (match asCache item, asCache n with
            | Some ic, Some sc => setCache item (merge ic sc)
            | _, _ => item
            end
            = match asCache item with
              | Some ic =>
                  match asCache n with
                  | Some _ =>
                      setCache item
                        match asCache n with
                        | Some sc => merge ic sc
                        | None => ic
                        end
                  | None => item
                  end
              | None => item
              end) as Heq.
    { by destruct (asCache item), (asCache n). }
    rewrite <- Heq in Hstored. clear Heq.
    split; [exact Hstored|].
    split.
    { destruct (inplace_text c (add c n).1 (nodeId n) i) as (item' & Hitem' & Hs);
        [by apply add_wf|done..|].
      rewrite Hstored in Hitem'. by injection Hitem' as <-. }
    split.
    { rewrite (add_present_event c n item i) by done.
      by destruct (asCache item), (asCache n). }
    split.
    { intros k Hk. rewrite add_children by done. by rewrite decide_False. }
    intros ic sc Hic Hsc. apply merge_keys.
    by eapply wf_node_asCache.
  - intros Hc.
    destruct (remove_shared_sheet c n Hwf Hc) as [Hkeys (i & Hi & Hsheet)].
    split; [done|].
    destruct (inplace_text c (remove c n).1 (nodeId n) i) as (item' & Hitem' & Hs);
      [by apply remove_wf|done..|].
    by exists i, item'.
Qed.

(** The check of C9 on a cache with two styles: the first style is added
    again with another selector, which is merged into the stored style. *)
Example merge_in_place_sheet :
  let selA := (add emptyCache (Selector ".a" "ka")).1 in
  let selB := (add emptyCache (Selector ".b" "kb")).1 in
  let selC := (add emptyCache (Selector ".c" "kc")).1 in
  let c := (addAll emptyCache
              [Style "color:red" "s1" selA; Style "color:blue" "s2" selB]).1 in
  let r := add c (Style "color:red" "s1" selC) in
  sheet c = [".a{color:red}"; ".b{color:blue}"] ∧
  sheet r.1 = [".a,.c{color:red}"; ".b{color:blue}"] ∧
  _keys r.1 = ["s1"; "s2"] ∧
  ∃ item, r.2 = [Changed item 0 0] ∧ getStyles item = ".a,.c{color:red}".
Proof.
  cbv zeta. split; [vm_compute; reflexivity|]. split; [vm_compute; reflexivity|].
  split; [vm_compute; reflexivity|].
  eexists. split; [vm_compute; reflexivity|]. vm_compute. reflexivity.
Qed.

Lemma C9_insertion_order_preserved_witness :
  let selA := (add emptyCache (Selector ".a" "ka")).1 in
  let selB := (add emptyCache (Selector ".b" "kb")).1 in
  let selC := (add emptyCache (Selector ".c" "kc")).1 in
  let c := (addAll emptyCache
              [Style "color:red" "s1" selA; Style "color:blue" "s2" selB]).1 in
  let n := Style "color:red" "s1" selC in
  reachable c ∧ nodeId n ∈ _keys c ∧
  ∃ (i : nat) (item : Node),
    _keys c !! i = Some (nodeId n) ∧
    childrenGet (nodeId n) (_children c) = Some item ∧
    let item' :=
      match asCache item, asCache n with
      | Some ic, Some sc => setCache item (merge ic sc)
      | _, _ => item
      end in
    childrenGet (nodeId n) (_children (add c n).1) = Some item' ∧
    sheet (add c n).1 = <[i := getStyles item']> (sheet c) ∧
    (add c n).2
    = match asCache item, asCache n with
      | Some ic, Some sc =>
          if bool_decide (changeId (merge ic sc) ≠ changeId ic)
          then [Changed item' (Z.of_nat i) (Z.of_nat i)]
          else []
      | _, _ => []
      end ∧
    (∀ k, k ≠ nodeId n →
          childrenGet k (_children (add c n).1) = childrenGet k (_children c)) ∧
    (∀ ic sc, asCache item = Some ic → asCache n = Some sc →
              _keys ic `prefix_of` _keys (merge ic sc) ∧
              ∀ m, m ∈ values sc → nodeId m ∈ _keys (merge ic sc)).
Proof.
  intros selA selB selC c n.
  assert (reachable c) as Hr by apply addAll_reachable, reachable_new.
  assert (nodeId n ∈ _keys c) as Hin.
  { replace (_keys c) with ["s1"; "s2"] by (vm_compute; reflexivity). by left. }
  split; [exact Hr|]. split; [exact Hin|].
  exact (proj1 (proj2 (proj2 (proj2 (proj2 (proj2 (proj2
           (C9_insertion_order_preserved c n Hr))))))) Hin).
Defined.

(* ================================================================== *)
(** * Unique styles on a registered instance *)
(* ================================================================== *)







(* ================================================================== *)
(** * The nested entries that [stylize] walks *)
(* ================================================================== *)

Section Fingerprint.
Variable rec : string → Styles → list StylizeRule → list StylizeStyle →
               option string → StylizeState.
Hypothesis rec_pid :
  ∀ name sub rl sl q rl' sl' q',
    (rec name sub rl sl q).1.1 = (rec name sub rl' sl' q').1.1.

Lemma foldl_stylizeNested_pid p p' nested :
  ∀ st st' : StylizeState, st.1.1 = st'.1.1 →
  (foldl (stylizeNested rec p) st nested).1.1
  = (foldl (stylizeNested rec p') st' nested).1.1.
Proof.
  induction nested as [|e nested IH]; intros st st' Hst; [done|].
  cbn [foldl]. apply IH.
  destruct st as [[pid rl] sl], st' as [[pid' rl'] sl']. cbn [fst] in Hst. subst pid'.
  unfold stylizeNested.
  pose proof (rec_pid e.1 e.2 rl sl p rl' sl' p') as Hrec.
  destruct (rec e.1 e.2 rl sl p) as [[sub r1] s1].
  destruct (rec e.1 e.2 rl' sl' p') as [[sub' r1'] s1'].
  cbn [fst] in *. by subst.
Qed.

Lemma foldl_stylizeNested_pid_closed p nested :
  ∀ st : StylizeState,
  (foldl (stylizeNested rec p) st nested).1.1
  = foldl String.append st.1.1
      (map (λ e : string * Styles, e.1 +:+ (rec e.1 e.2 [] [] None).1.1) nested).
Proof.
  induction nested as [|e nested IH]; intros st; [done|].
  cbn [foldl map]. rewrite IH. f_equal.
  destruct st as [[pid rl] sl]. unfold stylizeNested.
  pose proof (rec_pid e.1 e.2 rl sl p [] [] None) as Hrec.
  destruct (rec e.1 e.2 rl sl p) as [[sub r1] s1].
  cbn [fst] in *. by rewrite Hrec.
Qed.
End Fingerprint.

(** The [pid] that [stylize] returns does not depend on the accumulators
    and on the parent selector. *)
Lemma stylizeFuel_pid fuel :
  ∀ selector styles rl sl p rl' sl' p',
    (stylizeFuel fuel selector styles rl sl p).1.1
    = (stylizeFuel fuel selector styles rl' sl' p').1.1.
Proof.
  induction fuel as [|fuel IH]; intros selector styles rl sl p rl' sl' p'; [done|].
  cbn [stylizeFuel]. unfold stylizeBody.
  case_bool_decide.
  - set (f1 := foldl (stylizeNested _ p) _ _).
    set (f2 := foldl (stylizeNested _ p') _ _).
    assert (f1.1.1 = f2.1.1) as Hpid by (by apply foldl_stylizeNested_pid).
    by destruct f1 as [[pid1 cr1] cs1], f2 as [[pid2 cr2] cs2].
  - by apply foldl_stylizeNested_pid.
Qed.

Lemma stylize_pid_indep selector styles rl sl p rl' sl' p' :
  (stylize selector styles rl sl p).1.1 = (stylize selector styles rl' sl' p').1.1.
Proof. apply stylizeFuel_pid. Qed.

(** The nested entries of a node in the order in which [stylize] goes
    through them. *)
Lemma stylize_walk selector styles rulesList stylesList parent :
  stylize selector styles rulesList stylesList parent
  = let style := p_style (parseStyles styles true) in
    let isUnique := p_isUnique (parseStyles styles true) in
    if bool_decide (JS.charCodeAt0 selector = Some 64) then
      let childStyles :=
        match parent with
        | Some p =>
            if stringTruthy style && stringTruthy p then
              [ {| ss_selector := p; ss_style := style; ss_isUnique := isUnique |} ]
            else []
        | None => []
        end in
      let '(pid, childRules, childStyles') :=
        foldl (stylizeNested stylize parent) (style, [], childStyles)
              (parseNested styles) in
      (pid,
       rulesList ++
         [ {| sr_selector := selector;
              sr_style := if parentTruthy parent then "" else style;
              sr_rules := childRules;
              sr_styles := childStyles' |} ],
       stylesList)
    else
      let key :=
        match parent with
        | Some p => if stringTruthy p then interpolate selector p else selector
        | None => selector
        end in
      let stylesList' :=
        if stringTruthy style then
          stylesList ++
            [ {| ss_selector := key; ss_style := style; ss_isUnique := isUnique |} ]
        else stylesList in
      foldl (stylizeNested stylize (Some key)) (style, rulesList, stylesList')
            (if String.eqb selector "" then sortTuples (parseNested styles)
             else parseNested styles).
Proof.
  rewrite stylize_unfold. unfold stylizeBody. cbv zeta.
  case_bool_decide as Hat.
  - assert (String.eqb selector "" = false) as ->.
    { apply String.eqb_neq. intros ->. discriminate. }
    reflexivity.
  - by destruct (String.eqb selector "").
Qed.

Lemma stylize_pid selector styles rulesList stylesList parent :
  (stylize selector styles rulesList stylesList parent).1.1
  = join (p_style (parseStyles styles true) ::
          map (λ e : string * Styles, e.1 +:+ (stylize e.1 e.2 [] [] None).1.1)
              (if String.eqb selector "" then sortTuples (parseNested styles)
               else parseNested styles)).
Proof.
  rewrite stylize_walk. cbv zeta. unfold join. cbn [foldl].
  change ("" +:+ ?s) with s.
  case_bool_decide as Hat.
  - assert (String.eqb selector "" = false) as ->.
    { apply String.eqb_neq. intros ->. discriminate. }
    set (f1 := foldl (stylizeNested _ parent) _ _).
    pose proof (foldl_stylizeNested_pid_closed stylize stylize_pid_indep parent
                  (parseNested styles)
                  (p_style (parseStyles styles true), [],
                   match parent with
                   | Some p =>
                       if stringTruthy (p_style (parseStyles styles true))
                          && stringTruthy p
                       then [ {| ss_selector := p;
                                 ss_style := p_style (parseStyles styles true);
                                 ss_isUnique := p_isUnique (parseStyles styles true) |} ]
                       else []
                   | None => []
                   end)) as Hpid.
    fold f1 in Hpid.
    by destruct f1 as [[pid1 cr1] cs1].
  - by rewrite (foldl_stylizeNested_pid_closed stylize stylize_pid_indep).
Qed.

Lemma registerHashRule_id production prefix styles st :
  (registerHashRule production prefix styles st).1.1
  = key production (stylize "" styles [] [] None).1.1 styles.
Proof.
  unfold registerHashRule.
  destruct (stylize "" styles [] [] None) as [[pid rl] sl].
  destruct (composeStylize _ _ _ _ _ _ _) as [[ruleCache uid] log].
  by destruct (add _ _).
Qed.

(** C4 (amended): [stylize] parses a node with [hasNestedStyles] set
    exactly when its selector is not the empty string, and goes through the
    nested entries that [parseStyles] returns.  For the empty selector (the
    roots of [registerCss] and [registerHashRule], and a nested entry whose
    trimmed name is empty) these are the authored entries sorted by name;
    for every other selector, the root [&] of [registerStyle] and every
    at-rule included, they are the authored entries in authoring order.
    The order shows in the result: the [pid] of a node is its declarations
    followed, for each nested entry in the order walked, by the name of the
    entry and its [pid]; so the id returned by [registerStyle] is the key of
    the fingerprint in authoring order, and the id returned by
    [registerHashRule] is the key of the fingerprint in sorted order. *)
Theorem C4_nested_sorted_iff_selector_empty
    (selector : string) (styles : Styles)
    (rulesList : list StylizeRule) (stylesList : list StylizeStyle)
    (parent : option string) (c : ascii) (rest : string)
    (production : bool) (prefix : string) (st : State) :
  let style := p_style (parseStyles styles true) in
  let isUnique := p_isUnique (parseStyles styles true) in
  let walked :=
    if String.eqb selector "" then sortTuples (parseNested styles)
    else parseNested styles in
  let fingerprint (nested : list (string * Styles)) :=
    join (style ::
          map (λ e : string * Styles, e.1 +:+ (stylize e.1 e.2 [] [] None).1.1)
              nested) in
  stylize selector styles rulesList stylesList parent
  = stylizeBody stylize selector styles rulesList stylesList parent ∧
  sortedByName (p_nested (parseStyles styles (negb (String.eqb "" "")))) ∧
  p_nested (parseStyles styles (negb (String.eqb "" ""))) ≡ₚ parseNested styles ∧
  p_nested (parseStyles styles (negb (String.eqb (String c rest) "")))
  = parseNested styles ∧
  p_nested (parseStyles styles (negb (String.eqb selector ""))) = walked ∧
  stylize selector styles rulesList stylesList parent
  = (if bool_decide (JS.charCodeAt0 selector = Some 64) then
       let childStyles :=
         match parent with
         | Some p =>
             if stringTruthy style && stringTruthy p then
               [ {| ss_selector := p; ss_style := style; ss_isUnique := isUnique |} ]
             else []
         | None => []
         end in
       let '(pid, childRules, childStyles') :=
         foldl (stylizeNested stylize parent) (style, [], childStyles)
               (parseNested styles) in
       (pid,
        rulesList ++
          [ {| sr_selector := selector;
               sr_style := if parentTruthy parent then "" else style;
               sr_rules := childRules;
               sr_styles := childStyles' |} ],
        stylesList)
     else
       let key :=
         match parent with
         | Some p => if stringTruthy p then interpolate selector p else selector
         | None => selector
         end in
       let stylesList' :=
         if stringTruthy style then
           stylesList ++
             [ {| ss_selector := key; ss_style := style; ss_isUnique := isUnique |} ]
         else stylesList in
       foldl (stylizeNested stylize (Some key)) (style, rulesList, stylesList')
             walked) ∧
  (stylize selector styles rulesList stylesList parent).1.1 = fingerprint walked ∧
  (registerStyle production styles st).1.1
  = key production (fingerprint (parseNested styles)) styles ∧
  (registerHashRule production prefix styles st).1.1
  = key production (fingerprint (sortTuples (parseNested styles))) styles ∧
  (registerKeyframes production styles st).1.1
  = key production (fingerprint (sortTuples (parseNested styles))) styles.
Proof.
  cbv zeta.
  split; [apply stylize_unfold|]. split; [apply sortTuples_sorted|].
  split; [apply sortTuples_perm|]. split; [reflexivity|].
  split; [by destruct (String.eqb selector "")|].
  split; [apply stylize_walk|].
  split; [apply stylize_pid|].
  split.
  { rewrite registerStyle_items. cbn [fst].
    by rewrite (stylize_pid "&" styles [] [] None). }
  split.
  { rewrite registerHashRule_id.
    by rewrite (stylize_pid "" styles [] [] None). }
  unfold registerKeyframes. rewrite registerHashRule_id.
  by rewrite (stylize_pid "" styles [] [] None).
Qed.

(** The check of C4 on two nested selectors authored in descending order:
    the root of [registerCss] walks them sorted, the root of [registerStyle]
    in authoring order. *)
Example walk_order_of_the_roots :
  map ss_selector (stylize "" [(".b", VStyles [("color", red)]);
                               (".a", VStyles [("color", blue)])] [] [] None).2
  = [".a"; ".b"] ∧
  map ss_selector (stylize "&" [(".b", VStyles [("color", red)]);
                                (".a", VStyles [("color", blue)])] [] [] None).2
  = ["& .b"; "& .a"].
Proof. split; vm_compute; reflexivity. Qed.
